(** * Permission ownership and permission requests (grouper/permissions.py)

    A shallow embedding of [grouper/permissions.py]: the grant reducer
    ([filter_grantable_permissions]), the ownership resolver
    ([get_owners_by_grantable_permission]), the argument-set reducer
    ([get_grantable_permissions] and its [_reduce_args]), the owner lookup
    ([get_owner_arg_list]), the request workflow ([create_request],
    [get_requests], [update_request]) and [permission_intersection].

    Python dictionaries whose iteration order reaches a result are
    association lists in insertion order; dictionaries and sets that are only
    looked up or collected into a set are [gmap] and [gset].  The SQLAlchemy
    session is a pair of databases (what is committed and what the session
    currently sees); code that raises returns an [Error].  The value of
    [datetime.utcnow()] is an argument of the functions that read it. *)

From Stdlib Require Import ZArith String Ascii List Sorted Permutation Lia.
From stdpp Require Import base option list sorting strings gmap.

Local Open Scope Z_scope.

(** ** The order on strings

    Python compares [str] values code point by code point; [String.compare]
    does the same on the characters' codes. *)

Definition str_le (s1 s2 : string) : Prop := String.leb s1 s2 = true.
Definition str_lt (s1 s2 : string) : Prop := String.ltb s1 s2 = true.

(** ** Python's [sorted], [set], [any], [all] and slices *)

Section Sorting.
Context {A : Type} (leb : A -> A -> bool).

(** A stable sort: an element goes before the first element that is not
    smaller, so elements that compare equal keep the order of the input. *)
Fixpoint sorted_insert (x : A) (l : list A) : list A :=
  match l with
  | [] => [x]
  | y :: l' => if leb x y then x :: y :: l' else y :: sorted_insert x l'
  end.

Fixpoint sorted_by (l : list A) : list A :=
  match l with
  | [] => []
  | x :: l' => sorted_insert x (sorted_by l')
  end.
End Sorting.

(** [sorted(l, key=key)] with string keys. *)
Definition sorted {A : Type} (key : A -> string) (l : list A) : list A :=
  sorted_by (fun x y => String.leb (key x) (key y)) l.

(** [set(l)] as the list of its elements, to be passed to [sorted]: the
    order in which Python walks a set does not reach the result, because a
    sorted list of distinct strings is unique (lemma [sorted_unique]). *)
Definition py_set (l : list string) : list string := remove_dups l.

Definition any (l : list bool) : bool := existsb (fun b => b) l.
Definition all (l : list bool) : bool := forallb (fun b => b) l.

(** [l[start:stop]] for integer bounds: a negative bound counts from the end
    of the list, and both bounds are clamped to [0 .. len(l)]. *)
Definition slice_index (len i : Z) : nat :=
  Z.to_nat (if i <? 0 then Z.max 0 (len + i) else Z.min len i).

Definition py_slice {A : Type} (l : list A) (start stop : Z) : list A :=
  let len := Z.of_nat (length l) in
  let lo := slice_index len start in
  let hi := slice_index len stop in
  take (hi - lo)%nat (drop lo l).

(** [s.split("/", 1)]: the text before the first slash, and the text after
    it when there is a slash.  The Python list has one or two elements and is
    never empty. *)
Fixpoint split_slash (s : string) : string * option string :=
  match s with
  | EmptyString => (EmptyString, None)
  | String c s' =>
      if Ascii.eqb c "/"%char then (EmptyString, Some s')
      else let '(h, t) := split_slash s' in (String c h, t)
  end.

(** ** Dictionaries in insertion order *)

Section Dict.
Context {K V : Type} `{EqDecision K}.

Fixpoint dict_get (d : list (K * V)) (k : K) : option V :=
  match d with
  | [] => None
  | (k', v) :: d' => if decide (k = k') then Some v else dict_get d' k
  end.

(** [d[k] = v]: a key that is present keeps its place. *)
Fixpoint dict_set (d : list (K * V)) (k : K) (v : V) : list (K * V) :=
  match d with
  | [] => [(k, v)]
  | (k', v') :: d' =>
      if decide (k = k') then (k, v) :: d' else (k', v') :: dict_set d' k v
  end.

(** [{k: v for (k, v) in l}]. *)
Definition dict_of_list (l : list (K * V)) : list (K * V) :=
  foldl (fun d kv => dict_set d kv.1 kv.2) [] l.

Definition dict_keys (d : list (K * V)) : list K := d.*1.
End Dict.

(** ** Data model *)

Inductive Status := pending | actioned | cancelled.

(** The statuses are the strings "pending", "actioned" and "cancelled". *)
Definition status_str (st : Status) : string :=
  match st with
  | pending => "pending"
  | actioned => "actioned"
  | cancelled => "cancelled"
  end.

Record Permission := mkPermission {
  permission_id : Z;
  permission_name : string;
  permission_description : string;
  permission_enabled : bool;
  permission_audited : bool }.

Record Group := mkGroup {
  group_id : Z;
  group_name : string;
  group_enabled : bool;
  group_email_address : option string }.

Record User := mkUser {
  user_id : Z;
  user_name : string }.

(** A row of the permission map: one grant of a permission and an argument
    to a group (the column [granted_on] is never read here). *)
Record PermissionMap := mkPermissionMap {
  pm_permission_id : Z;
  pm_group_id : Z;
  pm_argument : string }.

Record PermissionRequest := mkPermissionRequest {
  request_id : Z;
  request_requester_id : Z;
  request_group_id : Z;
  request_permission_id : Z;
  request_argument : string;
  request_status : Status;
  request_requested_at : Z }.

Record PermissionRequestStatusChange := mkStatusChange {
  sc_id : Z;
  sc_request_id : Z;
  sc_user_id : Z;
  sc_from_status : option Status;
  sc_to_status : Status;
  sc_change_at : Z }.

Record Comment := mkComment {
  comment_obj_type : Z;
  comment_obj_pk : Z;
  comment_user_id : Z;
  comment_comment : string;
  comment_created_on : Z }.

Record AuditLog := mkAuditLog {
  log_actor_id : Z;
  log_action : string;
  log_description : string;
  log_on_group_id : option Z;
  log_on_user_id : option Z;
  log_on_permission_id : option Z }.

(** [Grant = namedtuple("Grant", "name, argument")]; also what the grant
    reducer reads of the objects it is given. *)
Record Grant := mkGrant {
  grant_name : string;
  grant_argument : string }.

(** A row of the query [(Permission.name, PermissionMap.argument, Group)]. *)
Record GroupPermission := mkGroupPermission {
  gp_name : string;
  gp_argument : string;
  gp_Group : Group }.

(** The subject of a mail is rendered from a template with the names of the
    permission and the group; [update_request] puts "Re: " before it. *)
Record Subject := mkSubject {
  subject_reply : bool;
  subject_permission : string;
  subject_group : string }.

Inductive ContextValue := CtxStr (s : string) | CtxInt (z : Z).

Record Email := mkEmail {
  email_recipients : gset string;
  email_subject : Subject;
  email_template : string;
  email_context : list (string * ContextValue) }.

Global Instance Status_eq_dec : EqDecision Status.
Proof. solve_decision. Defined.
Global Instance Permission_eq_dec : EqDecision Permission.
Proof. solve_decision. Defined.
Global Instance Group_eq_dec : EqDecision Group.
Proof. solve_decision. Defined.
Global Instance User_eq_dec : EqDecision User.
Proof. solve_decision. Defined.
Global Instance PermissionMap_eq_dec : EqDecision PermissionMap.
Proof. solve_decision. Defined.

(** The tables of the database. *)
Record DB := mkDB {
  permissions : list Permission;
  groups : list Group;
  users : list User;
  permission_maps : list PermissionMap;
  requests : list PermissionRequest;
  status_changes : list PermissionRequestStatusChange;
  comments : list Comment;
  audit_logs : list AuditLog;
  counter_updates : Z }.

(** The session: the database as committed, the database as the session sees
    it (committed rows and the rows added or changed since), and the mails
    handed to [send_email]. *)
Record Session := mkSession {
  committed : DB;
  current : DB;
  outbox : list Email }.

(** The key of the owner map: a permission name, or the singleton
    [GLOBAL_OWNERS]. *)
Inductive OwnerKey := GLOBAL_OWNERS | PermName (name : string).

Global Instance OwnerKey_eq_dec : EqDecision OwnerKey.
Proof. solve_decision. Defined.

(** [{permission: {argument: [owner, ...]}}]. *)
Definition OwnersByArg := list (string * list Group).
Definition OwnerMap := list (OwnerKey * OwnersByArg).

(** [Requests = namedtuple("Requests", ...)]. *)
Record Requests := mkRequests {
  requests_requests : list PermissionRequest;
  status_change_by_request_id : gmap Z (list PermissionRequestStatusChange);
  comment_by_status_change_id : gmap Z Comment }.

(** ** Exceptions *)

Inductive Error :=
  | RequestAlreadyExists
  | NoOwnersAvailable
  | RequestAlreadyGranted
  | UserNotAuditor
  | IntegrityError
  | AssertionError
  | AttributeError.

Global Instance Error_eq_dec : EqDecision Error.
Proof. solve_decision. Defined.

Inductive Result (A : Type) :=
  | Return (a : A)
  | Raise (e : Error).
Arguments Return {A} a.
Arguments Raise {A} e.

Global Instance Result_ret : MRet Result := fun A a => Return a.
Global Instance Result_bind : MBind Result := fun A B f r =>
  match r with
  | Return a => f a
  | Raise e => Raise e
  end.

(** Code that reads and writes the session and may raise. *)
Definition M (A : Type) : Type := Session -> Result A * Session.

Global Instance M_ret : MRet M := fun A a s => (Return a, s).
Global Instance M_bind : MBind M := fun A B f m s =>
  match m s with
  | (Return a, s') => f a s'
  | (Raise e, s') => (Raise e, s')
  end.

Definition raise {A : Type} (e : Error) : M A := fun s => (Raise e, s).

(** A query result, or an exception raised while computing it. *)
Definition lift {A : Type} (r : Result A) : M A := fun s => (r, s).

(** The database as the session sees it. *)
Definition query : M DB := fun s => (Return (current s), s).

Definition update (f : DB -> DB) : M unit := fun s =>
  (Return tt, mkSession (committed s) (f (current s)) (outbox s)).

(** [session.commit()] and [session.rollback()]. *)
Definition commit : M unit := fun s =>
  (Return tt, mkSession (current s) (current s) (outbox s)).

Definition rollback : M unit := fun s =>
  (Return tt, mkSession (committed s) (committed s) (outbox s)).

(** [try: body except e: handler]. *)
Definition try_except {A : Type} (body : M A) (e : Error) (handler : M A)
  : M A := fun s =>
  match body s with
  | (Raise e', s') => if decide (e' = e) then handler s' else (Raise e', s')
  | r => r
  end.

(** ** What the module imports

    Constants, helpers and plugins that [grouper/permissions.py] imports from
    the rest of the package.  The functions below are stated for any of them.
    The ones that read the database get the database as the session sees
    it. *)

Class Collaborators := {
  (** [grouper.constants] *)
  PERMISSION_ADMIN : string;
  PERMISSION_GRANT : string;
  (** [re.match(ARGUMENT_VALIDATION + "$", argument)] *)
  ARGUMENT_VALIDATION : string -> bool;
  (** [OBJ_TYPES_IDX.index("PermissionRequestStatusChange")] *)
  OBJ_TYPE_STATUS_CHANGE : Z;
  (** [grouper.util.matches_glob(glob, text)] *)
  matches_glob : string -> string -> bool;
  (** [grouper.audit.assert_controllers_are_auditors(group)]: [false] when
      it raises [UserNotAuditor]. *)
  assert_controllers_are_auditors : DB -> Group -> bool;
  (** [group.my_permissions()], the name and the argument of each tuple. *)
  my_permissions : DB -> Group -> list (string * string);
  (** [group.my_members()], the keys [(type, name)]. *)
  my_members : DB -> Group -> list (string * string);
  (** [grouper.user_group.get_groups_by_user(session, user)], the groups. *)
  get_groups_by_user : DB -> User -> list Group;
  (** [get_plugin_proxy().get_owner_by_arg_by_perm(session)] *)
  get_owner_by_arg_by_perm : DB -> list (list (string * OwnersByArg));
  (** [request.reference_id] *)
  reference_id : PermissionRequest -> string }.

(** ** Table updates *)

(** The primary key given to a new row. *)
Definition next_id (ids : list Z) : Z := 1 + foldr Z.max 0 ids.

Definition db_add_permission_map (m : PermissionMap) (db : DB) : DB :=
  mkDB (permissions db) (groups db) (users db) (permission_maps db ++ [m])
       (requests db) (status_changes db) (comments db) (audit_logs db)
       (counter_updates db).

(** [Counter.incr(session, "updates")] *)
Definition db_incr_updates (db : DB) : DB :=
  mkDB (permissions db) (groups db) (users db) (permission_maps db)
       (requests db) (status_changes db) (comments db) (audit_logs db)
       (counter_updates db + 1).

Definition db_add_request (r : PermissionRequest) (db : DB) : DB :=
  mkDB (permissions db) (groups db) (users db) (permission_maps db)
       (requests db ++ [r]) (status_changes db) (comments db) (audit_logs db)
       (counter_updates db).

Definition db_add_status_change (sc : PermissionRequestStatusChange)
    (db : DB) : DB :=
  mkDB (permissions db) (groups db) (users db) (permission_maps db)
       (requests db) (status_changes db ++ [sc]) (comments db) (audit_logs db)
       (counter_updates db).

Definition db_add_comment (c : Comment) (db : DB) : DB :=
  mkDB (permissions db) (groups db) (users db) (permission_maps db)
       (requests db) (status_changes db) (comments db ++ [c]) (audit_logs db)
       (counter_updates db).

Definition db_add_audit_log (l : AuditLog) (db : DB) : DB :=
  mkDB (permissions db) (groups db) (users db) (permission_maps db)
       (requests db) (status_changes db) (comments db) (audit_logs db ++ [l])
       (counter_updates db).

Definition set_status (new_status : Status) (r : PermissionRequest)
  : PermissionRequest :=
  mkPermissionRequest (request_id r) (request_requester_id r)
    (request_group_id r) (request_permission_id r) (request_argument r)
    new_status (request_requested_at r).

(** [request.status = new_status] on the row of the request. *)
Definition db_set_request_status (id : Z) (new_status : Status) (db : DB)
  : DB :=
  mkDB (permissions db) (groups db) (users db) (permission_maps db)
       (map (fun r => if decide (request_id r = id)
                      then set_status new_status r else r) (requests db))
       (status_changes db) (comments db) (audit_logs db) (counter_updates db).

(** The row an attribute such as [request.permission] loads; with no such
    row the attribute is [None] and reading a field of it raises. *)
Definition related {A : Type} (row_id : A -> Z) (table : list A) (id : Z)
  : Result A :=
  match List.find (fun x => bool_decide (row_id x = id)) table with
  | Some x => Return x
  | None => Raise AttributeError
  end.

Definition request_permission (db : DB) (r : PermissionRequest)
  : Result Permission :=
  related permission_id (permissions db) (request_permission_id r).

Definition request_group (db : DB) (r : PermissionRequest) : Result Group :=
  related group_id (groups db) (request_group_id r).

Definition request_requester (db : DB) (r : PermissionRequest) : Result User :=
  related user_id (users db) (request_requester_id r).

(** The request with this id, as the session sees it. *)
Definition get_request (db : DB) (id : Z) : option PermissionRequest :=
  List.find (fun r => bool_decide (request_id r = id)) (requests db).

(** [send_email(session, recipients, subject, template, settings, context)] *)
Definition send_email (recipients : gset string) (subject : Subject)
    (template : string) (context : list (string * ContextValue)) : M unit :=
  fun s =>
    (Return tt,
     mkSession (committed s) (current s)
       (outbox s ++ [mkEmail recipients subject template context])).

(** [AuditLog.log(session, actor, action, description, on_...)] *)
Definition AuditLog_log (l : AuditLog) : M unit := update (db_add_audit_log l).

(** ** The functions of [grouper/permissions.py] *)

Section Permissions.
Context `{Collaborators}.

Definition get_all_permissions (db : DB) (include_disabled : bool)
  : list Permission :=
  sorted permission_name
    (filter (fun p => include_disabled = true \/ permission_enabled p = true)
            (permissions db)).

(** The unique constraint on (permission, group, argument) makes the
    insert of a grant that is already there fail with [IntegrityError];
    the row is then not in the session. *)
Definition grant_permission (group_id permission_id : Z)
    (argument : string) : M unit :=
  if negb (ARGUMENT_VALIDATION argument) then raise AssertionError
  else
    db ← query;
    let mapping := mkPermissionMap permission_id group_id argument in
    if bool_decide (mapping ∈ permission_maps db) then raise IntegrityError
    else
      update (db_add_permission_map mapping);;
      update db_incr_updates;;
      commit.

(** The pairs one grant contributes: the inner loop over the catalog. *)
Definition grantable_by (all_permissions : list (string * Permission))
    (grant : Grant) : list (Permission * string) :=
  let grantable := split_slash (grant_argument grant) in
  flat_map
    (fun '(name, permission_obj) =>
       if matches_glob grantable.1 name
       then [(permission_obj, default "*" grantable.2)]
       else [])
    all_permissions.

(** The loop over the grants; the [assert] raises at the first grant of
    another name. *)
Fixpoint collect_grantable (all_permissions : list (string * Permission))
    (grants : list Grant) (result : list (Permission * string))
  : Result (list (Permission * string)) :=
  match grants with
  | [] => Return result
  | grant :: grants' =>
      if decide (grant_name grant = PERMISSION_GRANT)
      then collect_grantable all_permissions grants'
             (result ++ grantable_by all_permissions grant)
      else Raise AssertionError
  end.

Definition all_permissions_dict (db : DB) : list (string * Permission) :=
  dict_of_list
    (map (fun permission => (permission_name permission, permission))
         (get_all_permissions db false)).

Definition grantable_key (x : Permission * string) : string :=
  permission_name x.1 +:+ x.2.

Definition filter_grantable_permissions (db : DB) (grants : list Grant)
    (all_permissions : option (list (string * Permission)))
  : Result (list (Permission * string)) :=
  let all_permissions :=
    match all_permissions with
    | None => all_permissions_dict db
    | Some d => d
    end in
  result ← collect_grantable all_permissions grants [];
  mret (sorted grantable_key result).

(** [owners_by_arg_by_perm[key][arg] += owners] on the nested
    [defaultdict]; [.append(group)] is the case of one owner. *)
Definition owners_extend (m : OwnerMap) (key : OwnerKey) (arg : string)
    (owners : list Group) : OwnerMap :=
  let by_arg := default [] (dict_get m key) in
  dict_set m key
    (dict_set by_arg arg (default [] (dict_get by_arg arg) ++ owners)).

(** The join of the permission map with its group and its permission. *)
Definition all_group_permissions (db : DB) : list GroupPermission :=
  flat_map
    (fun pm =>
       flat_map
         (fun g =>
            flat_map
              (fun p => [mkGroupPermission (permission_name p)
                                           (pm_argument pm) g])
              (filter (fun p => permission_id p = pm_permission_id pm)
                      (permissions db)))
         (filter (fun g => group_id g = pm_group_id pm) (groups db)))
    (permission_maps db).

Definition grants_by_group (rows : list GroupPermission)
  : gmap Z (list GroupPermission) :=
  foldl
    (fun m grant =>
       let id := group_id (gp_Group grant) in
       <[id := (m !!! id) ++ [grant]]> m)
    ∅ rows.

(** One round of the loop over the enabled groups. *)
Definition add_group_owners (db : DB) (separate_global : bool)
    (all_permissions : list (string * Permission))
    (by_group : gmap Z (list GroupPermission))
    (m : OwnerMap) (group : Group) : Result OwnerMap :=
  let group_permissions := by_group !!! group_id group in
  if any (map (fun g => bool_decide (gp_name g = PERMISSION_ADMIN))
              group_permissions)
  then
    let m :=
      foldl (fun m perm_name =>
               owners_extend m (PermName perm_name) "*" [group])
            m (dict_keys all_permissions) in
    mret (if separate_global
          then owners_extend m GLOBAL_OWNERS "*" [group] else m)
  else
    let grants :=
      filter (fun gp => gp_name gp = PERMISSION_GRANT) group_permissions in
    grantable ← filter_grantable_permissions db
                  (map (fun gp => mkGrant (gp_name gp) (gp_argument gp)) grants)
                  (Some all_permissions);
    mret (foldl (fun m '(perm, arg) =>
                   owners_extend m (PermName (permission_name perm)) arg [group])
                m grantable).

Fixpoint for_each {A B : Type} (f : B -> A -> Result B) (l : list A) (b : B)
  : Result B :=
  match l with
  | [] => Return b
  | x :: l' => b' ← f b x; for_each f l' b'
  end.

(** The plugins' owner maps are merged in last. *)
Definition merge_plugin_results (m : OwnerMap)
    (results : list (list (string * OwnersByArg))) : OwnerMap :=
  foldl
    (fun m res =>
       foldl
         (fun m '(perm, owners_by_arg) =>
            foldl (fun m '(arg, owners) =>
                     owners_extend m (PermName perm) arg owners)
                  m owners_by_arg)
         m res)
    m results.

Definition get_owners_by_grantable_permission (db : DB)
    (separate_global : bool) : Result OwnerMap :=
  let all_permissions := all_permissions_dict db in
  let all_groups := filter (fun g => group_enabled g = true) (groups db) in
  let by_group := grants_by_group (all_group_permissions db) in
  owners_by_arg_by_perm ←
    for_each (add_group_owners db separate_global all_permissions by_group)
             all_groups [];
  mret (merge_plugin_results owners_by_arg_by_perm
          (get_owner_by_arg_by_perm db)).

(** [perm_name in restricted_ownership_permissions]: the list holds
    names, so [GLOBAL_OWNERS] is never in it. *)
Definition key_in (perm_name : OwnerKey) (names : list string) : bool :=
  match perm_name with
  | PermName n => bool_decide (n ∈ names)
  | GLOBAL_OWNERS => false
  end.

Definition _reduce_args (restricted_ownership_permissions : list string)
    (perm_name : OwnerKey) (args : list string) : list string :=
  let non_wildcard_args := map (fun a => negb (String.eqb a "*")) args in
  if negb (bool_decide (restricted_ownership_permissions = []))
     && key_in perm_name restricted_ownership_permissions
     && any non_wildcard_args
  then sorted id (py_set (filter (fun a => a <> "*") args))
  else if all non_wildcard_args then sorted id (py_set args)
  else ["*"].

Definition get_grantable_permissions (db : DB)
    (restricted_ownership_permissions : list string)
  : Result (list (OwnerKey * list string)) :=
  owners_by_arg_by_perm ← get_owners_by_grantable_permission db false;
  let args_by_perm :=
    foldl
      (fun d '(permission, owners_by_arg) =>
         foldl (fun d argument =>
                  dict_set d permission
                    (default [] (dict_get d permission) ++ [argument]))
               d (dict_keys owners_by_arg))
      [] owners_by_arg_by_perm in
  mret (map (fun '(p, a) =>
               (p, _reduce_args restricted_ownership_permissions p a))
            args_by_perm).

Definition get_owner_arg_list (db : DB) (permission : Permission)
    (argument : string) (owners_by_arg_by_perm : option OwnerMap)
  : Result (list (Group * string)) :=
  owners_by_arg_by_perm ←
    match owners_by_arg_by_perm with
    | None => get_owners_by_grantable_permission db false
    | Some m => Return m
    end;
  let owners_by_arg :=
    default [] (dict_get owners_by_arg_by_perm
                         (PermName (permission_name permission))) in
  mret (flat_map
          (fun '(arg, owners) =>
             if matches_glob arg argument
             then map (fun owner => (owner, arg)) owners
             else [])
          owners_by_arg).
End Permissions.

Section Workflow.
Context `{Collaborators}.

(** The check of the pending requests for the same group, permission and
    argument. *)
Definition same_pending (group : Group) (permission : Permission)
    (argument : string) (r : PermissionRequest) : Prop :=
  request_group_id r = group_id group
  /\ request_permission_id r = permission_id permission
  /\ request_argument r = argument
  /\ request_status r = pending.

Global Instance same_pending_dec group permission argument r :
  Decision (same_pending group permission argument r).
Proof. unfold same_pending. apply _. Defined.

(** [if owner.email_address: ... else: ...] for one owner of the list. *)
Definition owner_addresses (db : DB) (owner : Group) : list string :=
  match group_email_address owner with
  | Some address =>
      if bool_decide (address = "") then
        omap (fun '(t, u) => if bool_decide (t = "User") then Some u else None)
             (my_members db owner)
      else [address]
  | None =>
      omap (fun '(t, u) => if bool_decide (t = "User") then Some u else None)
           (my_members db owner)
  end.

(** Which owners are mailed: the owners of a pattern other than "*" when
    there are some, else the owners that are not global owners when there
    are some, else all of them. *)
Definition mailto_owners (owners_by_arg_by_perm : OwnerMap)
    (owner_arg_list : list (Group * string)) : list (Group * string) :=
  let global_owners :=
    default []
      (dict_get (default [] (dict_get owners_by_arg_by_perm GLOBAL_OWNERS))
                "*") in
  let non_wildcard_owners :=
    filter (fun grant : Group * string => grant.2 <> "*") owner_arg_list in
  let non_global_owners :=
    filter (fun grant : Group * string => grant.1 ∉ global_owners)
           owner_arg_list in
  if negb (bool_decide (non_wildcard_owners = [])) then non_wildcard_owners
  else if negb (bool_decide (non_global_owners = [])) then non_global_owners
  else owner_arg_list.

(** [now] is the value of [datetime.utcnow()]. *)
Definition create_request (now : Z) (user : User) (group : Group)
    (permission : Permission) (argument reason : string)
  : M PermissionRequest :=
  db ← query;
  (* check if group already has perm + arg pair *)
  if existsb (fun '(existing_perm_name, existing_perm_argument) =>
                bool_decide (permission_name permission = existing_perm_name)
                && bool_decide (argument = existing_perm_argument))
             (my_permissions db group)
  then raise RequestAlreadyGranted
  else
  (* check if request already pending for this perm + arg pair *)
  let existing_count :=
    length (filter (same_pending group permission argument) (requests db)) in
  if bool_decide (0 < existing_count)%nat then raise RequestAlreadyExists
  else
  (* determine owner(s) *)
  owners_by_arg_by_perm ← lift (get_owners_by_grantable_permission db true);
  owner_arg_list ← lift (get_owner_arg_list db permission argument
                           (Some owners_by_arg_by_perm));
  if bool_decide (owner_arg_list = []) then raise NoOwnersAvailable
  else
  (if permission_audited permission
      && negb (assert_controllers_are_auditors db group)
   then raise UserNotAuditor else mret tt);;
  let pending_status := pending in
  (* multiple steps to create the request *)
  let request :=
    mkPermissionRequest (next_id (request_id <$> requests db))
      (user_id user) (group_id group) (permission_id permission)
      argument pending_status now in
  update (db_add_request request);;
  let request_status_change :=
    mkStatusChange (next_id (sc_id <$> status_changes db))
      (request_id request) (user_id user) None pending_status now in
  update (db_add_status_change request_status_change);;
  update (db_add_comment
            (mkComment OBJ_TYPE_STATUS_CHANGE (sc_id request_status_change)
                       (user_id user) reason now));;
  (* send notification *)
  let email_context :=
    [("user_name", CtxStr (user_name user));
     ("group_name", CtxStr (group_name group));
     ("permission_name", CtxStr (permission_name permission));
     ("argument", CtxStr argument);
     ("reason", CtxStr reason);
     ("request_id", CtxInt (request_id request));
     ("references_header", CtxStr (reference_id request))] in
  db' ← query;
  let mail_to :=
    flat_map (fun '(owner, arg) => owner_addresses db' owner)
             (mailto_owners owners_by_arg_by_perm owner_arg_list) in
  send_email (list_to_set mail_to)
    (mkSubject false (permission_name permission) (group_name group))
    "pending_permission_request" email_context;;
  mret request.

Definition get_pending_request_by_group (db : DB) (group : Group)
  : list PermissionRequest :=
  filter (fun r => request_status r = pending
                   /\ request_group_id r = group_id group)
         (requests db).

(** The result is a set of group ids; the callers test whether it is
    empty. *)
Definition can_approve_request (db : DB) (request : PermissionRequest)
    (owner : User) (group_ids : option (gset Z))
    (owners_by_arg_by_perm : option OwnerMap) : Result (gset Z) :=
  permission ← request_permission db request;
  owner_arg_list ← get_owner_arg_list db permission (request_argument request)
                     owners_by_arg_by_perm;
  let group_ids :=
    match group_ids with
    | None => list_to_set (group_id <$> get_groups_by_user db owner)
    | Some ids => ids
    end in
  mret (group_ids ∩ list_to_set ((fun o : Group * string => group_id o.1)
                                   <$> owner_arg_list)).

(** A list comprehension whose condition may raise. *)
Fixpoint filter_result {A : Type} (f : A -> Result bool) (l : list A)
  : Result (list A) :=
  match l with
  | [] => Return []
  | x :: l' =>
      b ← f x;
      rest ← filter_result f l';
      mret (if (b : bool) then x :: rest else rest)
  end.

(** The requests of the query, newest first. *)
Definition all_requests (db : DB) (status : option Status)
    (requester : option User) : list PermissionRequest :=
  let by_status :=
    match status with
    | Some st => filter (fun r => request_status r = st) (requests db)
    | None => requests db
    end in
  let by_requester :=
    match requester with
    | Some u => filter (fun r => request_requester_id r = user_id u) by_status
    | None => by_status
    end in
  sorted_by (fun r1 r2 => request_requested_at r2 <=? request_requested_at r1)
            by_requester.

(** The requests the call matches, before the slice: all of them, or
    with an [owner] the ones the owner can approve. *)
Definition matching_requests (db : DB) (status : option Status)
    (owner requester : option User) (owners_by_arg_by_perm : option OwnerMap)
  : Result (list PermissionRequest) :=
  let all_requests := all_requests db status requester in
  owners_by_arg_by_perm ←
    match owners_by_arg_by_perm with
    | None => get_owners_by_grantable_permission db false
    | Some m => Return m
    end;
  match owner with
  | Some owner =>
      let group_ids : gset Z :=
        list_to_set (group_id <$> get_groups_by_user db owner) in
      filter_result
        (fun request =>
           ids ← can_approve_request db request owner (Some group_ids)
                   (Some owners_by_arg_by_perm);
           mret (negb (bool_decide (ids = ∅))))
        all_requests
  | None => Return all_requests
  end.

Definition get_requests (db : DB) (status : option Status) (limit offset : Z)
    (owner requester : option User) (owners_by_arg_by_perm : option OwnerMap)
  : Result (Requests * Z) :=
  requests ← matching_requests db status owner requester
               owners_by_arg_by_perm;
  let total := Z.of_nat (length requests) in
  let requests := py_slice requests offset limit in
  if bool_decide (requests = []) then
    mret (mkRequests requests ∅ ∅, total)
  else
    let status_changes :=
      filter (fun sc => sc_request_id sc ∈ (request_id <$> requests))
             (status_changes db) in
    let status_change_by_request_id :=
      foldl (fun (m : gmap Z (list PermissionRequestStatusChange)) sc =>
               <[sc_request_id sc := (m !!! sc_request_id sc) ++ [sc]]> m)
            ∅ status_changes in
    let comments :=
      filter (fun c => comment_obj_type c = OBJ_TYPE_STATUS_CHANGE
                       /\ comment_obj_pk c ∈ (sc_id <$> status_changes))
             (comments db) in
    let comment_by_status_change_id :=
      foldl (fun (m : gmap Z Comment) c => <[comment_obj_pk c := c]> m)
            ∅ comments in
    mret (mkRequests requests status_change_by_request_id
                     comment_by_status_change_id,
          total).

(** [request] is the object as the caller holds it: its row is the row of
    its id in the session.  [now] is the value of [datetime.utcnow()]. *)
Definition update_request (now : Z) (request : PermissionRequest)
    (user : User) (new_status : Status) (comment : string) : M unit :=
  if decide (request_status request = new_status) then
    (* nothing to do *)
    mret tt
  else
  db ← query;
  (* make sure the grant can happen *)
  (if decide (new_status = actioned) then
     permission ← lift (request_permission db request);
     if permission_audited permission then
       group ← lift (request_group db request);
       if assert_controllers_are_auditors db group then mret tt
       else raise UserNotAuditor
     else mret tt
   else mret tt);;
  (* new status change row *)
  let permission_status_change :=
    mkStatusChange (next_id (sc_id <$> status_changes db))
      (request_id request) (user_id user) (Some (request_status request))
      new_status now in
  update (db_add_status_change permission_status_change);;
  (* new comment *)
  update (db_add_comment
            (mkComment OBJ_TYPE_STATUS_CHANGE (sc_id permission_status_change)
                       (user_id user) comment now));;
  (* update permissionRequest status *)
  update (db_set_request_status (request_id request) new_status);;
  commit;;
  (if decide (new_status = actioned) then
     (* actually grant permission *)
     try_except
       (group ← lift (request_group db request);
        permission ← lift (request_permission db request);
        grant_permission (group_id group) (permission_id permission)
                         (request_argument request))
       IntegrityError
       rollback
   else mret tt);;
  (* audit log *)
  permission ← lift (request_permission db request);
  AuditLog_log
    (mkAuditLog (user_id user) "update_perm_request"
       ("updated permission request to status: " +:+ status_str new_status)
       (Some (request_group_id request))
       (Some (request_requester_id request))
       (Some (permission_id permission)));;
  commit;;
  (* send notification *)
  group ← lift (request_group db request);
  let subject :=
    mkSubject true (permission_name permission) (group_name group) in
  let email_template :=
    if decide (new_status = actioned) then "permission_request_actioned"
    else "permission_request_cancelled" in
  let email_context :=
    [("group_name", CtxStr (group_name group));
     ("action_taken_by", CtxStr (user_name user));
     ("reason", CtxStr comment);
     ("permission_name", CtxStr (permission_name permission));
     ("argument", CtxStr (request_argument request))] in
  requester ← lift (request_requester db request);
  send_email {[user_name requester]} subject email_template email_context.
End Workflow.

(** ** Permission intersection *)

(** What [permission_intersection] reads of the objects in its lists: a
    name and an argument.  [perm_distance] stands for the rest of the object,
    so that two objects with the same name and argument can differ. *)
Record Perm := mkPerm {
  perm_name : string;
  perm_argument : string;
  perm_distance : Z }.

Global Instance Perm_eq_dec : EqDecision Perm.
Proof. solve_decision. Defined.

Global Instance Perm_countable : Countable Perm :=
  inj_countable'
    (fun p => (perm_name p, perm_argument p, perm_distance p))
    (fun t => mkPerm t.1.1 t.1.2 t.2)
    (fun p => match p with mkPerm _ _ _ => eq_refl end).

(** [ret[perm.name][perm.argument] = perm] for each object in turn: of two
    objects with the same name and argument the later one stays. *)
Definition permission_list_to_dict (perms : list Perm)
  : gmap string (gmap string Perm) :=
  foldl
    (fun (ret : gmap string (gmap string Perm)) perm =>
       <[perm_name perm :=
           <[perm_argument perm := perm]> (default ∅ (ret !! perm_name perm))]>
         ret)
    ∅ perms.

(** One round of the loop over [perms_a]. *)
Definition intersection_step (pdict_b : gmap string (gmap string Perm))
    (ret : gset Perm) (perm : Perm) : gset Perm :=
  match pdict_b !! perm_name perm with
  | None => ret
  | Some args_b =>
      if bool_decide (is_Some (args_b !! perm_argument perm)) then
        ret ∪ {[perm]}
      (* Unargumented permissions are granted by any permission with the
         same name *)
      else if bool_decide (perm_argument perm = "") then ret ∪ {[perm]}
      (* Argument wildcard *)
      else if bool_decide (is_Some (args_b !! "*")) then ret ∪ {[perm]}
      else
        match args_b !! "" with
        | Some unargumented => ret ∪ {[unargumented]}
        | None =>
            (* If this permission is a wildcard, we add all permissions with
               the same name from the other set *)
            if bool_decide (perm_argument perm = "*")
            then ret ∪ map_img args_b
            else ret
        end
  end.

Definition permission_intersection (perms_a perms_b : list Perm) : gset Perm :=
  let pdict_b := permission_list_to_dict perms_b in
  foldl (intersection_step pdict_b) ∅ perms_a.

(** ** Predicates of the statements *)

(** [r] is the sorted list, without repetition, of the strings that
    satisfy [P]. *)
Definition sorted_set_of (P : string -> Prop) (r : list string) : Prop :=
  StronglySorted str_lt r /\ forall a, a ∈ r <-> P a.


(** ** An instance of the imports, for the examples *)

(** Modelled from the spec: [grouper.util.matches_glob] is not in the source
    tree.  Pattern characters other than the star match themselves, and a
    star matches any run of zero or more characters. *)
Fixpoint glob_match (pattern : string) : string -> bool :=
  match pattern with
  | EmptyString => fun text => bool_decide (text = EmptyString)
  | String c pattern' =>
      if Ascii.eqb c "*"%char then
        fix star (text : string) : bool :=
          glob_match pattern' text
          || match text with
             | EmptyString => false
             | String _ text' => star text'
             end
      else
        fun text =>
          match text with
          | EmptyString => false
          | String d text' => Ascii.eqb c d && glob_match pattern' text'
          end
  end.

(** Modelled from the spec: the grammar of arguments ([ARGUMENT_VALIDATION])
    is not in the source tree.  Letters, digits and the characters
    [-], [_], [.], [*]. *)
Definition argument_char (c : ascii) : bool :=
  let n := nat_of_ascii c in
  ((48 <=? n) && (n <=? 57) || (65 <=? n) && (n <=? 90)
   || (97 <=? n) && (n <=? 122) || (n =? 45) || (n =? 95) || (n =? 46)
   || (n =? 42))%nat.

Fixpoint argument_grammar (s : string) : bool :=
  match s with
  | EmptyString => true
  | String c s' => argument_char c && argument_grammar s'
  end.

(** The permissions a group holds directly. *)
Definition direct_permissions (db : DB) (group : Group)
  : list (string * string) :=
  flat_map
    (fun pm =>
       if bool_decide (pm_group_id pm = group_id group) then
         omap (fun p => if bool_decide (permission_id p = pm_permission_id pm)
                        then Some (permission_name p, pm_argument pm)
                        else None)
              (permissions db)
       else [])
    (permission_maps db).

(** In the examples the controllers of the group with id 1 are auditors and
    those of the other groups are not; a group has one member, a user named
    after it; users belong to no group; there is no plugin. *)
Definition sample_env : Collaborators := {|
  PERMISSION_ADMIN := "grouper.admin.permissions";
  PERMISSION_GRANT := "grouper.permission.grant";
  ARGUMENT_VALIDATION := argument_grammar;
  OBJ_TYPE_STATUS_CHANGE := 5;
  matches_glob := glob_match;
  assert_controllers_are_auditors := fun _ g => bool_decide (group_id g = 1);
  my_permissions := direct_permissions;
  my_members := fun _ g => [("User", group_name g +:+ "-member")];
  get_groups_by_user := fun _ _ => [];
  get_owner_by_arg_by_perm := fun _ => [];
  reference_id := fun _ => "" |}.

Definition empty_db : DB := mkDB [] [] [] [] [] [] [] [] 0.

Definition perm_ssh : Permission := mkPermission 1 "ssh" "" true false.
Definition perm_sshd : Permission := mkPermission 2 "sshd" "" true false.

Definition grant_of (argument : string) : Grant :=
  mkGrant "grouper.permission.grant" argument.


(** A database for the examples: the group "admins" holds the permission
    admin marker, the group "team" holds ("ssh", "prod"), the permission
    "legacy" is disabled; three requests of "team" are pending and one
    request of "auditors" is actioned. *)
Definition perm_sudo : Permission := mkPermission 3 "sudo" "" true true.
Definition perm_admin : Permission :=
  mkPermission 4 "grouper.admin.permissions" "" true false.
Definition perm_grant : Permission :=
  mkPermission 5 "grouper.permission.grant" "" true false.
Definition perm_legacy : Permission := mkPermission 6 "legacy" "" false false.

Definition group_auditors : Group :=
  mkGroup 1 "auditors" true (Some "auditors@a.co").
Definition group_team : Group := mkGroup 2 "team" true None.
Definition group_admins : Group := mkGroup 3 "admins" true None.

Definition user_gary : User := mkUser 1 "gary@a.co".
Definition user_zay : User := mkUser 2 "zay@a.co".

Definition request_ssh : PermissionRequest :=
  mkPermissionRequest 1 1 2 1 "prod" pending 100.
Definition request_sudo : PermissionRequest :=
  mkPermissionRequest 2 1 2 3 "all" pending 200.
Definition request_shell : PermissionRequest :=
  mkPermissionRequest 3 2 1 1 "shell" actioned 300.
Definition request_sshd : PermissionRequest :=
  mkPermissionRequest 4 2 2 2 "ops" pending 400.

Definition sample_db : DB := {|
  permissions :=
    [perm_ssh; perm_sshd; perm_sudo; perm_admin; perm_grant; perm_legacy];
  groups := [group_auditors; group_team; group_admins];
  users := [user_gary; user_zay];
  permission_maps := [mkPermissionMap 4 3 ""; mkPermissionMap 1 2 "prod"];
  requests := [request_ssh; request_sudo; request_shell; request_sshd];
  status_changes :=
    [mkStatusChange 1 1 1 None pending 100;
     mkStatusChange 2 2 1 None pending 200;
     mkStatusChange 3 3 2 None pending 300;
     mkStatusChange 4 3 1 (Some pending) actioned 310;
     mkStatusChange 5 4 2 None pending 400];
  comments :=
    [mkComment 5 1 1 "deploys" 100; mkComment 5 2 1 "oncall" 200;
     mkComment 5 3 2 "debugging" 300; mkComment 5 4 1 "ok" 310;
     mkComment 5 5 2 "restarts" 400];
  audit_logs := [];
  counter_updates := 0 |}.

Definition sample_session : Session := mkSession sample_db sample_db [].


(** The owners recorded under a key and an argument-pattern. *)
Definition owners_of (m : OwnerMap) (key : OwnerKey) (arg : string)
  : list Group :=
  default [] (dict_get (default [] (dict_get m key)) arg).

(** The group has a grant of the permission of this name. *)
Definition holds (db : DB) (group : Group) (name : string) : Prop :=
  exists pm p,
    pm ∈ permission_maps db /\ pm_group_id pm = group_id group
    /\ p ∈ permissions db /\ permission_id p = pm_permission_id pm
    /\ permission_name p = name.


(** Every key of the owner map is [GLOBAL_OWNERS] or one of the names. *)
Definition keys_within (names : list string) (m : OwnerMap) : Prop :=
  forall k, k ∈ dict_keys m ->
            k = GLOBAL_OWNERS \/ exists n, n ∈ names /\ k = PermName n.

(** Every permission of the catalog stands under its own name. *)
Definition catalog_by_name (catalog : list (string * Permission)) : Prop :=
  forall n p, (n, p) ∈ catalog -> permission_name p = n.


(** The grants of the database have arguments of the grammar, as
    [grant_permission] asserts of each grant it adds. *)
Definition grants_wellformed `{Collaborators} (db : DB) : Prop :=
  forall pm, pm ∈ permission_maps db ->
             ARGUMENT_VALIDATION (pm_argument pm) = true.

(** The checks [update_request] makes before it changes anything: for the
    new status "actioned" the permission of the request is read and, when it
    is audited, the controllers of the group have to be auditors. *)
Definition checks_pass `{Collaborators} (db : DB) (request : PermissionRequest)
    (new_status : Status) : Prop :=
  new_status = actioned ->
  exists permission,
    request_permission db request = Return permission
    /\ (permission_audited permission = true ->
        exists group, request_group db request = Return group
                      /\ assert_controllers_are_auditors db group = true).

(** The row of [request] in [db] has the status [st], and every other
    column as [request] has it. *)
Definition stored_with_status (db : DB) (request : PermissionRequest)
    (st : Status) : Prop :=
  exists row,
    get_request db (request_id request) = Some row
    /\ request_status row = st
    /\ request_id row = request_id request
    /\ request_requester_id row = request_requester_id request
    /\ request_group_id row = request_group_id request
    /\ request_permission_id row = request_permission_id request
    /\ request_argument row = request_argument request
    /\ request_requested_at row = request_requested_at request.

(** The rows [update_request] adds for a transition. *)
Definition new_status_change (db : DB) (now : Z)
    (request : PermissionRequest) (user : User) (new_status : Status)
  : PermissionRequestStatusChange :=
  mkStatusChange (next_id (sc_id <$> status_changes db)) (request_id request)
    (user_id user) (Some (request_status request)) new_status now.

Definition new_comment `{Collaborators} (db : DB) (now : Z) (user : User)
    (comment : string) : Comment :=
  mkComment OBJ_TYPE_STATUS_CHANGE (next_id (sc_id <$> status_changes db))
    (user_id user) comment now.

Definition new_audit_log (request : PermissionRequest) (user : User)
    (permission : Permission) (new_status : Status) : AuditLog :=
  mkAuditLog (user_id user) "update_perm_request"
    ("updated permission request to status: " +:+ status_str new_status)
    (Some (request_group_id request)) (Some (request_requester_id request))
    (Some (permission_id permission)).

(** The database once the status change, its comment and the new status
    are written. *)
Definition transition_rows `{Collaborators} (db : DB) (now : Z)
    (request : PermissionRequest) (user : User) (new_status : Status)
    (comment : string) : DB :=
  db_set_request_status (request_id request) new_status
    (db_add_comment (new_comment db now user comment)
       (db_add_status_change (new_status_change db now request user new_status)
          db)).

Definition status_email (request : PermissionRequest) (user : User)
    (permission : Permission) (group : Group) (requester : User)
    (new_status : Status) (comment : string) : Email :=
  mkEmail {[user_name requester]}
    (mkSubject true (permission_name permission) (group_name group))
    (if decide (new_status = actioned) then "permission_request_actioned"
     else "permission_request_cancelled")
    [("group_name", CtxStr (group_name group));
     ("action_taken_by", CtxStr (user_name user));
     ("reason", CtxStr comment);
     ("permission_name", CtxStr (permission_name permission));
     ("argument", CtxStr (request_argument request))].


(** The two conditions [create_request] checks first. *)
Definition already_granted `{Collaborators} (db : DB) (group : Group)
    (permission : Permission) (argument : string) : Prop :=
  (permission_name permission, argument) ∈ my_permissions db group.

Definition pending_exists (db : DB) (group : Group) (permission : Permission)
    (argument : string) : Prop :=
  exists r, r ∈ requests db /\ same_pending group permission argument r.


(** ** Predicates of the further statements *)

(** The string has a slash. *)
Fixpoint has_slash (s : string) : bool :=
  match s with
  | EmptyString => false
  | String c s' => Ascii.eqb c "/"%char || has_slash s'
  end.


(** No key occurs twice, in the owner map or in the dictionary of a
    permission. *)
Definition owner_map_wf (m : OwnerMap) : Prop :=
  NoDup (dict_keys m)
  /\ forall k by_arg, (k, by_arg) ∈ m -> NoDup (dict_keys by_arg).


(** The imports of the examples, with every user a member of "admins". *)
Definition admin_member_env : Collaborators := {|
  PERMISSION_ADMIN := "grouper.admin.permissions";
  PERMISSION_GRANT := "grouper.permission.grant";
  ARGUMENT_VALIDATION := argument_grammar;
  OBJ_TYPE_STATUS_CHANGE := 5;
  matches_glob := glob_match;
  assert_controllers_are_auditors := fun _ g => bool_decide (group_id g = 1);
  my_permissions := direct_permissions;
  my_members := fun _ g => [("User", group_name g +:+ "-member")];
  get_groups_by_user := fun _ _ => [mkGroup 3 "admins" true None];
  get_owner_by_arg_by_perm := fun _ => [];
  reference_id := fun _ => "" |}.


(** The owner can approve the request: [can_approve_request] returns a set
    that is not empty. *)
Definition approves `{Collaborators} (db : DB) (owner : User) (m : OwnerMap)
    (request : PermissionRequest) : bool :=
  match can_approve_request db request owner None (Some m) with
  | Return ids => negb (bool_decide (ids = ∅))
  | Raise _ => false
  end.

(** Newest first. *)
Definition newer_first (r1 r2 : PermissionRequest) : Prop :=
  request_requested_at r2 <= request_requested_at r1.


Global Instance Result_eq_dec {A : Type} `{EqDecision A} :
  EqDecision (Result A).
Proof. solve_decision. Defined.


(** The owner map [create_request] computes and the owners it finds in it
    for the permission and the argument. *)
Definition request_owners `{Collaborators} (db : DB) (permission : Permission)
    (argument : string) : Result (OwnerMap * list (Group * string)) :=
  m ← get_owners_by_grantable_permission db true;
  l ← get_owner_arg_list db permission argument (Some m);
  mret (m, l).

(** The rows [create_request] adds. *)
Definition created_request (db : DB) (now : Z) (user : User) (group : Group)
    (permission : Permission) (argument : string) : PermissionRequest :=
  mkPermissionRequest (next_id (request_id <$> requests db)) (user_id user)
    (group_id group) (permission_id permission) argument pending now.

Definition created_status_change (db : DB) (now : Z) (user : User)
    (request : PermissionRequest) : PermissionRequestStatusChange :=
  mkStatusChange (next_id (sc_id <$> status_changes db)) (request_id request)
    (user_id user) None pending now.

Definition created_rows `{Collaborators} (db : DB) (now : Z) (user : User)
    (group : Group) (permission : Permission) (argument reason : string)
  : DB :=
  let request := created_request db now user group permission argument in
  db_add_comment
    (mkComment OBJ_TYPE_STATUS_CHANGE (next_id (sc_id <$> status_changes db))
               (user_id user) reason now)
    (db_add_status_change (created_status_change db now user request)
       (db_add_request request db)).


(** The example database without any grant or request: nobody owns a
    permission. *)
Definition bare_db : DB :=
  mkDB (permissions sample_db) (groups sample_db) (users sample_db)
       [] [] [] [] [] 0.

Definition bare_session : Session := mkSession bare_db bare_db [].


(** The example database with one more pending request, whose argument has
    a space and so is not of the grammar. *)
Definition request_malformed : PermissionRequest :=
  mkPermissionRequest 5 2 2 2 "two words" pending 500.

Definition malformed_db : DB :=
  mkDB (permissions sample_db) (groups sample_db) (users sample_db)
       (permission_maps sample_db) (requests sample_db ++ [request_malformed])
       (status_changes sample_db ++ [mkStatusChange 6 5 2 None pending 500])
       (comments sample_db ++ [mkComment 5 6 2 "typo" 500])
       [] 0.

Definition malformed_session : Session :=
  mkSession malformed_db malformed_db [].


(** ** A request and its history *)

(** What [Query.one()] gives for the rows of a query: the row when there is
    exactly one, and an exception otherwise. *)
Inductive One (A : Type) :=
  | OneRow (a : A)
  | NoResultFound
  | MultipleResultsFound.
Arguments OneRow {A} a.
Arguments NoResultFound {A}.
Arguments MultipleResultsFound {A}.

Definition query_one {A : Type} (rows : list A) : One A :=
  match rows with
  | [] => NoResultFound
  | [a] => OneRow a
  | _ => MultipleResultsFound
  end.

Definition get_request_by_id (db : DB) (id : Z) : One PermissionRequest :=
  query_one (filter (fun r => request_id r = id) (requests db)).

Section History.
Context `{Collaborators}.

(** [None] is the [KeyError] of [comment_by_status_change_id[sc.id]]. *)
Definition get_changes_by_request_id (db : DB) (id : Z)
  : option (list (PermissionRequestStatusChange * Comment)) :=
  let status_changes :=
    filter (fun sc => sc_request_id sc = id) (status_changes db) in
  let comments :=
    filter (fun c => comment_obj_type c = OBJ_TYPE_STATUS_CHANGE
                     /\ comment_obj_pk c ∈ (sc_id <$> status_changes))
           (comments db) in
  let comment_by_status_change_id :=
    foldl (fun (m : gmap Z Comment) c => <[comment_obj_pk c := c]> m)
          ∅ comments in
  mapM (fun sc => c ← comment_by_status_change_id !! sc_id sc; Some (sc, c))
       status_changes.
End History.

(** The comment the code finds for a status change: the last comment of the
    table on an object of the status-change type with that key. *)
Definition comment_on `{Collaborators} (db : DB) (pk : Z) : option Comment :=
  last (filter (fun c => comment_obj_type c = OBJ_TYPE_STATUS_CHANGE
                         /\ comment_obj_pk c = pk)
               (comments db)).


(** ** Auditing of a permission *)

(** [Permission.get(session, name=name)] of the permission model, which
    [get_permission] returns as it is. *)
Class PermissionModel := {
  Permission_get : DB -> string -> option Permission }.

(** [raise NoSuchPermission(name=permission_name)] *)
Record NoSuchPermission := mkNoSuchPermission {
  no_such_permission_name : string }.

Definition set_audited (audited : bool) (p : Permission) : Permission :=
  mkPermission (permission_id p) (permission_name p)
    (permission_description p) (permission_enabled p) audited.

(** [permission.audited = audited] on the row of the permission. *)
Definition db_set_permission_audited (id : Z) (audited : bool) (db : DB)
  : DB :=
  mkDB (map (fun p => if decide (permission_id p = id)
                      then set_audited audited p else p) (permissions db))
       (groups db) (users db) (permission_maps db) (requests db)
       (status_changes db) (comments db) (audit_logs db) (counter_updates db).

Section Auditing.
Context `{PM : PermissionModel}.

Definition get_permission (db : DB) (name : string) : option Permission :=
  Permission_get db name.

Definition enable_permission_auditing (permission_name : string)
    (actor_user_id : Z) (s : Session) : (NoSuchPermission + unit) * Session :=
  match get_permission (current s) permission_name with
  | None => (inl (mkNoSuchPermission permission_name), s)
  | Some permission =>
      let body : M unit :=
        update (db_set_permission_audited (permission_id permission) true);;
        AuditLog_log
          (mkAuditLog actor_user_id "enable_auditing" "Enabled auditing."
                      None None (Some (permission_id permission)));;
        update db_incr_updates;;
        commit in
      (inr tt, (body s).2)
  end.

Definition disable_permission_auditing (permission_name : string)
    (actor_user_id : Z) (s : Session) : (NoSuchPermission + unit) * Session :=
  match get_permission (current s) permission_name with
  | None => (inl (mkNoSuchPermission permission_name), s)
  | Some permission =>
      let body : M unit :=
        update (db_set_permission_audited (permission_id permission) false);;
        AuditLog_log
          (mkAuditLog actor_user_id "disable_auditing" "Disabled auditing."
                      None None (Some (permission_id permission)));;
        update db_incr_updates;;
        commit in
      (inr tt, (body s).2)
  end.
End Auditing.

(** A lookup for the examples: the first permission of that name. *)
Definition sample_model : PermissionModel := {|
  Permission_get := fun db name =>
    List.find (fun p => String.eqb (permission_name p) name)
              (permissions db) |}.


(** A request matches the call: it has the status asked for, the requester
    asked for, and the owner asked for can approve it, each when given. *)
Definition request_matches `{Collaborators} (db : DB)
    (status : option Status) (owner requester : option User)
    (owners : OwnerMap) (r : PermissionRequest) : Prop :=
  match status with Some st => request_status r = st | None => True end
  /\ match requester with
     | Some u => request_requester_id r = user_id u
     | None => True
     end
  /\ match owner with
     | Some o => approves db o owners r = true
     | None => True
     end.

Global Instance request_matches_dec `{Collaborators} db status owner requester
    owners r :
  Decision (request_matches db status owner requester owners r).
Proof.
  unfold request_matches. destruct status, requester, owner; apply _.
Defined.


(** How a grant of [PERMISSION_GRANT] reads: its argument is a glob alone,
    which delegates the permissions it matches for any argument (the pattern
    "*"), or a glob, a slash and an argument-pattern; the glob has no
    slash. *)
Definition delegation (argument glob pattern : string) : Prop :=
  has_slash glob = false
  /\ (argument = glob /\ pattern = "*"
      \/ argument = glob +:+ "/" +:+ pattern).

(** * Properties *)

(** ** The order on strings *)

Lemma ascii_compare_refl (c : ascii) : Ascii.compare c c = Eq.
Proof. unfold Ascii.compare. apply N.compare_refl. Qed.

Lemma ascii_compare_lt_trans (a b c : ascii) :
  Ascii.compare a b = Lt -> Ascii.compare b c = Lt -> Ascii.compare a c = Lt.
Proof.
  unfold Ascii.compare. rewrite !N.compare_lt_iff. lia.
Qed.

Lemma str_compare_refl (s : string) : String.compare s s = Eq.
Proof.
  induction s as [|c s IH]; simpl; [reflexivity|].
  rewrite ascii_compare_refl. exact IH.
Qed.

Lemma str_compare_eq (s1 s2 : string) : String.compare s1 s2 = Eq <-> s1 = s2.
Proof.
  split; [apply String.compare_eq_iff|].
  intros ->. apply str_compare_refl.
Qed.

Lemma str_compare_lt_trans (s1 s2 s3 : string) :
  String.compare s1 s2 = Lt -> String.compare s2 s3 = Lt ->
  String.compare s1 s3 = Lt.
Proof.
  revert s2 s3.
  induction s1 as [|c1 s1 IH]; intros [|c2 s2] [|c3 s3]; simpl;
    try discriminate; try reflexivity.
  destruct (Ascii.compare c1 c2) eqn:H12; try discriminate;
    destruct (Ascii.compare c2 c3) eqn:H23; try discriminate; intros Ha Hb.
  - apply Ascii.compare_eq_iff in H12, H23. subst.
    rewrite ascii_compare_refl. eauto.
  - apply Ascii.compare_eq_iff in H12. subst. rewrite H23. reflexivity.
  - apply Ascii.compare_eq_iff in H23. subst. rewrite H12. reflexivity.
  - rewrite (ascii_compare_lt_trans _ _ _ H12 H23). reflexivity.
Qed.

Lemma str_le_cases (s1 s2 : string) :
  str_le s1 s2 <-> String.compare s1 s2 = Lt \/ s1 = s2.
Proof.
  unfold str_le, String.leb.
  destruct (String.compare s1 s2) eqn:Hc.
  - apply str_compare_eq in Hc. tauto.
  - tauto.
  - split; [discriminate|].
    intros [?| ->]; [discriminate|].
    rewrite str_compare_refl in Hc. discriminate.
Qed.

Lemma str_lt_compare (s1 s2 : string) :
  str_lt s1 s2 <-> String.compare s1 s2 = Lt.
Proof.
  unfold str_lt, String.ltb. destruct (String.compare s1 s2); split; congruence.
Qed.

Lemma str_le_refl (s : string) : str_le s s.
Proof. apply str_le_cases. now right. Qed.

Lemma str_le_trans (s1 s2 s3 : string) :
  str_le s1 s2 -> str_le s2 s3 -> str_le s1 s3.
Proof.
  rewrite !str_le_cases. intros [H12| ->] [H23| ->]; auto.
  left. eapply str_compare_lt_trans; eassumption.
Qed.

Lemma str_le_total (s1 s2 : string) : str_le s1 s2 \/ str_le s2 s1.
Proof. apply String.leb_total. Qed.

Lemma str_le_antisym (s1 s2 : string) : str_le s1 s2 -> str_le s2 s1 -> s1 = s2.
Proof. apply String.leb_antisym. Qed.

Lemma str_not_le (s1 s2 : string) : String.leb s1 s2 = false -> str_le s2 s1.
Proof.
  intros H. destruct (str_le_total s1 s2) as [H'|H']; [|exact H'].
  unfold str_le in H'. congruence.
Qed.

Lemma str_lt_le_ne (s1 s2 : string) : str_lt s1 s2 <-> str_le s1 s2 /\ s1 <> s2.
Proof.
  rewrite str_lt_compare, str_le_cases. split.
  - intros H. split; [now left|]. intros ->.
    rewrite str_compare_refl in H. discriminate.
  - intros [[H| ->] Hne]; [exact H|]. now contradict Hne.
Qed.

(** A common prefix does not take part in a comparison. *)
Lemma str_compare_app (p a b : string) :
  String.compare (p +:+ a) (p +:+ b) = String.compare a b.
Proof.
  induction p as [|c p IH]; simpl; [reflexivity|].
  rewrite ascii_compare_refl. exact IH.
Qed.

Lemma str_leb_app (p a b : string) :
  String.leb (p +:+ a) (p +:+ b) = String.leb a b.
Proof. unfold String.leb. now rewrite str_compare_app. Qed.

Global Instance str_le_trans_inst : Transitive str_le.
Proof. intros x y z. apply str_le_trans. Qed.
Global Instance str_le_antisym_inst : AntiSymm (=) str_le.
Proof. intros x y. apply str_le_antisym. Qed.
Global Instance str_le_total_inst : Total str_le.
Proof. intros x y. apply str_le_total. Qed.

Lemma str_lt_trans (s1 s2 s3 : string) :
  str_lt s1 s2 -> str_lt s2 s3 -> str_lt s1 s3.
Proof. rewrite !str_lt_compare. apply str_compare_lt_trans. Qed.

(** ** Sorting *)

Section SortingFacts.
Context {A : Type} (leb : A -> A -> bool).

Lemma sorted_insert_perm (x : A) (l : list A) :
  sorted_insert leb x l ≡ₚ x :: l.
Proof.
  induction l as [|y l IH]; simpl; [reflexivity|].
  destruct (leb x y); [reflexivity|].
  rewrite IH. apply Permutation_swap.
Qed.

Lemma sorted_by_perm (l : list A) : sorted_by leb l ≡ₚ l.
Proof.
  induction l as [|x l IH]; simpl; [reflexivity|].
  rewrite sorted_insert_perm. now rewrite IH.
Qed.

Lemma sorted_by_length (l : list A) : length (sorted_by leb l) = length l.
Proof. apply Permutation_length, sorted_by_perm. Qed.

Lemma sorted_by_elem_of (x : A) (l : list A) :
  x ∈ sorted_by leb l <-> x ∈ l.
Proof. now rewrite sorted_by_perm. Qed.

Hypothesis leb_total : forall x y, leb x y = true \/ leb y x = true.
Hypothesis leb_trans :
  forall x y z, leb x y = true -> leb y z = true -> leb x z = true.

Lemma sorted_insert_sorted (x : A) (l : list A) :
  StronglySorted (fun a b => leb a b = true) l ->
  StronglySorted (fun a b => leb a b = true) (sorted_insert leb x l).
Proof.
  induction 1 as [|y l Hl IH Hy]; simpl.
  - repeat constructor.
  - destruct (leb x y) eqn:Hxy.
    + constructor; [constructor; assumption|].
      constructor; [exact Hxy|].
      eapply Forall_impl; [exact Hy|]. intros z Hz. eauto.
    + constructor; [exact IH|].
      rewrite sorted_insert_perm. constructor; [|exact Hy].
      destruct (leb_total x y) as [Hc|Hc]; [congruence|exact Hc].
Qed.

Lemma sorted_by_sorted (l : list A) :
  StronglySorted (fun a b => leb a b = true) (sorted_by leb l).
Proof.
  induction l as [|x l IH]; simpl; [constructor|].
  now apply sorted_insert_sorted.
Qed.
End SortingFacts.

Lemma sorted_perm {A : Type} (key : A -> string) (l : list A) :
  sorted key l ≡ₚ l.
Proof. apply sorted_by_perm. Qed.

Lemma sorted_elem_of {A : Type} (key : A -> string) (x : A) (l : list A) :
  x ∈ sorted key l <-> x ∈ l.
Proof. apply sorted_by_elem_of. Qed.

(** The result of [sorted] is in the order of the keys. *)
Lemma sorted_sorted {A : Type} (key : A -> string) (l : list A) :
  StronglySorted (fun x y => str_le (key x) (key y)) (sorted key l).
Proof.
  apply (sorted_by_sorted (fun x y => String.leb (key x) (key y))).
  - intros x y. apply String.leb_total.
  - intros x y z. apply str_le_trans.
Qed.

(** A sorted list of strings is determined by its elements, whatever the
    order they were given in. *)
Lemma sorted_unique (l1 l2 : list string) :
  l1 ≡ₚ l2 -> sorted id l1 = sorted id l2.
Proof.
  intros Hp. apply (StronglySorted_unique str_le).
  - apply (sorted_sorted id).
  - apply (sorted_sorted id).
  - now rewrite !sorted_perm.
Qed.

Lemma StronglySorted_le_lt (l : list string) :
  NoDup l -> StronglySorted str_le l -> StronglySorted str_lt l.
Proof.
  intros Hnd Hs. induction Hs as [|x l Hs IH Hx]; [constructor|].
  apply NoDup_cons in Hnd as [Hx' Hnd].
  constructor; [now apply IH|].
  apply Forall_forall. intros y Hy.
  apply str_lt_le_ne. split.
  - rewrite Forall_forall in Hx. now apply Hx.
  - intros ->. contradiction.
Qed.

(** [sorted(set(l))]: strictly increasing, with the elements of [l]. *)
Lemma sorted_set_sorted (l : list string) :
  StronglySorted str_lt (sorted id (py_set l)).
Proof.
  apply StronglySorted_le_lt.
  - rewrite sorted_perm. apply NoDup_remove_dups.
  - apply (sorted_sorted id).
Qed.

Lemma sorted_set_elem_of (a : string) (l : list string) :
  a ∈ sorted id (py_set l) <-> a ∈ l.
Proof. unfold py_set. now rewrite sorted_elem_of, elem_of_remove_dups. Qed.

(** ** The argument-set reducer *)

Lemma any_non_wildcard (args : list string) :
  any (map (fun a => negb (String.eqb a "*")) args) = true
  <-> exists a, a ∈ args /\ a <> "*".
Proof.
  unfold any. rewrite existsb_exists. split.
  - intros (b & Hb & ->). apply in_map_iff in Hb as (a & Ha & Hin).
    exists a. split; [now apply list_elem_of_In|].
    intros ->. now rewrite String.eqb_refl in Ha.
  - intros (a & Hin & Hne). exists true. split; [|reflexivity].
    apply in_map_iff. exists a. split; [|now apply list_elem_of_In].
    apply negb_true_iff, String.eqb_neq, Hne.
Qed.

Lemma all_non_wildcard (args : list string) :
  all (map (fun a => negb (String.eqb a "*")) args) = true
  <-> forall a, a ∈ args -> a <> "*".
Proof.
  unfold all. rewrite forallb_forall. split.
  - intros Hall a Hin ->.
    specialize (Hall (negb (String.eqb "*" "*"))).
    rewrite String.eqb_refl in Hall. simpl in Hall.
    enough (false = true) by discriminate. apply Hall.
    apply in_map_iff. exists "*". split; [|now apply list_elem_of_In].
    now rewrite String.eqb_refl.
  - intros Hall b Hb. apply in_map_iff in Hb as (a & <- & Hin).
    apply negb_true_iff, String.eqb_neq, Hall. now apply list_elem_of_In.
Qed.

Lemma key_in_nonempty (k : OwnerKey) (names : list string) :
  key_in k names = true -> bool_decide (names = []) = false.
Proof.
  destruct k as [|n]; simpl; [discriminate|].
  intros Hin. apply bool_decide_eq_true in Hin.
  apply bool_decide_eq_false. intros ->. inversion Hin.
Qed.

Lemma reduce_args_restricted (restricted : list string) (k : OwnerKey)
    (args : list string) :
  key_in k restricted = true ->
  (exists a, a ∈ args /\ a <> "*") ->
  _reduce_args restricted k args
  = sorted id (py_set (filter (fun a => a <> "*") args)).
Proof.
  intros Hk Hany. unfold _reduce_args.
  rewrite (key_in_nonempty _ _ Hk), Hk.
  apply any_non_wildcard in Hany. now rewrite Hany.
Qed.

Lemma reduce_args_all_non_wildcard (restricted : list string) (k : OwnerKey)
    (args : list string) :
  (forall a, a ∈ args -> a <> "*") ->
  _reduce_args restricted k args = sorted id (py_set args).
Proof.
  intros Hall. unfold _reduce_args.
  rewrite (proj2 (all_non_wildcard args) Hall).
  destruct (negb _ && key_in k restricted && any _); [|reflexivity].
  f_equal. f_equal. clear -Hall.
  induction args as [|a args IH]; [reflexivity|].
  rewrite filter_cons. rewrite decide_True.
  - f_equal. apply IH. intros b Hb. apply Hall. now right.
  - apply Hall. now left.
Qed.

Lemma reduce_args_wildcard (restricted : list string) (k : OwnerKey)
    (args : list string) :
  "*" ∈ args ->
  key_in k restricted = false \/ (forall a, a ∈ args -> a = "*") ->
  _reduce_args restricted k args = ["*"].
Proof.
  intros Hstar Hcase. unfold _reduce_args.
  assert (Hall : all (map (fun a => negb (String.eqb a "*")) args) = false).
  { apply not_true_is_false. rewrite all_non_wildcard.
    intros Hall. now apply (Hall "*"). }
  rewrite Hall.
  destruct Hcase as [Hk|Honly].
  - rewrite Hk, andb_false_r. reflexivity.
  - assert (Hany : any (map (fun a => negb (String.eqb a "*")) args) = false).
    { apply not_true_is_false. rewrite any_non_wildcard.
      intros (a & Hin & Hne). now apply Hne, Honly. }
    rewrite Hany, andb_false_r. reflexivity.
Qed.

Lemma sorted_set_of_singleton (x : string) (r : list string) :
  sorted_set_of (fun a => a = x) r -> r = [x].
Proof.
  intros [Hs Hmem]. destruct r as [|y r].
  - assert (Hx : x ∈ @nil string) by now apply Hmem. inversion Hx.
  - assert (y = x) as -> by (apply Hmem; now left).
    destruct r as [|z r]; [reflexivity|].
    assert (z = x) as -> by (apply Hmem; right; now left).
    apply StronglySorted_inv in Hs as [_ Hx].
    apply Forall_inv in Hx. apply str_lt_le_ne in Hx as [_ Hne].
    now contradict Hne.
Qed.

(** C3, as amended: for a restricted permission with an argument other than
    the wildcard, the reducer returns the arguments other than the wildcard,
    sorted and without repetition; when no argument is the wildcard it
    returns all of them, sorted and without repetition; in every other case
    it returns exactly the wildcard.  For the patterns "*" and "east" a
    restricted permission reduces to ["east"] and any other to ["*"]. *)
Theorem reduce_args_spec (restricted : list string) (k : OwnerKey)
    (args : list string) :
  (key_in k restricted = true -> (exists a, a ∈ args /\ a <> "*") ->
   sorted_set_of (fun a => a ∈ args /\ a <> "*")
                 (_reduce_args restricted k args))
  /\ ((forall a, a ∈ args -> a <> "*") ->
      sorted_set_of (fun a => a ∈ args) (_reduce_args restricted k args))
  /\ ("*" ∈ args ->
      key_in k restricted = false \/ (forall a, a ∈ args -> a = "*") ->
      _reduce_args restricted k args = ["*"])
  /\ ((forall a, a ∈ args <-> a = "*" \/ a = "east") ->
      _reduce_args restricted k args
      = if key_in k restricted then ["east"] else ["*"]).
Proof.
  assert (Hrestricted :
    key_in k restricted = true -> (exists a, a ∈ args /\ a <> "*") ->
    sorted_set_of (fun a => a ∈ args /\ a <> "*")
                  (_reduce_args restricted k args)).
  { intros Hk Hany. rewrite reduce_args_restricted by assumption.
    split; [apply sorted_set_sorted|].
    intros a. rewrite sorted_set_elem_of, list_elem_of_filter. tauto. }
  split; [exact Hrestricted|]. split; [|split].
  - intros Hall. rewrite reduce_args_all_non_wildcard by assumption.
    split; [apply sorted_set_sorted|]. intros a. apply sorted_set_elem_of.
  - apply reduce_args_wildcard.
  - intros Hargs. destruct (key_in k restricted) eqn:Hk.
    + apply sorted_set_of_singleton.
      destruct Hrestricted as [Hs Hmem]; [reflexivity| |].
      * exists "east". split; [apply Hargs; now right|discriminate].
      * split; [exact Hs|]. intros a. rewrite Hmem, Hargs.
        split; [intros [[->| ->] Hne]; [now contradict Hne|reflexivity]|].
        intros ->. split; [now right|discriminate].
    + apply reduce_args_wildcard; [apply Hargs; now left|now left].
Qed.

Lemma reduce_args_spec_witness :
  _reduce_args ["network"] (PermName "network") ["*"; "east"] = ["east"]
  /\ _reduce_args [] (PermName "network") ["*"; "east"] = ["*"].
Proof.
  split.
  - apply (proj2 (proj2 (proj2
             (reduce_args_spec ["network"] (PermName "network") ["*"; "east"])))).
    intros a. rewrite !elem_of_cons, elem_of_nil. tauto.
  - apply (proj2 (proj2 (proj2
             (reduce_args_spec [] (PermName "network") ["*"; "east"])))).
    intros a. rewrite !elem_of_cons, elem_of_nil. tauto.
Defined.

(** C3 as stated fails: a permission that is not restricted and owns the
    patterns "*" and "east" does not reduce to ["*", "east"]. *)
Lemma reduce_args_unrestricted_wildcard :
  _reduce_args [] (PermName "network") ["*"; "east"] = ["*"]
  /\ _reduce_args [] (PermName "network") ["*"; "east"] <> ["*"; "east"].
Proof. split; [reflexivity|discriminate]. Qed.

(** ** The grant reducer *)

Lemma StronglySorted_lookup {A : Type} (R : A -> A -> Prop) (l : list A)
    (i j : nat) (x y : A) :
  StronglySorted R l -> (i < j)%nat ->
  l !! i = Some x -> l !! j = Some y -> R x y.
Proof.
  intros Hs. revert i j. induction Hs as [|z l Hs IH Hz]; intros i j Hij Hi Hj.
  - now rewrite lookup_nil in Hi.
  - destruct j as [|j]; [lia|]. simpl in Hj. destruct i as [|i].
    + simpl in Hi. injection Hi as ->.
      rewrite Forall_forall in Hz. apply Hz.
      eapply list_elem_of_lookup_2, Hj.
    + simpl in Hi. apply (IH i j); [lia|assumption..].
Qed.

Section GrantReducer.
Context `{Collaborators}.

Lemma collect_grantable_ok (catalog : list (string * Permission))
    (grants : list Grant) (acc : list (Permission * string)) :
  Forall (fun g => grant_name g = PERMISSION_GRANT) grants ->
  collect_grantable catalog grants acc
  = Return (acc ++ flat_map (grantable_by catalog) grants).
Proof.
  intros Hall. revert acc.
  induction Hall as [|g grants Hg Hall IH]; intros acc; simpl.
  - now rewrite app_nil_r.
  - rewrite decide_True by exact Hg. rewrite IH. now rewrite <- app_assoc.
Qed.

(** The [assert]: a grant of another name makes the reducer raise. *)
Lemma collect_grantable_raises (catalog : list (string * Permission))
    (grants : list Grant) (acc : list (Permission * string)) :
  ~ Forall (fun g => grant_name g = PERMISSION_GRANT) grants ->
  collect_grantable catalog grants acc = Raise AssertionError.
Proof.
  revert acc. induction grants as [|g grants IH]; intros acc Hnot; simpl.
  - contradict Hnot. constructor.
  - destruct (decide (grant_name g = PERMISSION_GRANT)) as [Hg|Hg];
      [|reflexivity].
    apply IH. contradict Hnot. now constructor.
Qed.

Lemma filter_grantable_permissions_ok (db : DB) (grants : list Grant)
    (all_permissions : option (list (string * Permission))) :
  Forall (fun g => grant_name g = PERMISSION_GRANT) grants ->
  filter_grantable_permissions db grants all_permissions
  = Return (sorted grantable_key
              (flat_map
                 (grantable_by (default (all_permissions_dict db) all_permissions))
                 grants)).
Proof.
  intros Hall. unfold filter_grantable_permissions.
  rewrite collect_grantable_ok by exact Hall.
  destruct all_permissions; reflexivity.
Qed.
End GrantReducer.

(** C2 as stated fails.  Two grants that reach the same pair leave it twice
    in the result, and the order of the concatenated keys ("sshdb" before
    "sshz") is not the order of the pairs (("ssh", "z") before
    ("sshd", "b")). *)
Lemma filter_grantable_permissions_duplicates :
  filter_grantable_permissions (H := sample_env) empty_db
    [grant_of "ssh"; grant_of "ssh/*"] (Some [("ssh", perm_ssh)])
  = Return [(perm_ssh, "*"); (perm_ssh, "*")]
  /\ filter_grantable_permissions (H := sample_env) empty_db
       [grant_of "ssh/z"; grant_of "sshd/b"]
       (Some [("ssh", perm_ssh); ("sshd", perm_sshd)])
     = Return [(perm_sshd, "b"); (perm_ssh, "z")]
  /\ ~ NoDup [(perm_ssh, "*"); (perm_ssh, "*")]
  /\ str_lt (permission_name perm_ssh) (permission_name perm_sshd).
Proof.
  split; [reflexivity|]. split; [reflexivity|]. split; [|reflexivity].
  intros Hnd. apply NoDup_cons in Hnd as [Hnotin _].
  apply Hnotin. now left.
Qed.

(** The example of the specification. *)
Example filter_grantable_permissions_network :
  filter_grantable_permissions (H := sample_env) empty_db
    [grant_of "network-*/prod"]
    (Some [("network-east", mkPermission 1 "network-east" "" true false);
           ("network-west", mkPermission 2 "network-west" "" true false);
           ("storage", mkPermission 3 "storage" "" true false)])
  = Return [(mkPermission 1 "network-east" "" true false, "prod");
            (mkPermission 2 "network-west" "" true false, "prod")].
Proof. reflexivity. Qed.

(** ** Permission intersection *)

Lemma permission_list_to_dict_snoc (perms : list Perm) (perm : Perm) :
  permission_list_to_dict (perms ++ [perm])
  = <[perm_name perm :=
        <[perm_argument perm := perm]>
          (default ∅ (permission_list_to_dict perms !! perm_name perm))]>
      (permission_list_to_dict perms).
Proof. unfold permission_list_to_dict. now rewrite foldl_app. Qed.

(** What the dictionary holds comes from the list, under its own name and
    argument. *)
Lemma permission_list_to_dict_elem (perms : list Perm) (n k : string)
    (args : gmap string Perm) (b : Perm) :
  permission_list_to_dict perms !! n = Some args -> args !! k = Some b ->
  b ∈ perms /\ perm_name b = n /\ perm_argument b = k.
Proof.
  revert args. induction perms as [|perm perms IH] using rev_ind;
    intros args Hn Hk.
  - unfold permission_list_to_dict in Hn. simpl in Hn.
    now rewrite lookup_empty in Hn.
  - rewrite permission_list_to_dict_snoc in Hn.
    destruct (decide (perm_name perm = n)) as [<-|Hne].
    + rewrite lookup_insert_eq in Hn. injection Hn as <-.
      destruct (decide (perm_argument perm = k)) as [<-|Hnek].
      * rewrite lookup_insert_eq in Hk. injection Hk as <-.
        split; [apply elem_of_app; right; now left|tauto].
      * rewrite lookup_insert_ne in Hk by exact Hnek.
        destruct (permission_list_to_dict perms !! perm_name perm)
          as [args'|] eqn:Hargs; simpl in Hk.
        -- destruct (IH args' eq_refl Hk) as (Hin & ? & ?).
           split; [apply elem_of_app; now left|tauto].
        -- now rewrite lookup_empty in Hk.
    + rewrite lookup_insert_ne in Hn by exact Hne.
      destruct (IH args Hn Hk) as (Hin & ? & ?).
      split; [apply elem_of_app; now left|tauto].
Qed.

(** Every object of the list has an entry under its name and argument. *)
Lemma permission_list_to_dict_present (perms : list Perm) (b : Perm) :
  b ∈ perms ->
  exists args, permission_list_to_dict perms !! perm_name b = Some args
               /\ is_Some (args !! perm_argument b).
Proof.
  induction perms as [|perm perms IH] using rev_ind; intros Hin.
  - inversion Hin.
  - rewrite permission_list_to_dict_snoc.
    destruct (decide (perm_name perm = perm_name b)) as [Hn|Hn].
    + rewrite Hn, lookup_insert_eq. eexists. split; [reflexivity|].
      destruct (decide (perm_argument perm = perm_argument b)) as [Hk|Hk].
      * rewrite Hk, lookup_insert_eq. eauto.
      * rewrite lookup_insert_ne by exact Hk.
        apply elem_of_app in Hin as [Hin|Hin].
        -- destruct (IH Hin) as (args & -> & Hsome). exact Hsome.
        -- apply list_elem_of_singleton in Hin. subst. contradiction.
    + rewrite lookup_insert_ne by exact Hn.
      apply elem_of_app in Hin as [Hin|Hin]; [now apply IH|].
      apply list_elem_of_singleton in Hin. subst. contradiction.
Qed.

Lemma intersection_step_union (pdict_b : gmap string (gmap string Perm))
    (ret : gset Perm) (perm : Perm) :
  intersection_step pdict_b ret perm
  = ret ∪ intersection_step pdict_b ∅ perm.
Proof.
  unfold intersection_step.
  destruct (pdict_b !! perm_name perm) as [args_b|];
    [|now rewrite (right_id_L ∅ (∪))].
  repeat case_bool_decide;
    repeat match goal with
           | |- context [match ?o with Some _ => _ | None => _ end] => destruct o
           end;
    now rewrite ?(left_id_L ∅ (∪)), ?(right_id_L ∅ (∪)).
Qed.

Lemma elem_of_permission_intersection (perms_a perms_b : list Perm) (x : Perm) :
  x ∈ permission_intersection perms_a perms_b
  <-> exists a, a ∈ perms_a
                /\ x ∈ intersection_step (permission_list_to_dict perms_b) ∅ a.
Proof.
  unfold permission_intersection.
  induction perms_a as [|a perms_a IH] using rev_ind.
  - simpl. split; [intros Hx; now apply elem_of_empty in Hx|].
    intros (a & Ha & _). inversion Ha.
  - rewrite foldl_app. simpl. rewrite intersection_step_union.
    rewrite elem_of_union, IH. split.
    + intros [(a' & Ha' & Hx)|Hx].
      * exists a'. split; [apply elem_of_app; now left|exact Hx].
      * exists a. split; [apply elem_of_app; right; now left|exact Hx].
    + intros (a' & Ha' & Hx). apply elem_of_app in Ha' as [Ha'|Ha'].
      * left. eauto.
      * apply list_elem_of_singleton in Ha'. subst. now right.
Qed.

(** C7: when an object of A has a name that B knows, B has neither its
    argument nor the wildcard under that name, its argument is not empty,
    and B holds the name without argument, then the intersection contains
    B's object without argument and not the object of A.  In particular
    intersecting {(p, "*")} with {(p, "")} gives {(p, "")} in both orders. *)
Theorem permission_intersection_unargumented :
  (forall (perms_a perms_b : list Perm) (a : Perm),
      a ∈ perms_a ->
      (forall b, b ∈ perms_b -> perm_name b = perm_name a ->
                 perm_argument b <> perm_argument a /\ perm_argument b <> "*") ->
      perm_argument a <> "" ->
      (exists b, b ∈ perms_b /\ perm_name b = perm_name a
                 /\ perm_argument b = "") ->
      exists b, b ∈ perms_b /\ perm_name b = perm_name a /\ perm_argument b = ""
                /\ b ∈ permission_intersection perms_a perms_b
                /\ a ∉ permission_intersection perms_a perms_b)
  /\ (forall (p : string) (da db : Z),
         permission_intersection [mkPerm p "*" da] [mkPerm p "" db]
         = {[mkPerm p "" db]}
         /\ permission_intersection [mkPerm p "" db] [mkPerm p "*" da]
            = {[mkPerm p "" db]}).
Proof.
  split.
  - intros perms_a perms_b a Ha Hnone Hnonempty (b0 & Hb0 & Hn0 & Hk0).
    destruct (permission_list_to_dict_present perms_b b0 Hb0)
      as (args & Hargs & [b Hb]).
    rewrite Hn0 in Hargs. rewrite Hk0 in Hb.
    destruct (permission_list_to_dict_elem _ _ _ _ _ Hargs Hb)
      as (Hbin & Hbn & Hbk).
    assert (Hexact : args !! perm_argument a = None).
    { destruct (args !! perm_argument a) as [b'|] eqn:Hb'; [|reflexivity].
      destruct (permission_list_to_dict_elem _ _ _ _ _ Hargs Hb')
        as (Hin' & Hn' & Hk').
      destruct (Hnone b' Hin' Hn') as [Hne _]. contradiction. }
    assert (Hstar : args !! "*" = None).
    { destruct (args !! "*") as [b'|] eqn:Hb'; [|reflexivity].
      destruct (permission_list_to_dict_elem _ _ _ _ _ Hargs Hb')
        as (Hin' & Hn' & Hk').
      destruct (Hnone b' Hin' Hn') as [_ Hne]. contradiction. }
    exists b. repeat split; try assumption.
    + apply elem_of_permission_intersection. exists a. split; [exact Ha|].
      unfold intersection_step. rewrite Hargs, Hexact, Hstar, Hb.
      rewrite !bool_decide_eq_false_2; [|exact Hnonempty|now intros [? ?]].
      apply elem_of_union. right. now apply elem_of_singleton.
    + intros Hin. apply elem_of_permission_intersection in Hin
        as (a' & Ha' & Hin).
      unfold intersection_step in Hin.
      destruct (permission_list_to_dict perms_b !! perm_name a')
        as [args'|] eqn:Hargs'; [|now apply elem_of_empty in Hin].
      assert (Hself : a ∈ (∅ ∪ {[a']} : gset Perm) -> a = a').
      { intros Hx. apply elem_of_union in Hx as [Hx|Hx];
          [now apply elem_of_empty in Hx|now apply elem_of_singleton in Hx]. }
      case_bool_decide as Hc1.
      { apply Hself in Hin. subst a'. rewrite Hargs in Hargs'.
        injection Hargs' as <-. rewrite Hexact in Hc1. now destruct Hc1. }
      case_bool_decide as Hc2.
      { apply Hself in Hin. subst a'. contradiction. }
      case_bool_decide as Hc3.
      { apply Hself in Hin. subst a'. rewrite Hargs in Hargs'.
        injection Hargs' as <-. rewrite Hstar in Hc3. now destruct Hc3. }
      destruct (args' !! "") as [u|] eqn:Hu.
      { apply elem_of_union in Hin as [Hin|Hin];
          [now apply elem_of_empty in Hin|].
        apply elem_of_singleton in Hin. subst u.
        destruct (permission_list_to_dict_elem _ _ _ _ _ Hargs' Hu)
          as (_ & _ & Hk). contradiction. }
      case_bool_decide as Hc4; [|now apply elem_of_empty in Hin].
      apply elem_of_union in Hin as [Hin|Hin];
        [now apply elem_of_empty in Hin|].
      apply elem_of_map_img in Hin as [k Hk].
      destruct (permission_list_to_dict_elem _ _ _ _ _ Hargs' Hk)
        as (Hain & _ & _).
      destruct (Hnone a Hain eq_refl) as [Hne _]. now contradict Hne.
  - intros p da db.
    unfold permission_intersection, permission_list_to_dict, intersection_step.
    simpl. rewrite !lookup_empty. simpl. rewrite !lookup_insert_eq.
    split.
    + assert (Hnone : forall x : Perm,
                 ~ is_Some ((<["" := x]> ∅ : gmap string Perm) !! "*")).
      { intros x. rewrite lookup_insert_ne by discriminate.
        rewrite lookup_empty. now intros [? ?]. }
      rewrite !bool_decide_eq_false_2 by apply Hnone.
      now rewrite (left_id_L ∅ (∪)).
    + destruct (bool_decide _); now rewrite (left_id_L ∅ (∪)).
Qed.

Lemma permission_intersection_unargumented_witness :
  exists b, b ∈ [mkPerm "ssh" "" 2] /\ perm_name b = "ssh"
            /\ perm_argument b = ""
            /\ b ∈ permission_intersection [mkPerm "ssh" "prod" 1]
                                           [mkPerm "ssh" "" 2]
            /\ mkPerm "ssh" "prod" 1
               ∉ permission_intersection [mkPerm "ssh" "prod" 1]
                                         [mkPerm "ssh" "" 2].
Proof.
  apply (proj1 permission_intersection_unargumented
           [mkPerm "ssh" "prod" 1] [mkPerm "ssh" "" 2] (mkPerm "ssh" "prod" 1)).
  - now left.
  - intros b Hb _. apply list_elem_of_singleton in Hb. subst b.
    split; discriminate.
  - discriminate.
  - exists (mkPerm "ssh" "" 2). split; [now left|split; reflexivity].
Defined.

(** ** Dictionaries *)

Section DictFacts.
Context {K V : Type} `{EqDecision K}.
Implicit Types (d : list (K * V)) (k : K) (v : V).

Lemma dict_get_set d k v k' :
  dict_get (dict_set d k v) k'
  = if decide (k' = k) then Some v else dict_get d k'.
Proof.
  induction d as [|[k0 v0] d IH]; simpl.
  - destruct (decide (k' = k)); reflexivity.
  - destruct (decide (k = k0)) as [->|Hne]; simpl.
    + destruct (decide (k' = k0)); reflexivity.
    + rewrite IH. destruct (decide (k' = k0)) as [->|?]; [|reflexivity].
      destruct (decide (k0 = k)); [congruence|reflexivity].
Qed.

Lemma dict_keys_set d k v k' :
  k' ∈ dict_keys (dict_set d k v) <-> k' ∈ dict_keys d \/ k' = k.
Proof.
  unfold dict_keys. induction d as [|[k0 v0] d IH]; simpl.
  - rewrite list_elem_of_singleton, elem_of_nil. tauto.
  - destruct (decide (k = k0)) as [->|Hne]; simpl.
    + rewrite !elem_of_cons. tauto.
    + rewrite !elem_of_cons, IH. tauto.
Qed.

Lemma dict_get_Some_elem d k v : dict_get d k = Some v -> (k, v) ∈ d.
Proof.
  induction d as [|[k0 v0] d IH]; simpl; [discriminate|].
  destruct (decide (k = k0)) as [->|?].
  - intros [= ->]. now left.
  - intros Hd. right. now apply IH.
Qed.

Lemma dict_set_elem d k v k' v' :
  (k', v') ∈ dict_set d k v -> (k', v') ∈ d \/ (k', v') = (k, v).
Proof.
  induction d as [|[k0 v0] d IH]; simpl.
  - rewrite list_elem_of_singleton. tauto.
  - destruct (decide (k = k0)) as [->|Hne]; rewrite !elem_of_cons.
    + tauto.
    + intros [Heq|Hin]; [tauto|]. destruct (IH Hin); tauto.
Qed.

Lemma foldl_dict_set_elem (l : list (K * V)) d k v :
  (k, v) ∈ foldl (fun d kv => dict_set d kv.1 kv.2) d l ->
  (k, v) ∈ d \/ (k, v) ∈ l.
Proof.
  revert d. induction l as [|[k0 v0] l IH]; intros d; simpl; [tauto|].
  intros Hin. destruct (IH _ Hin) as [Hd|Hl].
  - apply dict_set_elem in Hd as [Hd|Hd]; [now left|].
    right. rewrite Hd. now left.
  - right. now right.
Qed.

Lemma dict_of_list_elem (l : list (K * V)) k v :
  (k, v) ∈ dict_of_list l -> (k, v) ∈ l.
Proof.
  intros Hin. apply foldl_dict_set_elem in Hin as [Hin|Hin]; [|exact Hin].
  inversion Hin.
Qed.

Lemma foldl_dict_set_keys (l : list (K * V)) d k :
  k ∈ dict_keys (foldl (fun d kv => dict_set d kv.1 kv.2) d l)
  <-> k ∈ dict_keys d \/ k ∈ l.*1.
Proof.
  revert d. induction l as [|[k0 v0] l IH]; intros d; simpl.
  - rewrite elem_of_nil. tauto.
  - rewrite IH, dict_keys_set, elem_of_cons. simpl. tauto.
Qed.

Lemma dict_of_list_keys (l : list (K * V)) k :
  k ∈ dict_keys (dict_of_list l) <-> k ∈ l.*1.
Proof.
  unfold dict_of_list. rewrite foldl_dict_set_keys.
  unfold dict_keys. simpl. rewrite elem_of_nil. tauto.
Qed.
End DictFacts.

(** ** The ownership resolver *)

Lemma foldl_invariant {A B : Type} (P : A -> Prop) (f : A -> B -> A)
    (l : list B) (a : A) :
  P a -> (forall a x, x ∈ l -> P a -> P (f a x)) -> P (foldl f a l).
Proof.
  revert a. induction l as [|x l IH]; intros a Ha Hstep; simpl; [exact Ha|].
  apply IH.
  - apply Hstep; [now left|exact Ha].
  - intros a' y Hy. apply Hstep. now right.
Qed.

Section Resolver.
Context `{Collaborators}.

Lemma owners_of_extend (m : OwnerMap) (k k' : OwnerKey) (a a' : string)
    (owners : list Group) :
  owners_of (owners_extend m k a owners) k' a'
  = if decide (k' = k /\ a' = a) then owners_of m k a ++ owners
    else owners_of m k' a'.
Proof.
  unfold owners_of, owners_extend. rewrite dict_get_set.
  destruct (decide (k' = k)) as [->|Hk]; simpl.
  - rewrite dict_get_set. destruct (decide (a' = a)) as [->|Ha]; simpl.
    + now rewrite decide_True.
    + now rewrite decide_False by tauto.
  - now rewrite decide_False by tauto.
Qed.

Lemma owners_extend_mono (m : OwnerMap) (k k' : OwnerKey) (a a' : string)
    (owners : list Group) (x : Group) :
  x ∈ owners_of m k' a' -> x ∈ owners_of (owners_extend m k a owners) k' a'.
Proof.
  intros Hx. rewrite owners_of_extend.
  destruct (decide (k' = k /\ a' = a)) as [[-> ->]|_]; [|exact Hx].
  apply elem_of_app. now left.
Qed.

Lemma owners_extend_new (m : OwnerMap) (k : OwnerKey) (a : string)
    (owners : list Group) (x : Group) :
  x ∈ owners -> x ∈ owners_of (owners_extend m k a owners) k a.
Proof.
  intros Hx. rewrite owners_of_extend, decide_True by tauto.
  apply elem_of_app. now right.
Qed.

Lemma owners_extend_keys (m : OwnerMap) (k k' : OwnerKey) (a : string)
    (owners : list Group) :
  k' ∈ dict_keys (owners_extend m k a owners) <-> k' ∈ dict_keys m \/ k' = k.
Proof. apply dict_keys_set. Qed.

Lemma keys_within_extend (names : list string) (m : OwnerMap) (n a : string)
    (owners : list Group) :
  n ∈ names -> keys_within names m ->
  keys_within names (owners_extend m (PermName n) a owners).
Proof.
  intros Hn Hm k Hk. apply owners_extend_keys in Hk as [Hk| ->]; eauto.
Qed.

Lemma keys_within_extend_global (names : list string) (m : OwnerMap)
    (a : string) (owners : list Group) :
  keys_within names m ->
  keys_within names (owners_extend m GLOBAL_OWNERS a owners).
Proof.
  intros Hm k Hk. apply owners_extend_keys in Hk as [Hk| ->]; eauto.
Qed.

(** The entry of a group in [grants_by_group]: its rows, in the order of
    the query. *)
Lemma grants_by_group_lookup (rows : list GroupPermission) (id : Z) :
  grants_by_group rows !!! id
  = filter (fun r => group_id (gp_Group r) = id) rows.
Proof.
  unfold grants_by_group.
  induction rows as [|r rows IH] using rev_ind; [reflexivity|].
  rewrite foldl_app, filter_app. simpl.
  destruct (decide (group_id (gp_Group r) = id)) as [Hid|Hid].
  - rewrite Hid, lookup_total_insert_eq, IH.
    now rewrite filter_cons_True by exact Hid.
  - rewrite lookup_total_insert_ne by exact Hid.
    rewrite IH, filter_cons_False by exact Hid.
    now rewrite filter_nil, app_nil_r.
Qed.

Lemma all_group_permissions_holds (db : DB) (group : Group) (name : string) :
  group ∈ groups db -> holds db group name ->
  exists r, r ∈ all_group_permissions db /\ gp_Group r = group
            /\ gp_name r = name.
Proof.
  intros Hgroup (pm & p & Hpm & Hpg & Hp & Hpid & Hname).
  exists (mkGroupPermission name (pm_argument pm) group).
  split; [|split; reflexivity].
  unfold all_group_permissions.
  apply list_elem_of_In, in_flat_map. exists pm.
  split; [now apply list_elem_of_In|].
  apply in_flat_map. exists group. split.
  { apply list_elem_of_In, list_elem_of_filter. auto. }
  apply in_flat_map. exists p. split.
  { apply list_elem_of_In, list_elem_of_filter. auto. }
  rewrite Hname. now left.
Qed.

Lemma all_permissions_dict_by_name (db : DB) :
  catalog_by_name (all_permissions_dict db).
Proof.
  intros n p Hin. apply dict_of_list_elem in Hin.
  apply list_elem_of_fmap in Hin as (q & [= -> ->] & _). reflexivity.
Qed.

(** The names of the catalog are the names of the enabled permissions. *)
Lemma all_permissions_dict_keys (db : DB) (n : string) :
  n ∈ dict_keys (all_permissions_dict db)
  <-> exists p, p ∈ permissions db /\ permission_enabled p = true
                /\ permission_name p = n.
Proof.
  unfold all_permissions_dict. rewrite dict_of_list_keys.
  rewrite <- list_fmap_compose. rewrite list_elem_of_fmap.
  unfold get_all_permissions. split.
  - intros (p & -> & Hp). apply sorted_elem_of, list_elem_of_filter in Hp.
    destruct Hp as [[?|?] ?]; [discriminate|]. eauto.
  - intros (p & Hp & He & <-). exists p. split; [reflexivity|].
    apply sorted_elem_of, list_elem_of_filter. auto.
Qed.
End Resolver.

Section ResolverLoop.
Context `{Collaborators}.
Variables (db : DB) (separate_global : bool)
          (catalog : list (string * Permission))
          (by_group : gmap Z (list GroupPermission)).
Hypothesis catalog_ok : catalog_by_name catalog.

Lemma grantable_by_catalog (grant : Grant) (perm : Permission)
    (arg : string) :
  (perm, arg) ∈ grantable_by catalog grant ->
  permission_name perm ∈ dict_keys catalog.
Proof.
  unfold grantable_by. intros Hin.
  apply list_elem_of_In, in_flat_map in Hin as ([n p] & Hnp & Hin).
  destruct (matches_glob _ n); [|inversion Hin].
  destruct Hin as [[= <- _]|[]].
  apply list_elem_of_In in Hnp. rewrite (catalog_ok n p Hnp).
  unfold dict_keys. apply list_elem_of_fmap. exists (n, p). auto.
Qed.

Lemma admin_loop_owner (group : Group) (names : list string) (m : OwnerMap)
    (n : string) :
  n ∈ names ->
  group ∈ owners_of
            (foldl (fun m perm_name =>
                      owners_extend m (PermName perm_name) "*" [group])
                   m names)
            (PermName n) "*".
Proof.
  revert m. induction names as [|n0 names IH]; intros m Hn; [inversion Hn|].
  simpl. apply elem_of_cons in Hn as [->|Hn]; [|now apply IH].
  apply (foldl_invariant (fun m => group ∈ owners_of m (PermName n0) "*")).
  - apply owners_extend_new. now left.
  - intros m' x _. apply owners_extend_mono.
Qed.

Lemma add_group_owners_spec (m : OwnerMap) (group : Group) :
  exists m',
    add_group_owners db separate_global catalog by_group m group = Return m'
    /\ (keys_within (dict_keys catalog) m ->
        keys_within (dict_keys catalog) m')
    /\ (forall k a x, x ∈ owners_of m k a -> x ∈ owners_of m' k a)
    /\ (any (map (fun g => bool_decide (gp_name g = PERMISSION_ADMIN))
                 (by_group !!! group_id group)) = true ->
        forall n, n ∈ dict_keys catalog ->
                  group ∈ owners_of m' (PermName n) "*").
Proof.
  unfold add_group_owners.
  destruct (any _) eqn:Hadmin.
  - eexists. split; [reflexivity|]. split; [|split].
    + intros Hm.
      assert (Hloop : keys_within (dict_keys catalog)
                (foldl (fun m perm_name =>
                          owners_extend m (PermName perm_name) "*" [group])
                       m (dict_keys catalog))).
      { apply (foldl_invariant (keys_within (dict_keys catalog)));
          [exact Hm|].
        intros m' n Hn Hm'. now apply keys_within_extend. }
      destruct separate_global; [|exact Hloop].
      now apply keys_within_extend_global.
    + intros k a x Hx.
      assert (Hloop : x ∈ owners_of
                (foldl (fun m perm_name =>
                          owners_extend m (PermName perm_name) "*" [group])
                       m (dict_keys catalog)) k a).
      { apply (foldl_invariant (fun m => x ∈ owners_of m k a));
          [exact Hx|].
        intros m' n _. apply owners_extend_mono. }
      destruct separate_global; [|exact Hloop].
      now apply owners_extend_mono.
    + intros _ n Hn.
      pose proof (admin_loop_owner group (dict_keys catalog) m n Hn) as Hloop.
      destruct separate_global; [|exact Hloop].
      now apply owners_extend_mono.
  - rewrite filter_grantable_permissions_ok.
    2:{ apply Forall_forall. intros g Hg.
        apply list_elem_of_fmap in Hg as (gp & -> & Hgp).
        apply list_elem_of_filter in Hgp as [Hname _]. exact Hname. }
    eexists. split; [reflexivity|]. split; [|split].
    + intros Hm.
      apply (foldl_invariant (keys_within (dict_keys catalog)));
        [exact Hm|].
      intros m' [perm arg] Hin Hm'. apply keys_within_extend; [|exact Hm'].
      apply sorted_elem_of, list_elem_of_In, in_flat_map in Hin
        as (grant & _ & Hin).
      apply list_elem_of_In in Hin. simpl in Hin.
      eapply grantable_by_catalog, Hin.
    + intros k a x Hx.
      apply (foldl_invariant (fun m => x ∈ owners_of m k a)); [exact Hx|].
      intros m' [perm arg] _. apply owners_extend_mono.
    + discriminate.
Qed.

Lemma for_each_group_spec (gs : list Group) (m : OwnerMap) :
  exists m',
    for_each (add_group_owners db separate_global catalog by_group) gs m
    = Return m'
    /\ (keys_within (dict_keys catalog) m ->
        keys_within (dict_keys catalog) m')
    /\ (forall k a x, x ∈ owners_of m k a -> x ∈ owners_of m' k a)
    /\ (forall group n,
           group ∈ gs ->
           any (map (fun g => bool_decide (gp_name g = PERMISSION_ADMIN))
                    (by_group !!! group_id group)) = true ->
           n ∈ dict_keys catalog ->
           group ∈ owners_of m' (PermName n) "*").
Proof.
  revert m. induction gs as [|g gs IH]; intros m; simpl.
  - exists m. split; [reflexivity|]. split; [tauto|]. split; [tauto|].
    intros group n Hin. inversion Hin.
  - destruct (add_group_owners_spec m g) as (m1 & -> & Hk1 & Hmono1 & Hadm1).
    simpl. destruct (IH m1) as (m' & -> & Hk & Hmono & Hadm).
    exists m'. split; [reflexivity|]. split; [tauto|]. split; [auto|].
    intros group n Hin Hany Hn. apply elem_of_cons in Hin as [->|Hin].
    + apply Hmono. now apply Hadm1.
    + now apply Hadm.
Qed.
End ResolverLoop.

Lemma NoDup_fmap_eq {A B : Type} (f : A -> B) (l : list A) (x y : A) :
  NoDup (f <$> l) -> x ∈ l -> y ∈ l -> f x = f y -> x = y.
Proof.
  induction l as [|z l IH]; intros Hnd Hx Hy Hf; [inversion Hx|].
  rewrite fmap_cons in Hnd. apply NoDup_cons in Hnd as [Hz Hnd].
  apply elem_of_cons in Hx as [->|Hx]; apply elem_of_cons in Hy as [->|Hy].
  - reflexivity.
  - contradict Hz. rewrite Hf. now apply list_elem_of_fmap_2.
  - contradict Hz. rewrite <- Hf. now apply list_elem_of_fmap_2.
  - now apply IH.
Qed.

Section OwnerMapFacts.
Context `{Collaborators}.

(** C8: without plugin contributions the owner map is computed (nothing
    raises), every enabled group with a grant of the permission admin
    marker is an owner under "*" of every enabled permission, every
    permission name among the keys is the name of an enabled permission,
    and so, names being unique, no disabled permission is a key. *)
Theorem get_owners_admin_and_disabled (db : DB) (separate_global : bool) :
  get_owner_by_arg_by_perm db = [] ->
  exists m,
    get_owners_by_grantable_permission db separate_global = Return m
    /\ (forall group p,
           group ∈ groups db -> group_enabled group = true ->
           holds db group PERMISSION_ADMIN ->
           p ∈ permissions db -> permission_enabled p = true ->
           group ∈ owners_of m (PermName (permission_name p)) "*")
    /\ (forall n,
           PermName n ∈ dict_keys m ->
           exists p, p ∈ permissions db /\ permission_enabled p = true
                     /\ permission_name p = n)
    /\ (NoDup (permission_name <$> permissions db) ->
        forall p, p ∈ permissions db -> permission_enabled p = false ->
                  PermName (permission_name p) ∉ dict_keys m).
Proof.
  intros Hplugins. unfold get_owners_by_grantable_permission.
  destruct (for_each_group_spec db separate_global (all_permissions_dict db)
              (grants_by_group (all_group_permissions db))
              (all_permissions_dict_by_name db)
              (filter (fun g => group_enabled g = true) (groups db)) [])
    as (m & -> & Hkeys & _ & Hadmin).
  rewrite Hplugins. simpl. exists m. split; [reflexivity|].
  assert (Hnames : forall n,
             PermName n ∈ dict_keys m ->
             exists p, p ∈ permissions db /\ permission_enabled p = true
                       /\ permission_name p = n).
  { intros n Hn.
    assert (Hempty : keys_within (dict_keys (all_permissions_dict db)) [])
      by (intros k Hk; inversion Hk).
    destruct (Hkeys Hempty _ Hn) as [?|(n' & Hn' & [= ->])];
      [discriminate|].
    now apply all_permissions_dict_keys. }
  split; [|split; [exact Hnames|]].
  - intros group p Hgroup Henabled Hholds Hp Hpe.
    apply Hadmin.
    + apply list_elem_of_filter. auto.
    + destruct (all_group_permissions_holds db group PERMISSION_ADMIN
                  Hgroup Hholds) as (r & Hr & Hrg & Hrn).
      rewrite grants_by_group_lookup. unfold any.
      apply existsb_exists. exists true. split; [|reflexivity].
      apply in_map_iff. exists r. split.
      * now apply bool_decide_eq_true.
      * apply list_elem_of_In, list_elem_of_filter. split; [|exact Hr].
        now rewrite Hrg.
    + apply all_permissions_dict_keys. eauto.
  - intros Hnodup p Hp Hdisabled Hkey.
    destruct (Hnames _ Hkey) as (q & Hq & Hqe & Hqn).
    assert (q = p) by (eapply NoDup_fmap_eq; eassumption).
    subst q. congruence.
Qed.
End OwnerMapFacts.

Lemma get_owners_admin_and_disabled_witness :
  exists m,
    get_owners_by_grantable_permission (H := sample_env) sample_db false
    = Return m
    /\ (forall group p,
           group ∈ groups sample_db -> group_enabled group = true ->
           holds sample_db group (PERMISSION_ADMIN (Collaborators := sample_env)) ->
           p ∈ permissions sample_db -> permission_enabled p = true ->
           group ∈ owners_of m (PermName (permission_name p)) "*")
    /\ (forall n,
           PermName n ∈ dict_keys m ->
           exists p, p ∈ permissions sample_db /\ permission_enabled p = true
                     /\ permission_name p = n)
    /\ (NoDup (permission_name <$> permissions sample_db) ->
        forall p, p ∈ permissions sample_db -> permission_enabled p = false ->
                  PermName (permission_name p) ∉ dict_keys m).
Proof.
  apply (get_owners_admin_and_disabled (H := sample_env) sample_db false).
  reflexivity.
Defined.

(** The owner map of the example database: "admins" owns every enabled
    permission under "*"; the disabled "legacy" is no key. *)
Example get_owners_sample :
  get_owners_by_grantable_permission (H := sample_env) sample_db false
  = Return
      [(PermName "grouper.admin.permissions", [("*", [group_admins])]);
       (PermName "grouper.permission.grant", [("*", [group_admins])]);
       (PermName "ssh", [("*", [group_admins])]);
       (PermName "sshd", [("*", [group_admins])]);
       (PermName "sudo", [("*", [group_admins])])].
Proof. vm_compute. reflexivity. Qed.

(** ** The request workflow *)

Ltac run_workflow :=
  unfold grant_permission, try_except, AuditLog_log, send_email,
    mbind, M_bind, mret, M_ret, raise, lift, query, update, commit, rollback;
  cbn [current committed outbox fst snd].

(** Every way the rest of a call can go, each read off by computation. *)
Ltac all_outcomes :=
  repeat
    (cbn [negb current committed outbox db_set_request_status db_add_comment
          db_add_status_change permission_maps];
     match goal with
     | |- context [request_permission ?db ?r] =>
         destruct (request_permission db r)
     | |- context [request_group ?db ?r] => destruct (request_group db r)
     | |- context [request_requester ?db ?r] =>
         destruct (request_requester db r)
     | |- context [ARGUMENT_VALIDATION ?a] => destruct (ARGUMENT_VALIDATION a)
     | |- context [bool_decide ?P] => destruct (bool_decide P)
     | |- context [decide (?e = IntegrityError)] =>
         destruct (decide (e = IntegrityError))
     end);
  (do 2 eexists; split; [reflexivity|split; reflexivity]).

Section UpdateRequest.
Context `{Collaborators}.

(** What [update_request] does once its checks have passed and the
    rows the request refers to are there. *)
Lemma update_request_run (now : Z) (request : PermissionRequest)
    (user : User) (new_status : Status) (comment : string) (s : Session)
    (permission : Permission) (group : Group) (requester : User) :
  request_status request <> new_status ->
  checks_pass (current s) request new_status ->
  request_permission (current s) request = Return permission ->
  request_group (current s) request = Return group ->
  request_requester (current s) request = Return requester ->
  update_request now request user new_status comment s
  = let db1 := transition_rows (current s) now request user new_status
                 comment in
    let mapping := mkPermissionMap (permission_id permission)
                     (group_id group) (request_argument request) in
    let log := new_audit_log request user permission new_status in
    let email := status_email request user permission group requester
                   new_status comment in
    if decide (new_status = actioned) then
      if ARGUMENT_VALIDATION (request_argument request) then
        let db2 := if bool_decide (mapping ∈ permission_maps db1) then db1
                   else db_incr_updates (db_add_permission_map mapping db1) in
        (Return tt,
         mkSession (db_add_audit_log log db2) (db_add_audit_log log db2)
                   (outbox s ++ [email]))
      else (Raise AssertionError, mkSession db1 db1 (outbox s))
    else
      (Return tt,
       mkSession (db_add_audit_log log db1) (db_add_audit_log log db1)
                 (outbox s ++ [email])).
Proof.
  intros Hstatus Hchecks Hperm Hgroup Hrequester.
  unfold update_request. rewrite decide_False by exact Hstatus.
  run_workflow. rewrite Hperm, Hgroup, Hrequester.
  unfold transition_rows, new_comment, new_status_change, status_email.
  destruct (decide (new_status = actioned)) as [->|Hnew].
  - destruct (Hchecks eq_refl) as (p & Hp & Haudit).
    rewrite Hperm in Hp. injection Hp as <-.
    assert (Hvalidated :
              permission_audited permission = true ->
              assert_controllers_are_auditors (current s) group = true).
    { intros Hau. destruct (Haudit Hau) as (g & Hg & Hok).
      rewrite Hgroup in Hg. now injection Hg as <-. }
    destruct (permission_audited permission);
      [rewrite Hvalidated by reflexivity|];
      (destruct (ARGUMENT_VALIDATION (request_argument request));
       cbn [negb current committed outbox];
       [|reflexivity]);
      cbn [db_set_request_status db_add_comment db_add_status_change
           permission_maps];
      destruct (bool_decide _); reflexivity.
  - reflexivity.
Qed.
Lemma get_request_set_status (db : DB) (id : Z) (new_status : Status)
    (request : PermissionRequest) :
  get_request db id = Some request ->
  get_request (db_set_request_status id new_status db) id
  = Some (set_status new_status request).
Proof.
  unfold get_request, db_set_request_status. cbn [requests].
  induction (requests db) as [|r rs IH]; simpl; [discriminate|].
  destruct (decide (request_id r = id)) as [Hid|Hid].
  - rewrite !bool_decide_eq_true_2 by (simpl; exact Hid).
    now intros [= ->].
  - rewrite !bool_decide_eq_false_2 by exact Hid. exact IH.
Qed.

Lemma get_request_transition_rows (db : DB) (now : Z)
    (request : PermissionRequest) (user : User) (new_status : Status)
    (comment : string) :
  get_request db (request_id request) = Some request ->
  get_request (transition_rows db now request user new_status comment)
              (request_id request)
  = Some (set_status new_status request).
Proof. intros Hstored. now apply get_request_set_status. Qed.

Lemma stored_after_transition (db db' : DB) (now : Z)
    (request : PermissionRequest) (user : User) (new_status : Status)
    (comment : string) :
  requests db'
  = requests (transition_rows db now request user new_status comment) ->
  get_request db (request_id request) = Some request ->
  stored_with_status db' request new_status.
Proof.
  intros Hrows Hstored. exists (set_status new_status request). split.
  - unfold get_request. rewrite Hrows.
    now apply get_request_transition_rows.
  - repeat split.
Qed.

Lemma stored_with_status_row (db : DB) (request : PermissionRequest)
    (st : Status) :
  stored_with_status db request st ->
  get_request db (request_id request)
  = Some (mkPermissionRequest (request_id request)
            (request_requester_id request) (request_group_id request)
            (request_permission_id request) (request_argument request) st
            (request_requested_at request)).
Proof.
  intros (row & Hrow & Hst & Hid & Hrequester & Hgroup & Hperm & Harg & Hat).
  rewrite Hrow. destruct row. simpl in *. now subst.
Qed.

(** Once the checks have passed the status is written and committed,
    whatever happens afterwards. *)
Lemma update_request_commits (now : Z) (request : PermissionRequest)
    (user : User) (new_status : Status) (comment : string) (s : Session) :
  request_status request <> new_status ->
  checks_pass (current s) request new_status ->
  exists result s',
    update_request now request user new_status comment s = (result, s')
    /\ requests (committed s')
       = requests (transition_rows (current s) now request user new_status
                                   comment)
    /\ status_changes (committed s')
       = status_changes (current s)
         ++ [new_status_change (current s) now request user new_status].
Proof.
  intros Hstatus Hchecks.
  unfold update_request. rewrite decide_False by exact Hstatus.
  run_workflow. unfold checks_pass in Hchecks.
  destruct (decide (new_status = actioned)) as [->|Hnew].
  - destruct (Hchecks eq_refl) as (p & -> & Haudit).
    destruct (permission_audited p).
    + destruct (Haudit eq_refl) as (g & -> & ->). all_outcomes.
    + all_outcomes.
  - all_outcomes.
Qed.
End UpdateRequest.

Lemma related_raise {A : Type} (row_id : A -> Z) (table : list A) (id : Z)
    (e : Error) :
  related row_id table id = Raise e -> e = AttributeError.
Proof. unfold related. destruct (List.find _ table); congruence. Qed.

(** The same case analysis on a hypothesis, keeping what each lookup
    raised. *)
Ltac outcomes_of Heq :=
  repeat
    (cbn [negb current committed outbox db_set_request_status db_add_comment
          db_add_status_change permission_maps] in Heq;
     match type of Heq with
     | context [decide (?st = actioned)] => destruct (decide (st = actioned))
     | context [permission_audited ?p] => destruct (permission_audited p)
     | context [assert_controllers_are_auditors ?db ?g] =>
         destruct (assert_controllers_are_auditors db g)
     | context [request_permission ?db ?r] =>
         let E := fresh "E" in
         destruct (request_permission db r) eqn:E;
         [|apply related_raise in E; subst]
     | context [request_group ?db ?r] =>
         let E := fresh "E" in
         destruct (request_group db r) eqn:E;
         [|apply related_raise in E; subst]
     | context [request_requester ?db ?r] =>
         let E := fresh "E" in
         destruct (request_requester db r) eqn:E;
         [|apply related_raise in E; subst]
     | context [ARGUMENT_VALIDATION ?a] => destruct (ARGUMENT_VALIDATION a)
     | context [bool_decide ?P] => destruct (bool_decide P)
     | context [decide (?e = IntegrityError)] =>
         destruct (decide (e = IntegrityError))
     end).

Section Validation.
Context `{Collaborators}.

(** The auditor error of [update_request] comes from the check before
    the first write. *)
Lemma update_request_not_auditor (now : Z) (request : PermissionRequest)
    (user : User) (new_status : Status) (comment : string) (s s' : Session) :
  update_request now request user new_status comment s
  = (Raise UserNotAuditor, s') ->
  s' = s.
Proof.
  unfold update_request.
  destruct (decide (request_status request = new_status));
    [discriminate|].
  unfold grant_permission, try_except, AuditLog_log, send_email,
    mbind, M_bind, mret, M_ret, raise, lift, query, update, commit, rollback.
  intros Heq. outcomes_of Heq; congruence.
Qed.

Lemma update_request_audited_raises (now : Z) (request : PermissionRequest)
    (user : User) (comment : string) (s : Session)
    (permission : Permission) (group : Group) :
  request_status request <> actioned ->
  request_permission (current s) request = Return permission ->
  permission_audited permission = true ->
  request_group (current s) request = Return group ->
  assert_controllers_are_auditors (current s) group = false ->
  update_request now request user actioned comment s
  = (Raise UserNotAuditor, s).
Proof.
  intros Hstatus Hperm Haudited Hgroup Hfails.
  unfold update_request. rewrite decide_False by exact Hstatus.
  run_workflow. now rewrite Hperm, Haudited, Hgroup, Hfails.
Qed.

(** [create_request] raises only before its first write. *)
Lemma create_request_raise_unchanged (now : Z) (user : User) (group : Group)
    (permission : Permission) (argument reason : string)
    (s s' : Session) (e : Error) :
  create_request now user group permission argument reason s = (Raise e, s') ->
  s' = s.
Proof.
  unfold create_request. run_workflow.
  destruct (existsb _ _); [congruence|].
  destruct (bool_decide (0 < _)%nat); [congruence|].
  destruct (get_owners_by_grantable_permission (current s) true);
    [|congruence].
  destruct (get_owner_arg_list _ _ _ _); [|congruence].
  destruct (bool_decide (_ = [])); [congruence|].
  destruct (permission_audited permission && _); congruence.
Qed.
End Validation.

Section CreateRequest.
Context `{Collaborators}.

Lemma already_granted_check (db : DB) (group : Group)
    (permission : Permission) (argument : string) :
  existsb (fun '(existing_perm_name, existing_perm_argument) =>
             bool_decide (permission_name permission = existing_perm_name)
             && bool_decide (argument = existing_perm_argument))
          (my_permissions db group) = true
  <-> already_granted db group permission argument.
Proof.
  unfold already_granted. rewrite existsb_exists. split.
  - intros ([n a] & Hin & Hcheck). apply andb_true_iff in Hcheck as [Hn Ha].
    apply bool_decide_eq_true in Hn, Ha. subst.
    now apply list_elem_of_In.
  - intros Hin. exists (permission_name permission, argument).
    split; [now apply list_elem_of_In|].
    now rewrite !bool_decide_eq_true_2.
Qed.

Lemma pending_exists_check (db : DB) (group : Group)
    (permission : Permission) (argument : string) :
  bool_decide
    (0 < length (filter (same_pending group permission argument)
                        (requests db)))%nat = true
  <-> pending_exists db group permission argument.
Proof.
  rewrite bool_decide_eq_true. unfold pending_exists. split.
  - intros Hlen.
    destruct (filter _ (requests db)) as [|r rs] eqn:Hf;
      [simpl in Hlen; lia|].
    assert (Hr : r ∈ filter (same_pending group permission argument)
                           (requests db)) by (rewrite Hf; now left).
    apply list_elem_of_filter in Hr. exists r. tauto.
  - intros (r & Hin & Hr).
    assert (Hrf : r ∈ filter (same_pending group permission argument)
                              (requests db))
      by (apply list_elem_of_filter; auto).
    destruct (filter _ (requests db)); [inversion Hrf|simpl; lia].
Qed.

Lemma create_request_granted (now : Z) (user : User) (group : Group)
    (permission : Permission) (argument reason : string) (s : Session) :
  already_granted (current s) group permission argument ->
  create_request now user group permission argument reason s
  = (Raise RequestAlreadyGranted, s).
Proof.
  intros Hgranted. apply already_granted_check in Hgranted.
  unfold create_request. run_workflow. now rewrite Hgranted.
Qed.

Lemma create_request_pending (now : Z) (user : User) (group : Group)
    (permission : Permission) (argument reason : string) (s : Session) :
  ~ already_granted (current s) group permission argument ->
  pending_exists (current s) group permission argument ->
  create_request now user group permission argument reason s
  = (Raise RequestAlreadyExists, s).
Proof.
  intros Hgranted Hpending.
  rewrite <- already_granted_check in Hgranted.
  apply not_true_is_false in Hgranted.
  apply pending_exists_check in Hpending.
  unfold create_request. run_workflow. now rewrite Hgranted, Hpending.
Qed.

(** C6, as amended: [create_request] raises [RequestAlreadyGranted]
    whenever the group's permissions include the pair of the request, and
    raises [RequestAlreadyExists] whenever they do not and a pending
    request exists for the same group, permission and argument; in both
    cases the session is left as it was, so no request is created. *)
Theorem create_request_duplicates (now : Z) (user : User) (group : Group)
    (permission : Permission) (argument reason : string) (s : Session) :
  (already_granted (current s) group permission argument ->
   create_request now user group permission argument reason s
   = (Raise RequestAlreadyGranted, s))
  /\ (~ already_granted (current s) group permission argument ->
      pending_exists (current s) group permission argument ->
      create_request now user group permission argument reason s
      = (Raise RequestAlreadyExists, s)).
Proof.
  split; [apply create_request_granted|apply create_request_pending].
Qed.
End CreateRequest.

Lemma create_request_duplicates_witness :
  create_request (H := sample_env) 500 user_gary group_team perm_ssh "prod"
                 "deploys" sample_session
  = (Raise RequestAlreadyGranted, sample_session)
  /\ create_request (H := sample_env) 500 user_gary group_team perm_sudo "all"
                    "oncall" sample_session
     = (Raise RequestAlreadyExists, sample_session).
Proof.
  split.
  - apply (proj1 (create_request_duplicates (H := sample_env) 500 user_gary
                    group_team perm_ssh "prod" "deploys" sample_session)).
    unfold already_granted. vm_compute. now left.
  - apply (proj2 (create_request_duplicates (H := sample_env) 500 user_gary
                    group_team perm_sudo "all" "oncall" sample_session)).
    + unfold already_granted. vm_compute. intros Hin.
      apply list_elem_of_singleton in Hin. discriminate.
    + exists request_sudo. split; [right; now left|].
      repeat split.
Defined.

(** C6 as stated fails when both conditions hold: the group "team" holds
    ("ssh", "prod") and has a pending request for it, and the call raises
    [RequestAlreadyGranted], not [RequestAlreadyExists]. *)
Lemma create_request_granted_and_pending :
  pending_exists sample_db group_team perm_ssh "prod"
  /\ create_request (H := sample_env) 500 user_gary group_team perm_ssh "prod"
                    "deploys" sample_session
     = (Raise RequestAlreadyGranted, sample_session)
  /\ create_request (H := sample_env) 500 user_gary group_team perm_ssh "prod"
                    "deploys" sample_session
     <> (Raise RequestAlreadyExists, sample_session).
Proof.
  split; [|split].
  - exists request_ssh. split; [now left|]. repeat split.
  - reflexivity.
  - discriminate.
Qed.

Section Transitions.
Context `{Collaborators}.

(** C1, as amended: [update_request] writes the new status for every
    pair of different statuses, also from "actioned" or "cancelled" and
    back to "pending", once the checks it makes for the new status
    "actioned" have passed; the status and one status-change row are then
    committed.  Called with the status the request has, it changes
    nothing: the session and the mails stay as they were. *)
Theorem update_request_transitions (now : Z) (request : PermissionRequest)
    (user : User) (new_status : Status) (comment : string) (s : Session) :
  (request_status request = new_status ->
   update_request now request user new_status comment s = (Return tt, s))
  /\ (request_status request <> new_status ->
      get_request (current s) (request_id request) = Some request ->
      checks_pass (current s) request new_status ->
      exists result s',
        update_request now request user new_status comment s = (result, s')
        /\ stored_with_status (committed s') request new_status
        /\ status_changes (committed s')
           = status_changes (current s)
             ++ [new_status_change (current s) now request user new_status]).
Proof.
  split.
  - intros Hsame. unfold update_request.
    now rewrite decide_True by exact Hsame.
  - intros Hstatus Hstored Hchecks.
    destruct (update_request_commits now request user new_status comment s
                Hstatus Hchecks) as (result & s' & Hrun & Hrequests & Hrows).
    exists result, s'. split; [exact Hrun|]. split; [|exact Hrows].
    eapply stored_after_transition; eassumption.
Qed.

(** C4: whatever [create_request] raises, and so each of its validation
    errors, it raises with the session as it was; the auditor error of
    [update_request] leaves the session as it was; and an update to
    "actioned" of a pending request for an audited permission, for a group
    whose controllers are not all auditors, raises the auditor error and
    changes nothing, so the request is still pending and no status-change
    row is added. *)
Theorem validation_before_mutation :
  (forall now user group permission argument reason s e s',
      create_request now user group permission argument reason s
      = (Raise e, s') ->
      s' = s)
  /\ (forall now request user new_status comment s s',
         update_request now request user new_status comment s
         = (Raise UserNotAuditor, s') ->
         s' = s)
  /\ (forall now request user comment s permission group,
         request_status request = pending ->
         request_permission (current s) request = Return permission ->
         permission_audited permission = true ->
         request_group (current s) request = Return group ->
         assert_controllers_are_auditors (current s) group = false ->
         update_request now request user actioned comment s
         = (Raise UserNotAuditor, s)).
Proof.
  split; [|split].
  - intros. eapply create_request_raise_unchanged. eassumption.
  - intros. eapply update_request_not_auditor. eassumption.
  - intros now request user comment s permission group Hpending.
    apply update_request_audited_raises. rewrite Hpending. discriminate.
Qed.

(** C5: when a request is updated to "actioned" and the grant is already
    there, the grant step raises the conflict on a session in which the
    status change, its comment and the new status are committed; the
    conflict is caught, [update_request] returns without an error, the
    request is "actioned", exactly one status-change row and one comment
    were added, and no grant was. *)
Theorem update_request_grant_conflict (now : Z) (request : PermissionRequest)
    (user : User) (comment : string) (s : Session)
    (permission : Permission) (group : Group) (requester : User) :
  request_status request <> actioned ->
  get_request (current s) (request_id request) = Some request ->
  checks_pass (current s) request actioned ->
  request_permission (current s) request = Return permission ->
  request_group (current s) request = Return group ->
  request_requester (current s) request = Return requester ->
  grants_wellformed (current s) ->
  mkPermissionMap (permission_id permission) (group_id group)
                  (request_argument request)
    ∈ permission_maps (current s) ->
  grant_permission (group_id group) (permission_id permission)
    (request_argument request)
    (mkSession (transition_rows (current s) now request user actioned comment)
               (transition_rows (current s) now request user actioned comment)
               (outbox s))
  = (Raise IntegrityError,
     mkSession (transition_rows (current s) now request user actioned comment)
               (transition_rows (current s) now request user actioned comment)
               (outbox s))
  /\ exists s',
      update_request now request user actioned comment s = (Return tt, s')
      /\ stored_with_status (committed s') request actioned
      /\ status_changes (committed s')
         = status_changes (current s)
           ++ [new_status_change (current s) now request user actioned]
      /\ comments (committed s')
         = comments (current s) ++ [new_comment (current s) now user comment]
      /\ permission_maps (committed s') = permission_maps (current s)
      /\ current s' = committed s'.
Proof.
  intros Hstatus Hstored Hchecks Hperm Hgroup Hrequester Hwf Hgrant.
  pose proof (Hwf _ Hgrant) as Hvalid. simpl in Hvalid.
  split.
  - run_workflow. rewrite Hvalid. simpl.
    now rewrite bool_decide_eq_true_2 by exact Hgrant.
  - rewrite (update_request_run now request user actioned comment s
               permission group requester) by assumption.
    cbv zeta. rewrite decide_True by reflexivity. rewrite Hvalid.
    rewrite bool_decide_eq_true_2 by exact Hgrant.
    eexists. split; [reflexivity|]. cbn [committed current].
    split; [|repeat split].
    now apply (stored_after_transition (current s) _ now request user
                 actioned comment).
Qed.

(** C9, as amended: [update_request] never looks at who the user is.  The
    result and what it writes to the requests and the grants are the same
    for any two users; and for every user a transition that passes the
    same-status check and the auditor check is carried out in full when the
    permission, the group and the requester of the request exist and, for
    the new status "actioned", the argument is of the grammar that
    [grant_permission] asserts: the status, one status-change row and one
    comment by this user, one audit entry, the grant when the new status is
    "actioned", and one mail to the requester. *)
Theorem update_request_any_user (now : Z) (request : PermissionRequest)
    (new_status : Status) (comment : string) (s : Session) :
  (forall user user',
      (update_request now request user new_status comment s).1
      = (update_request now request user' new_status comment s).1
      /\ requests (committed
                     (update_request now request user new_status comment s).2)
         = requests (committed
                       (update_request now request user' new_status comment
                                       s).2)
      /\ permission_maps
           (committed (update_request now request user new_status comment s).2)
         = permission_maps
             (committed
                (update_request now request user' new_status comment s).2))
  /\ (forall user permission group requester,
         request_status request <> new_status ->
         get_request (current s) (request_id request) = Some request ->
         checks_pass (current s) request new_status ->
         request_permission (current s) request = Return permission ->
         request_group (current s) request = Return group ->
         request_requester (current s) request = Return requester ->
         (new_status = actioned ->
          ARGUMENT_VALIDATION (request_argument request) = true) ->
         exists s',
           update_request now request user new_status comment s
           = (Return tt, s')
           /\ stored_with_status (committed s') request new_status
           /\ status_changes (committed s')
              = status_changes (current s)
                ++ [new_status_change (current s) now request user new_status]
           /\ comments (committed s')
              = comments (current s)
                ++ [new_comment (current s) now user comment]
           /\ audit_logs (committed s')
              = audit_logs (current s)
                ++ [new_audit_log request user permission new_status]
           /\ (new_status = actioned ->
               mkPermissionMap (permission_id permission) (group_id group)
                               (request_argument request)
                 ∈ permission_maps (committed s'))
           /\ outbox s'
              = outbox s
                ++ [status_email request user permission group requester
                                 new_status comment]
           /\ current s' = committed s').
Proof.
  split.
  - intros user user'. unfold update_request.
    destruct (decide (request_status request = new_status));
      [repeat split|].
    unfold grant_permission, try_except, AuditLog_log, send_email,
      mbind, M_bind, mret, M_ret, raise, lift, query, update, commit,
      rollback.
    repeat
      (cbn [negb current committed outbox db_set_request_status
            db_add_comment db_add_status_change permission_maps fst snd];
       match goal with
       | |- context [decide (?st = actioned)] =>
           destruct (decide (st = actioned))
       | |- context [permission_audited ?p] =>
           destruct (permission_audited p)
       | |- context [assert_controllers_are_auditors ?db ?g] =>
           destruct (assert_controllers_are_auditors db g)
       | |- context [request_permission ?db ?r] =>
           destruct (request_permission db r)
       | |- context [request_group ?db ?r] => destruct (request_group db r)
       | |- context [request_requester ?db ?r] =>
           destruct (request_requester db r)
       | |- context [ARGUMENT_VALIDATION ?a] =>
           destruct (ARGUMENT_VALIDATION a)
       | |- context [bool_decide ?P] => destruct (bool_decide P)
       | |- context [decide (?e = IntegrityError)] =>
           destruct (decide (e = IntegrityError))
       end);
      repeat split.
  - intros user permission group requester Hstatus Hstored Hchecks Hperm
           Hgroup Hrequester Hvalid.
    rewrite (update_request_run now request user new_status comment s
               permission group requester) by assumption.
    cbv zeta.
    assert (Hget : forall log db,
               requests db
               = requests (transition_rows (current s) now request user
                                           new_status comment) ->
               stored_with_status (db_add_audit_log log db) request
                                  new_status).
    { intros log db Hdb.
      eapply stored_after_transition; [|exact Hstored]. exact Hdb. }
    destruct (decide (new_status = actioned)) as [Hnew|Hnew].
    + rewrite (Hvalid Hnew). eexists. split; [reflexivity|].
      cbn [committed current outbox].
      case_bool_decide as Hgrant.
      * split; [now apply Hget|]. repeat split. intros _. exact Hgrant.
      * split; [now apply Hget|]. repeat split. intros _.
        cbn [permission_maps db_add_audit_log db_incr_updates
             db_add_permission_map].
        apply elem_of_app. right. now left.
    + eexists. split; [reflexivity|]. cbn [committed current outbox].
      split; [now apply Hget|]. repeat split. intros Hact. contradiction.
Qed.
End Transitions.

Lemma update_request_transitions_witness :
  update_request (H := sample_env) 500 request_ssh user_zay pending "again"
                 sample_session
  = (Return tt, sample_session)
  /\ exists result s',
      update_request (H := sample_env) 500 request_ssh user_zay cancelled
                     "not needed" sample_session
      = (result, s')
      /\ get_request (committed s') 1
         = Some (mkPermissionRequest 1 1 2 1 "prod" cancelled 100)
      /\ status_changes (committed s')
         = status_changes sample_db
           ++ [new_status_change sample_db 500 request_ssh user_zay cancelled].
Proof.
  split.
  - apply (proj1 (update_request_transitions (H := sample_env) 500 request_ssh
                    user_zay pending "again" sample_session)).
    reflexivity.
  - destruct (proj2 (update_request_transitions (H := sample_env) 500
                       request_ssh user_zay cancelled "not needed"
                       sample_session))
      as (result & s' & Hrun & Hstored & Hrows).
    + discriminate.
    + reflexivity.
    + intros Hnew. discriminate Hnew.
    + exists result, s'. split; [exact Hrun|]. split; [|exact Hrows].
      exact (stored_with_status_row _ _ _ Hstored).
Defined.

(** C1 as stated fails: "actioned" is not terminal for [update_request].
    The request "shell" of the example is actioned; an update to "pending"
    returns without an error and the request is pending again, and an update
    to "cancelled" leaves it cancelled. *)
Lemma update_request_reopens_actioned :
  request_status request_shell = actioned
  /\ (update_request (H := sample_env) 500 request_shell user_gary pending
                     "reopen" sample_session).1
     = Return tt
  /\ get_request
       (committed
          (update_request (H := sample_env) 500 request_shell user_gary pending
                          "reopen" sample_session).2)
       3
     = Some (mkPermissionRequest 3 2 1 1 "shell" pending 300)
  /\ (update_request (H := sample_env) 500 request_shell user_gary cancelled
                     "revoke" sample_session).1
     = Return tt
  /\ get_request
       (committed
          (update_request (H := sample_env) 500 request_shell user_gary
                          cancelled "revoke" sample_session).2)
       3
     = Some (mkPermissionRequest 3 2 1 1 "shell" cancelled 300).
Proof. repeat split. Qed.

Lemma validation_before_mutation_witness :
  update_request (H := sample_env) 500 request_sudo user_gary actioned "ok"
                 sample_session
  = (Raise UserNotAuditor, sample_session).
Proof.
  apply (proj2 (proj2 (validation_before_mutation (H := sample_env)))
           500 request_sudo user_gary "ok" sample_session perm_sudo group_team);
    reflexivity.
Defined.

Lemma update_request_grant_conflict_witness :
  exists s',
    update_request (H := sample_env) 500 request_ssh user_gary actioned "ok"
                   sample_session
    = (Return tt, s')
    /\ get_request (committed s') 1
       = Some (mkPermissionRequest 1 1 2 1 "prod" actioned 100)
    /\ status_changes (committed s')
       = status_changes sample_db
         ++ [new_status_change sample_db 500 request_ssh user_gary actioned]
    /\ permission_maps (committed s') = permission_maps sample_db.
Proof.
  destruct (update_request_grant_conflict (H := sample_env) 500 request_ssh
              user_gary "ok" sample_session perm_ssh group_team user_gary)
    as [_ (s' & Hrun & Hget & Hrows & _ & Hgrants & _)].
  - discriminate.
  - reflexivity.
  - intros _. exists perm_ssh. split; [reflexivity|discriminate].
  - reflexivity.
  - reflexivity.
  - reflexivity.
  - intros pm Hpm. simpl in Hpm.
    apply elem_of_cons in Hpm as [->|Hpm]; [reflexivity|].
    apply list_elem_of_singleton in Hpm. now subst pm.
  - right. now left.
  - exists s'. split; [exact Hrun|]. split; [|split; assumption].
    exact (stored_with_status_row _ _ _ Hget).
Defined.

Lemma update_request_any_user_witness :
  can_approve_request (H := sample_env) sample_db request_sshd user_gary
                      None None
  = Return ∅
  /\ exists s',
      update_request (H := sample_env) 500 request_sshd user_gary actioned
                     "ok" sample_session
      = (Return tt, s')
      /\ get_request (committed s') 4
         = Some (mkPermissionRequest 4 2 2 2 "ops" actioned 400)
      /\ mkPermissionMap 2 2 "ops" ∈ permission_maps (committed s')
      /\ outbox s'
         = [status_email request_sshd user_gary perm_sshd group_team user_zay
                         actioned "ok"].
Proof.
  split; [reflexivity|].
  destruct (proj2 (update_request_any_user (H := sample_env) 500 request_sshd
                     actioned "ok" sample_session)
              user_gary perm_sshd group_team user_zay)
    as (s' & Hrun & Hget & _ & _ & _ & Hgrant & Hmail & _).
  - discriminate.
  - reflexivity.
  - intros _. exists perm_sshd. split; [reflexivity|discriminate].
  - reflexivity.
  - reflexivity.
  - reflexivity.
  - reflexivity.
  - exists s'. split; [exact Hrun|].
    split; [exact (stored_with_status_row _ _ _ Hget)|].
    split; [now apply Hgrant|exact Hmail].
Defined.

(** C9 as stated fails: a transition that passes the same-status check and
    the auditor check is not always carried out in full.  The request of
    this example is pending, its permission is not audited, and its argument
    has a space, which [create_request] accepts and the grammar does not.
    Updated to "actioned" it ends in the assertion error of the grant step:
    the status is committed, but no grant is written, there is no audit
    entry and no mail. *)
Lemma update_request_not_in_full :
  request_status request_malformed <> actioned
  /\ checks_pass (H := sample_env) malformed_db request_malformed actioned
  /\ (update_request (H := sample_env) 600 request_malformed user_gary
                     actioned "ok" malformed_session).1
     = Raise AssertionError
  /\ get_request
       (committed
          (update_request (H := sample_env) 600 request_malformed user_gary
                          actioned "ok" malformed_session).2)
       5
     = Some (mkPermissionRequest 5 2 2 2 "two words" actioned 500)
  /\ permission_maps
       (committed
          (update_request (H := sample_env) 600 request_malformed user_gary
                          actioned "ok" malformed_session).2)
     = [mkPermissionMap 4 3 ""; mkPermissionMap 1 2 "prod"]
  /\ audit_logs
       (committed
          (update_request (H := sample_env) 600 request_malformed user_gary
                          actioned "ok" malformed_session).2)
     = []
  /\ outbox
       (update_request (H := sample_env) 600 request_malformed user_gary
                       actioned "ok" malformed_session).2
     = [].
Proof.
  split; [discriminate|]. split; [|repeat split].
  intros _. exists perm_sshd. split; [reflexivity|discriminate].
Qed.

(** A request that passes every check of [create_request]: it is added as
    pending with its status change and comment, nothing is committed by the
    function itself, and the mail goes to the members of "admins", the only
    owner. *)
Example create_request_sample :
  let run :=
    create_request (H := sample_env) 500 user_zay group_team perm_sshd "web"
                   "deploys" sample_session in
  run.1 = Return (mkPermissionRequest 5 2 2 2 "web" pending 500)
  /\ requests (current run.2)
     = requests sample_db ++ [mkPermissionRequest 5 2 2 2 "web" pending 500]
  /\ status_changes (current run.2)
     = status_changes sample_db ++ [mkStatusChange 6 5 2 None pending 500]
  /\ comments (current run.2)
     = comments sample_db ++ [mkComment 5 6 2 "deploys" 500]
  /\ committed run.2 = sample_db
  /\ email_recipients <$> outbox run.2 = [{["admins-member"]}].
Proof. repeat split. Qed.

(** Without an owner for the permission and the argument the request is
    refused: with no permission admin, nobody owns "sshd". *)
Example create_request_no_owner :
  create_request (H := sample_env) 500 user_zay group_team perm_sshd "web"
    "deploys"
    (mkSession
       (mkDB (permissions sample_db) (groups sample_db) (users sample_db)
             [] [] [] [] [] 0)
       (mkDB (permissions sample_db) (groups sample_db) (users sample_db)
             [] [] [] [] [] 0)
       [])
  = (Raise NoOwnersAvailable,
     mkSession
       (mkDB (permissions sample_db) (groups sample_db) (users sample_db)
             [] [] [] [] [] 0)
       (mkDB (permissions sample_db) (groups sample_db) (users sample_db)
             [] [] [] [] [] 0)
       []).
Proof. reflexivity. Qed.

(** The glob matcher of the examples on the cases of the specification. *)
Example glob_match_cases :
  glob_match "*" "anything" = true
  /\ glob_match "ab*" "abc" = true
  /\ glob_match "ab*" "xabc" = false
  /\ glob_match "network-*" "network-east" = true
  /\ glob_match "ssh" "sshd" = false.
Proof. repeat split. Qed.

(** * Further properties of the module *)

(** ** The grant reducer: which pairs it returns, and when it raises *)

Lemma split_slash_some (s h t : string) :
  split_slash s = (h, Some t) <-> has_slash h = false /\ s = h +:+ "/" +:+ t.
Proof.
  revert h. induction s as [|c s IH]; intros h.
  - simpl. split; [discriminate|]. intros [_ Hs]. destruct h; discriminate.
  - cbn [split_slash]. destruct (Ascii.eqb c "/") eqn:Hc.
    + apply Ascii.eqb_eq in Hc. subst c. split.
      * intros [= <- <-]. split; reflexivity.
      * intros [Hh Hs]. destruct h as [|d h].
        -- simpl in Hs. now injection Hs as ->.
        -- simpl in Hs, Hh. injection Hs as <- _.
           now rewrite Ascii.eqb_refl in Hh.
    + destruct (split_slash s) as [h' t'] eqn:Hsplit. split.
      * intros [= <- ->]. destruct (proj1 (IH h') eq_refl) as [Hh ->].
        simpl. rewrite Hc. now split.
      * intros [Hh Hs]. destruct h as [|d h].
        -- simpl in Hs. injection Hs as -> _.
           now rewrite Ascii.eqb_refl in Hc.
        -- simpl in Hs, Hh. injection Hs as <- ->. rewrite Hc in Hh.
           assert (Heq : (h', t') = (h, Some t)) by (apply IH; auto).
           now injection Heq as -> ->.
Qed.

Lemma split_slash_none (s h : string) :
  split_slash s = (h, None) <-> has_slash s = false /\ s = h.
Proof.
  revert h. induction s as [|c s IH]; intros h; simpl.
  - split; [now intros [= <-]|now intros [_ <-]].
  - destruct (Ascii.eqb c "/") eqn:Hc; simpl.
    + split; [discriminate|]. now intros [? _].
    + destruct (split_slash s) as [h' t'] eqn:Hsplit. split.
      * intros [= <- ->]. destruct (proj1 (IH h') eq_refl) as [Hs ->].
        now split.
      * intros [Hs <-].
        assert (Heq : (h', t') = (s, None)) by (apply IH; auto).
        now injection Heq as -> ->.
Qed.

Lemma delegation_split (argument : string) :
  delegation argument (split_slash argument).1
             (default "*" (split_slash argument).2).
Proof.
  destruct (split_slash argument) as [h [t|]] eqn:Hsplit; simpl.
  - apply split_slash_some in Hsplit as [Hh Harg].
    split; [exact Hh|now right].
  - apply split_slash_none in Hsplit as [Hh Harg]. subst h.
    split; [exact Hh|now left].
Qed.

Lemma delegation_unique (argument glob pattern : string) :
  delegation argument glob pattern ->
  (glob, pattern)
  = ((split_slash argument).1, default "*" (split_slash argument).2).
Proof.
  intros [Hglob [[Harg Hpattern]|Harg]].
  - subst glob pattern.
    assert (Hsplit : split_slash argument = (argument, None))
      by now apply split_slash_none.
    now rewrite Hsplit.
  - assert (Hsplit : split_slash argument = (glob, Some pattern))
      by now apply split_slash_some.
    now rewrite Hsplit.
Qed.

Section GrantReducerPairs.
Context `{Collaborators}.

(** C2, as amended: for grants of the name [PERMISSION_GRANT] the grant
    reducer returns one pair (permission, argument-pattern) for each grant
    and each permission of the catalog that the grant's glob matches, and
    removes no duplicate: the result is a rearrangement of the list of all
    these pairs, so a pair that two grants reach is in it twice.  How each
    grant reads, as a glob and an argument-pattern, is determined by its
    argument. *)
Theorem filter_grantable_permissions_pairs (db : DB) (grants : list Grant)
    (all_permissions : option (list (string * Permission))) :
  Forall (fun g => grant_name g = PERMISSION_GRANT) grants ->
  exists result parts,
    filter_grantable_permissions db grants all_permissions = Return result
    /\ Forall2 (fun g (gp : string * string) =>
                  delegation (grant_argument g) gp.1 gp.2)
               grants parts
    /\ (forall parts',
           Forall2 (fun g (gp : string * string) =>
                      delegation (grant_argument g) gp.1 gp.2)
                   grants parts' ->
           parts' = parts)
    /\ result
       ≡ₚ flat_map
            (fun gp : string * string =>
               flat_map
                 (fun np : string * Permission =>
                    if matches_glob gp.1 np.1 then [(np.2, gp.2)] else [])
                 (default (all_permissions_dict db) all_permissions))
            parts.
Proof.
  intros Hall.
  set (read := fun g : Grant =>
                 ((split_slash (grant_argument g)).1,
                  default "*" (split_slash (grant_argument g)).2)).
  exists (sorted grantable_key
            (flat_map
               (grantable_by (default (all_permissions_dict db)
                                      all_permissions))
               grants)),
         (map read grants).
  split; [now apply filter_grantable_permissions_ok|]. split; [|split].
  - clear Hall. induction grants as [|g grants IH]; simpl; constructor.
    + apply delegation_split.
    + exact IH.
  - clear Hall. intros parts' Hparts.
    induction Hparts as [|g gp grants parts' Hg _ IH]; [reflexivity|].
    simpl. rewrite IH. f_equal. destruct gp as [glob pattern].
    now apply delegation_unique.
  - rewrite sorted_perm. clear Hall.
    induction grants as [|g grants IH]; [reflexivity|].
    simpl. rewrite IH. apply Permutation_app_tail.
    unfold grantable_by. simpl.
    erewrite flat_map_ext; [reflexivity|]. now intros [name p].
Qed.
End GrantReducerPairs.

Lemma filter_grantable_permissions_pairs_witness :
  exists result parts,
    filter_grantable_permissions (H := sample_env) empty_db
      [grant_of "ssh*/prod"; grant_of "sshd"]
      (Some [("ssh", perm_ssh); ("sshd", perm_sshd)])
    = Return result
    /\ parts = [("ssh*", "prod"); ("sshd", "*")]
    /\ result ≡ₚ [(perm_ssh, "prod"); (perm_sshd, "prod"); (perm_sshd, "*")].
Proof.
  destruct (filter_grantable_permissions_pairs (H := sample_env) empty_db
              [grant_of "ssh*/prod"; grant_of "sshd"]
              (Some [("ssh", perm_ssh); ("sshd", perm_sshd)]))
    as (result & parts & Hrun & _ & Hunique & Hperm).
  - repeat constructor.
  - exists result, parts. split; [exact Hrun|].
    assert (Hparts : [("ssh*", "prod"); ("sshd", "*")] = parts).
    { apply Hunique. constructor; [|constructor; [|constructor]].
      - split; [reflexivity|now right].
      - split; [reflexivity|now left]. }
    split; [now symmetry|]. rewrite Hperm, <- Hparts. reflexivity.
Defined.

Section GrantReducerMembers.
Context `{Collaborators}.

Lemma grantable_by_member (catalog : list (string * Permission))
    (grant : Grant) (p : Permission) (a : string) :
  (p, a) ∈ grantable_by catalog grant
  <-> exists name glob,
        (name, p) ∈ catalog /\ has_slash glob = false
        /\ matches_glob glob name = true
        /\ (grant_argument grant = glob /\ a = "*"
            \/ grant_argument grant = glob +:+ "/" +:+ a).
Proof.
  unfold grantable_by.
  destruct (split_slash (grant_argument grant)) as [h t] eqn:Hsplit.
  cbn [fst snd]. rewrite list_elem_of_In, in_flat_map. split.
  - intros ([name q] & Hin & Hpa).
    destruct (matches_glob h name) eqn:Hm; [|inversion Hpa].
    destruct Hpa as [[= -> <-]|[]]. apply list_elem_of_In in Hin.
    exists name, h. split; [exact Hin|].
    destruct t as [t|]; simpl.
    + apply split_slash_some in Hsplit as [Hh Hs]. auto.
    + apply split_slash_none in Hsplit as [Hs Hh]. subst h. auto.
  - intros (name & glob & Hin & Hglob & Hm & Hcase).
    exists (name, p). split; [now apply list_elem_of_In|].
    destruct Hcase as [[Harg ->]|Harg].
    + assert (Hsplit' : split_slash (grant_argument grant) = (glob, None))
        by (apply split_slash_none; now rewrite Harg).
      rewrite Hsplit in Hsplit'. injection Hsplit' as -> ->.
      rewrite Hm. now left.
    + assert (Hsplit' : split_slash (grant_argument grant) = (glob, Some a))
        by (apply split_slash_some; auto).
      rewrite Hsplit in Hsplit'. injection Hsplit' as -> ->.
      rewrite Hm. now left.
Qed.

(** X1: the grant reducer returns the pair (permission, pattern) exactly
    when some grant's argument is a glob without a slash that matches the
    permission's catalog name, and the argument is either the glob alone,
    with the pattern "*", or the glob, a slash and the pattern. *)
Theorem filter_grantable_permissions_member (db : DB) (grants : list Grant)
    (all_permissions : option (list (string * Permission)))
    (result : list (Permission * string)) (p : Permission) (a : string) :
  filter_grantable_permissions db grants all_permissions = Return result ->
  ((p, a) ∈ result
   <-> exists grant name glob,
         grant ∈ grants
         /\ (name, p) ∈ default (all_permissions_dict db) all_permissions
         /\ has_slash glob = false
         /\ matches_glob glob name = true
         /\ (grant_argument grant = glob /\ a = "*"
             \/ grant_argument grant = glob +:+ "/" +:+ a)).
Proof.
  intros Hresult.
  destruct (decide (Forall (fun g => grant_name g = PERMISSION_GRANT) grants))
    as [Hall|Hnot].
  - rewrite filter_grantable_permissions_ok in Hresult by exact Hall.
    injection Hresult as <-.
    rewrite sorted_elem_of, list_elem_of_In, in_flat_map. split.
    + intros (grant & Hgrant & Hin).
      apply list_elem_of_In, grantable_by_member in Hin
        as (name & glob & Hrest).
      exists grant, name, glob. split; [now apply list_elem_of_In|exact Hrest].
    + intros (grant & name & glob & Hgrant & Hrest).
      exists grant. split; [now apply list_elem_of_In|].
      apply list_elem_of_In, grantable_by_member. eauto.
  - unfold filter_grantable_permissions in Hresult.
    rewrite collect_grantable_raises in Hresult by exact Hnot.
    discriminate.
Qed.

(** X2: the grant reducer raises the assertion error exactly when one of
    the grants has a name other than the grant permission's, and returns a
    list otherwise; with no grants it returns the empty list. *)
Theorem filter_grantable_permissions_asserts (db : DB) (grants : list Grant)
    (all_permissions : option (list (string * Permission))) :
  (filter_grantable_permissions db grants all_permissions
   = Raise AssertionError
   <-> exists g, g ∈ grants /\ grant_name g <> PERMISSION_GRANT)
  /\ ((forall g, g ∈ grants -> grant_name g = PERMISSION_GRANT) ->
      exists result,
        filter_grantable_permissions db grants all_permissions = Return result)
  /\ filter_grantable_permissions db [] all_permissions = Return [].
Proof.
  split; [|split].
  - split.
    + intros Hraise.
      destruct (decide (Forall (fun g => grant_name g = PERMISSION_GRANT)
                               grants)) as [Hall|Hnot].
      * rewrite filter_grantable_permissions_ok in Hraise by exact Hall.
        discriminate.
      * apply not_Forall_Exists in Hnot; [|intros g; apply _].
        apply Exists_exists in Hnot as (g & Hg & Hname). eauto.
    + intros (g & Hg & Hname). unfold filter_grantable_permissions.
      rewrite collect_grantable_raises; [reflexivity|].
      intros Hall. rewrite Forall_forall in Hall. auto.
  - intros Hall. eexists. apply filter_grantable_permissions_ok.
    now apply Forall_forall.
  - now rewrite filter_grantable_permissions_ok by constructor.
Qed.
End GrantReducerMembers.

Lemma filter_grantable_permissions_member_witness :
  (perm_sshd, "prod") ∈ [(perm_sshd, "prod"); (perm_ssh, "prod")]
  <-> exists grant name glob,
        grant ∈ [grant_of "ssh*/prod"]
        /\ (name, perm_sshd)
             ∈ default (all_permissions_dict empty_db)
                       (Some [("ssh", perm_ssh); ("sshd", perm_sshd)])
        /\ has_slash glob = false
        /\ matches_glob (Collaborators := sample_env) glob name = true
        /\ (grant_argument grant = glob /\ "prod" = "*"
            \/ grant_argument grant = glob +:+ "/" +:+ "prod").
Proof.
  apply (filter_grantable_permissions_member (H := sample_env) empty_db
           [grant_of "ssh*/prod"] (Some [("ssh", perm_ssh); ("sshd", perm_sshd)])
           [(perm_sshd, "prod"); (perm_ssh, "prod")] perm_sshd "prod").
  reflexivity.
Defined.

Lemma filter_grantable_permissions_asserts_witness :
  filter_grantable_permissions (H := sample_env) empty_db
    [grant_of "ssh"; mkGrant "sudo" "ssh"] None
  = Raise AssertionError.
Proof.
  apply (proj1 (filter_grantable_permissions_asserts (H := sample_env) empty_db
                  [grant_of "ssh"; mkGrant "sudo" "ssh"] None)).
  exists (mkGrant "sudo" "ssh"). split; [right; now left|discriminate].
Defined.

(** ** The argument-set reducer and the catalog *)

(** X3: whatever the arguments, the reducer returns a strictly increasing
    list of arguments it was given, and that list is either exactly the
    wildcard or has no wildcard in it: the wildcard is never listed beside
    another argument. *)
Theorem reduce_args_shape (restricted : list string) (k : OwnerKey)
    (args : list string) :
  StronglySorted str_lt (_reduce_args restricted k args)
  /\ (forall a, a ∈ _reduce_args restricted k args -> a ∈ args)
  /\ (_reduce_args restricted k args = ["*"]
      \/ "*" ∉ _reduce_args restricted k args).
Proof.
  unfold _reduce_args.
  destruct (negb _ && key_in k restricted && any _) eqn:Hrestricted.
  - split; [apply sorted_set_sorted|]. split.
    + intros a Ha. rewrite sorted_set_elem_of, list_elem_of_filter in Ha.
      tauto.
    + right. intros Ha.
      rewrite sorted_set_elem_of, list_elem_of_filter in Ha. tauto.
  - destruct (all _) eqn:Hall.
    + split; [apply sorted_set_sorted|]. split.
      * intros a Ha. rewrite sorted_set_elem_of in Ha. exact Ha.
      * right. intros Ha. rewrite sorted_set_elem_of in Ha.
        now apply (proj1 (all_non_wildcard args) Hall "*").
    + split; [repeat constructor|]. split; [|now left].
      intros a Ha. apply list_elem_of_singleton in Ha. subst a.
      destruct (decide ("*" ∈ args)) as [Hin|Hnot]; [exact Hin|].
      assert (Hall' : all (map (fun a => negb (String.eqb a "*")) args) = true).
      { apply all_non_wildcard. intros a Ha ->. contradiction. }
      congruence.
Qed.

Section Catalog.
Context `{Collaborators}.

(** X4: [get_all_permissions] returns the permissions in the order of their
    names; they are the enabled permissions of the table, or all of them when
    disabled ones are asked for, each as often as the table has it. *)
Theorem get_all_permissions_sorted (db : DB) (include_disabled : bool) :
  StronglySorted
    (fun p q => str_le (permission_name p) (permission_name q))
    (get_all_permissions db include_disabled)
  /\ get_all_permissions db include_disabled
     ≡ₚ filter (fun p => include_disabled = true \/ permission_enabled p = true)
               (permissions db)
  /\ (forall p,
         p ∈ get_all_permissions db include_disabled
         <-> p ∈ permissions db
             /\ (include_disabled = true \/ permission_enabled p = true))
  /\ get_all_permissions db true ≡ₚ permissions db.
Proof.
  unfold get_all_permissions. split; [apply sorted_sorted|].
  split; [apply sorted_perm|]. split.
  - intros p. rewrite sorted_elem_of, list_elem_of_filter. tauto.
  - rewrite sorted_perm.
    induction (permissions db) as [|p ps IH]; [reflexivity|].
    rewrite filter_cons_True by now left. now rewrite IH.
Qed.

(** X5: a grant that [grant_permission] has just made cannot be made
    again: the second call raises the integrity error and leaves the session
    as it is, with the grant committed once. *)
Theorem grant_permission_twice (group_id permission_id : Z)
    (argument : string) (s s' : Session) :
  grant_permission group_id permission_id argument s = (Return tt, s') ->
  grant_permission group_id permission_id argument s'
  = (Raise IntegrityError, s')
  /\ permission_maps (committed s')
     = permission_maps (current s)
       ++ [mkPermissionMap permission_id group_id argument]
  /\ counter_updates (committed s') = counter_updates (current s) + 1
  /\ mkPermissionMap permission_id group_id argument
       ∉ permission_maps (current s).
Proof.
  unfold grant_permission.
  destruct (ARGUMENT_VALIDATION argument) eqn:Hvalid; simpl;
    [|discriminate].
  run_workflow.
  case_bool_decide as Hin; [discriminate|].
  intros [= <-]. cbn [current committed].
  rewrite bool_decide_eq_true_2.
  - repeat split. exact Hin.
  - cbn [permission_maps db_incr_updates db_add_permission_map].
    apply elem_of_app. right. now left.
Qed.
End Catalog.

Lemma grant_permission_twice_witness :
  exists s',
    grant_permission (H := sample_env) 2 2 "ops" sample_session
    = (Return tt, s')
    /\ grant_permission (H := sample_env) 2 2 "ops" s'
       = (Raise IntegrityError, s').
Proof.
  exists (grant_permission (H := sample_env) 2 2 "ops" sample_session).2.
  split; [vm_compute; reflexivity|].
  apply (grant_permission_twice (H := sample_env) 2 2 "ops" sample_session).
  vm_compute. reflexivity.
Defined.

(** ** The owner map: what the resolver keeps true of it *)

Section DictInvariants.
Context {K V : Type} `{EqDecision K}.
Implicit Types (d : list (K * V)) (k : K) (v : V).

Lemma dict_set_NoDup d k v :
  NoDup (dict_keys d) -> NoDup (dict_keys (dict_set d k v)).
Proof.
  unfold dict_keys. induction d as [|[k0 v0] d IH]; simpl; intros Hnd.
  - repeat constructor. inversion 1.
  - apply NoDup_cons in Hnd as [Hk0 Hnd].
    destruct (decide (k = k0)) as [->|Hne]; simpl.
    + now apply NoDup_cons.
    + apply NoDup_cons. split; [|now apply IH].
      intros Hin. apply (dict_keys_set d k v k0) in Hin as [Hin| ->].
      * contradiction.
      * contradiction.
Qed.

Lemma dict_get_elem_NoDup d k v :
  NoDup (dict_keys d) -> (k, v) ∈ d -> dict_get d k = Some v.
Proof.
  unfold dict_keys. induction d as [|[k0 v0] d IH]; simpl; intros Hnd Hin.
  - inversion Hin.
  - apply NoDup_cons in Hnd as [Hk0 Hnd].
    apply elem_of_cons in Hin as [[= -> ->]|Hin].
    + now rewrite decide_True.
    + rewrite decide_False; [now apply IH|].
      intros ->. apply Hk0. apply list_elem_of_fmap. exists (k0, v). auto.
Qed.

Lemma dict_get_None_keys d k : dict_get d k = None <-> k ∉ dict_keys d.
Proof.
  unfold dict_keys. induction d as [|[k0 v0] d IH]; simpl.
  - split; [intros _ Hin; inversion Hin|reflexivity].
  - rewrite not_elem_of_cons. destruct (decide (k = k0)) as [->|Hne].
    + split; [discriminate|]. now intros [? _].
    + rewrite IH. tauto.
Qed.
End DictInvariants.

Section OwnerMapInvariants.
Context `{Collaborators}.

Lemma owners_extend_wf (m : OwnerMap) (k : OwnerKey) (a : string)
    (owners : list Group) :
  owner_map_wf m -> owner_map_wf (owners_extend m k a owners).
Proof.
  intros [Hkeys Hinner]. unfold owners_extend. split.
  - now apply dict_set_NoDup.
  - intros k' by_arg Hin. apply dict_set_elem in Hin as [Hin|[= -> ->]].
    + eapply Hinner, Hin.
    + apply dict_set_NoDup.
      destruct (dict_get m k) as [by_arg|] eqn:Hget; simpl.
      * eapply Hinner, dict_get_Some_elem, Hget.
      * constructor.
Qed.

(** A property of owner maps that every step of the resolver keeps holds of
    its result, and the resolver always has a result. *)
Lemma resolver_invariant (P : OwnerMap -> Prop) (db : DB)
    (separate_global : bool) :
  P [] ->
  (forall m k a g,
      g ∈ groups db -> group_enabled g = true ->
      (k = GLOBAL_OWNERS -> separate_global = true /\ a = "*") ->
      P m -> P (owners_extend m k a [g])) ->
  (forall m n a owners, P m -> P (owners_extend m (PermName n) a owners)) ->
  exists m,
    get_owners_by_grantable_permission db separate_global = Return m /\ P m.
Proof.
  intros Hempty Hgroup Hplugin. unfold get_owners_by_grantable_permission.
  assert (Hloop : forall gs m,
             (forall g, g ∈ gs -> g ∈ groups db /\ group_enabled g = true) ->
             P m ->
             exists m',
               for_each (add_group_owners db separate_global
                           (all_permissions_dict db)
                           (grants_by_group (all_group_permissions db)))
                        gs m
               = Return m' /\ P m').
  { induction gs as [|g gs IH]; intros m Hgs Hm; simpl; [eauto|].
    assert (Hg : g ∈ groups db /\ group_enabled g = true)
      by (apply Hgs; now left).
    destruct Hg as [Hg Hge].
    assert (Hstep : exists m1,
               add_group_owners db separate_global (all_permissions_dict db)
                 (grants_by_group (all_group_permissions db)) m g = Return m1
               /\ P m1).
    { unfold add_group_owners. destruct (any _).
      - eexists. split; [reflexivity|].
        assert (Hnames : P (foldl (fun m perm_name =>
                                     owners_extend m (PermName perm_name) "*" [g])
                                  m (dict_keys (all_permissions_dict db)))).
        { apply foldl_invariant; [exact Hm|].
          intros m' n _ Hm'. apply Hgroup; auto. discriminate. }
        destruct separate_global eqn:Hsg; [|exact Hnames].
        apply Hgroup; auto.
      - rewrite filter_grantable_permissions_ok.
        2:{ apply Forall_forall. intros x Hx.
            apply list_elem_of_fmap in Hx as (gp & -> & Hgp).
            now apply list_elem_of_filter in Hgp as [Hname _]. }
        eexists. split; [reflexivity|].
        apply foldl_invariant; [exact Hm|].
        intros m' [perm arg] _ Hm'. apply Hgroup; auto. discriminate. }
    destruct Hstep as (m1 & -> & Hm1). simpl.
    apply IH; [|exact Hm1]. intros g' Hg'. apply Hgs. now right. }
  destruct (Hloop (filter (fun g => group_enabled g = true) (groups db)) [])
    as (m & -> & Hm); [|exact Hempty|].
  { intros g Hg. apply list_elem_of_filter in Hg. tauto. }
  simpl. eexists. split; [reflexivity|].
  unfold merge_plugin_results.
  apply foldl_invariant; [exact Hm|]. intros m1 res _ Hm1.
  apply foldl_invariant; [exact Hm1|]. intros m2 [perm by_arg] _ Hm2.
  apply foldl_invariant; [exact Hm2|]. intros m3 [arg owners] _ Hm3.
  now apply Hplugin.
Qed.

(** X6: the resolver never raises, whatever the database and the plugins;
    in the owner map it returns no permission and no argument-pattern is
    listed twice, and the key [GLOBAL_OWNERS] only occurs when the separate
    entry for global owners was asked for. *)
Theorem get_owners_wellformed (db : DB) (separate_global : bool) :
  exists m,
    get_owners_by_grantable_permission db separate_global = Return m
    /\ owner_map_wf m
    /\ (separate_global = false -> GLOBAL_OWNERS ∉ dict_keys m).
Proof.
  destruct (resolver_invariant
              (fun m => owner_map_wf m
                        /\ (separate_global = false ->
                            GLOBAL_OWNERS ∉ dict_keys m))
              db separate_global) as (m & Hm & Hwf & Hglobal).
  - split; [split; [constructor|intros k by_arg Hin; inversion Hin]|].
    intros _ Hin. inversion Hin.
  - intros m k a g _ _ Hk [Hwf Hglobal].
    split; [now apply owners_extend_wf|].
    intros Hsg Hin. apply owners_extend_keys in Hin as [Hin|Hin].
    + now apply Hglobal.
    + symmetry in Hin. destruct (Hk Hin) as [Hsg' _]. congruence.
  - intros m n a owners [Hwf Hglobal].
    split; [now apply owners_extend_wf|].
    intros Hsg Hin. apply owners_extend_keys in Hin as [Hin|Hin].
    + now apply Hglobal.
    + discriminate.
  - eauto.
Qed.

(** X7: without plugins every owner the resolver records, under any key
    and any argument-pattern, is an enabled group of the database. *)
Theorem get_owners_enabled_groups (db : DB) (separate_global : bool) :
  get_owner_by_arg_by_perm db = [] ->
  exists m,
    get_owners_by_grantable_permission db separate_global = Return m
    /\ forall k a g,
         g ∈ owners_of m k a ->
         g ∈ groups db /\ group_enabled g = true.
Proof.
  intros Hplugins.
  assert (Hinv : exists m,
             for_each (add_group_owners db separate_global
                         (all_permissions_dict db)
                         (grants_by_group (all_group_permissions db)))
                      (filter (fun g => group_enabled g = true) (groups db)) []
             = Return m
             /\ forall k a g, g ∈ owners_of m k a ->
                              g ∈ groups db /\ group_enabled g = true).
  { assert (Hloop : forall gs m,
               (forall g, g ∈ gs -> g ∈ groups db /\ group_enabled g = true) ->
               (forall k a g, g ∈ owners_of m k a ->
                              g ∈ groups db /\ group_enabled g = true) ->
               exists m',
                 for_each (add_group_owners db separate_global
                             (all_permissions_dict db)
                             (grants_by_group (all_group_permissions db)))
                          gs m
                 = Return m'
                 /\ forall k a g, g ∈ owners_of m' k a ->
                                  g ∈ groups db /\ group_enabled g = true).
    { assert (Hext : forall m k a g0,
                 g0 ∈ groups db /\ group_enabled g0 = true ->
                 (forall k a g, g ∈ owners_of m k a ->
                                g ∈ groups db /\ group_enabled g = true) ->
                 forall k' a' g, g ∈ owners_of (owners_extend m k a [g0]) k' a' ->
                                 g ∈ groups db /\ group_enabled g = true).
      { intros m k a g0 Hg0 Hm k' a' g. rewrite owners_of_extend.
        destruct (decide _) as [[-> ->]|_]; [|apply Hm].
        rewrite elem_of_app, list_elem_of_singleton.
        intros [Hin| ->]; [eapply Hm, Hin|exact Hg0]. }
      induction gs as [|g gs IH]; intros m Hgs Hm; simpl; [eauto|].
      assert (Hg : g ∈ groups db /\ group_enabled g = true)
        by (apply Hgs; now left).
      assert (Hstep : exists m1,
                 add_group_owners db separate_global (all_permissions_dict db)
                   (grants_by_group (all_group_permissions db)) m g = Return m1
                 /\ forall k a g', g' ∈ owners_of m1 k a ->
                                   g' ∈ groups db /\ group_enabled g' = true).
      { unfold add_group_owners. destruct (any _).
        - eexists. split; [reflexivity|].
          assert (Hnames :
            forall k a g',
              g' ∈ owners_of
                     (foldl (fun m perm_name =>
                               owners_extend m (PermName perm_name) "*" [g])
                            m (dict_keys (all_permissions_dict db))) k a ->
              g' ∈ groups db /\ group_enabled g' = true).
          { apply (foldl_invariant
                     (fun m => forall k a g', g' ∈ owners_of m k a ->
                               g' ∈ groups db /\ group_enabled g' = true));
              [exact Hm|].
            intros m' n _ Hm'. now apply Hext. }
          destruct separate_global; [|exact Hnames]. now apply Hext.
        - rewrite filter_grantable_permissions_ok.
          2:{ apply Forall_forall. intros x Hx.
              apply list_elem_of_fmap in Hx as (gp & -> & Hgp).
              now apply list_elem_of_filter in Hgp as [Hname _]. }
          eexists. split; [reflexivity|].
          apply (foldl_invariant
                   (fun m => forall k a g', g' ∈ owners_of m k a ->
                             g' ∈ groups db /\ group_enabled g' = true));
            [exact Hm|].
          intros m' [perm arg] _ Hm'. now apply Hext. }
      destruct Hstep as (m1 & -> & Hm1). simpl.
      apply IH; [|exact Hm1]. intros g' Hg'. apply Hgs. now right. }
    apply Hloop.
    - intros g Hg. apply list_elem_of_filter in Hg. tauto.
    - intros k a g Hin. inversion Hin. }
  destruct Hinv as (m & Hm & Hown).
  unfold get_owners_by_grantable_permission. rewrite Hm, Hplugins.
  exists m. split; [reflexivity|exact Hown].
Qed.
End OwnerMapInvariants.

Lemma get_owners_enabled_groups_witness :
  exists m,
    get_owners_by_grantable_permission (H := sample_env) sample_db true
    = Return m
    /\ forall k a g,
         g ∈ owners_of m k a ->
         g ∈ groups sample_db /\ group_enabled g = true.
Proof.
  apply (get_owners_enabled_groups (H := sample_env) sample_db true).
  reflexivity.
Defined.

(** ** Who may approve a request *)

Section OwnerLookup.
Context `{Collaborators}.

Lemma get_owner_arg_list_some (db : DB) (permission : Permission)
    (argument : string) (m : OwnerMap) :
  get_owner_arg_list db permission argument (Some m)
  = Return
      (flat_map
         (fun '(arg, owners) =>
            if matches_glob arg argument
            then map (fun owner : Group => (owner, arg)) owners
            else [])
         (default [] (dict_get m (PermName (permission_name permission))))).
Proof. reflexivity. Qed.

(** X8: the owner lookup lists a group with a pattern exactly when the
    owner map records the group under the permission's name and that
    pattern and the pattern matches the argument, provided the patterns of
    the permission are listed once each; for a permission the map does not
    know the list is empty. *)
Theorem get_owner_arg_list_member (db : DB) (permission : Permission)
    (argument : string) (m : OwnerMap) :
  NoDup (dict_keys
           (default [] (dict_get m (PermName (permission_name permission))))) ->
  exists owner_arg_list,
    get_owner_arg_list db permission argument (Some m) = Return owner_arg_list
    /\ (forall g a,
           (g, a) ∈ owner_arg_list
           <-> g ∈ owners_of m (PermName (permission_name permission)) a
               /\ matches_glob a argument = true)
    /\ (dict_get m (PermName (permission_name permission)) = None ->
        owner_arg_list = []).
Proof.
  intros Hnd. rewrite get_owner_arg_list_some. eexists.
  split; [reflexivity|]. split.
  - intros g a. unfold owners_of.
    set (by_arg := default [] (dict_get m _)) in *.
    rewrite list_elem_of_In, in_flat_map. split.
    + intros ([arg owners] & Hin & Hga).
      destruct (matches_glob arg argument) eqn:Hm; [|inversion Hga].
      apply in_map_iff in Hga as (o & [= -> ->] & Ho).
      apply list_elem_of_In in Hin.
      rewrite (dict_get_elem_NoDup _ _ _ Hnd Hin). simpl.
      split; [now apply list_elem_of_In|exact Hm].
    + intros [Hg Hm].
      destruct (dict_get by_arg a) as [owners|] eqn:Hget; simpl in Hg;
        [|inversion Hg].
      exists (a, owners). split.
      * apply list_elem_of_In. eapply dict_get_Some_elem, Hget.
      * rewrite Hm. apply in_map_iff. exists g.
        split; [reflexivity|now apply list_elem_of_In].
  - intros ->. reflexivity.
Qed.

(** What the resolver records for a permission admin, as the owner lookup
    needs it. *)
Lemma get_owners_admin (db : DB) (separate_global : bool) (group : Group)
    (p : Permission) :
  get_owner_by_arg_by_perm db = [] ->
  group ∈ groups db -> group_enabled group = true ->
  holds db group PERMISSION_ADMIN ->
  p ∈ permissions db -> permission_enabled p = true ->
  exists m,
    get_owners_by_grantable_permission db separate_global = Return m
    /\ group ∈ owners_of m (PermName (permission_name p)) "*".
Proof.
  intros Hplugins Hgroup Henabled Hholds Hp Hpe.
  unfold get_owners_by_grantable_permission.
  destruct (for_each_group_spec db separate_global (all_permissions_dict db)
              (grants_by_group (all_group_permissions db))
              (all_permissions_dict_by_name db)
              (filter (fun g => group_enabled g = true) (groups db)) [])
    as (m & -> & _ & _ & Hadmin).
  rewrite Hplugins. simpl. exists m. split; [reflexivity|].
  apply Hadmin.
  - apply list_elem_of_filter. auto.
  - destruct (all_group_permissions_holds db group PERMISSION_ADMIN
                Hgroup Hholds) as (r & Hr & Hrg & Hrn).
    rewrite grants_by_group_lookup. unfold any.
    apply existsb_exists. exists true. split; [|reflexivity].
    apply in_map_iff. exists r. split.
    + now apply bool_decide_eq_true.
    + apply list_elem_of_In, list_elem_of_filter. split; [|exact Hr].
      now rewrite Hrg.
  - apply all_permissions_dict_keys. eauto.
Qed.

(** X9: without plugins, a user who belongs to an enabled group that holds
    the permission admin marker can approve every request for an enabled
    permission whose argument the pattern "*" matches: the set
    [can_approve_request] returns holds that group.  Whatever the owners,
    the set only holds groups of the user. *)
Theorem can_approve_request_admin (db : DB) (request : PermissionRequest)
    (user : User) :
  (forall group p,
      get_owner_by_arg_by_perm db = [] ->
      group ∈ get_groups_by_user db user ->
      group ∈ groups db -> group_enabled group = true ->
      holds db group PERMISSION_ADMIN ->
      request_permission db request = Return p ->
      p ∈ permissions db -> permission_enabled p = true ->
      matches_glob "*" (request_argument request) = true ->
      exists ids,
        can_approve_request db request user None None = Return ids
        /\ group_id group ∈ ids)
  /\ (forall owners ids,
         can_approve_request db request user None owners = Return ids ->
         forall id, id ∈ ids ->
                    exists group, group ∈ get_groups_by_user db user
                                  /\ group_id group = id).
Proof.
  split.
  - intros group p Hplugins Hmember Hgroup Henabled Hholds Hperm Hp Hpe Hglob.
    unfold can_approve_request. rewrite Hperm. simpl.
    unfold get_owner_arg_list.
    destruct (get_owners_admin db false group p Hplugins Hgroup Henabled
                Hholds Hp Hpe) as (m & -> & Howner).
    simpl. eexists. split; [reflexivity|].
    apply elem_of_intersection. split.
    + apply elem_of_list_to_set, list_elem_of_fmap. eauto.
    + apply elem_of_list_to_set, list_elem_of_fmap.
      exists (group, "*"). split; [reflexivity|].
      unfold owners_of in Howner.
      destruct (dict_get (default [] (dict_get m _)) "*") as [owners|] eqn:Hget;
        simpl in Howner; [|inversion Howner].
      apply list_elem_of_In, in_flat_map. exists ("*", owners). split.
      * eapply list_elem_of_In, dict_get_Some_elem, Hget.
      * rewrite Hglob. apply in_map_iff. exists group.
        split; [reflexivity|now apply list_elem_of_In].
  - intros owners ids Hrun id Hid. unfold can_approve_request in Hrun.
    destruct (request_permission db request) as [p|]; [|discriminate].
    simpl in Hrun.
    destruct (get_owner_arg_list db p (request_argument request) owners)
      as [l|]; [|discriminate].
    simpl in Hrun. injection Hrun as <-.
    apply elem_of_intersection in Hid as [Hid _].
    apply elem_of_list_to_set, list_elem_of_fmap in Hid as (g & -> & Hg).
    eauto.
Qed.
End OwnerLookup.

Lemma get_owner_arg_list_member_witness :
  exists owner_arg_list,
    get_owner_arg_list (H := sample_env) sample_db perm_ssh "prod"
      (Some [(PermName "ssh", [("pro*", [group_team]); ("*", [group_admins])])])
    = Return owner_arg_list
    /\ (forall g a,
           (g, a) ∈ owner_arg_list
           <-> g ∈ owners_of
                     [(PermName "ssh",
                       [("pro*", [group_team]); ("*", [group_admins])])]
                     (PermName (permission_name perm_ssh)) a
               /\ matches_glob (Collaborators := sample_env) a "prod" = true)
    /\ (dict_get
          [(PermName "ssh", [("pro*", [group_team]); ("*", [group_admins])])]
          (PermName (permission_name perm_ssh)) = None ->
        owner_arg_list = []).
Proof.
  apply (get_owner_arg_list_member (H := sample_env) sample_db perm_ssh "prod").
  simpl. repeat constructor;
    rewrite ?elem_of_cons, ?elem_of_nil; intuition discriminate.
Defined.

Lemma can_approve_request_admin_witness :
  exists ids,
    can_approve_request (H := admin_member_env) sample_db request_sshd
                        user_gary None None
    = Return ids
    /\ group_id group_admins ∈ ids.
Proof.
  apply (proj1 (can_approve_request_admin (H := admin_member_env) sample_db
                  request_sshd user_gary)
           group_admins perm_sshd).
  - reflexivity.
  - now left.
  - right. right. now left.
  - reflexivity.
  - exists (mkPermissionMap 4 3 ""), perm_admin.
    repeat split; try reflexivity.
    + now left.
    + right. right. right. now left.
  - reflexivity.
  - right. now left.
  - reflexivity.
  - reflexivity.
Defined.

(** ** Listing requests: what is returned *)

Lemma StronglySorted_sublist {A : Type} (R : A -> A -> Prop) (l1 l2 : list A) :
  l1 `sublist_of` l2 -> StronglySorted R l2 -> StronglySorted R l1.
Proof.
  intros Hsub. induction Hsub as [|x l1 l2 Hsub IH|x l1 l2 Hsub IH];
    intros Hs.
  - constructor.
  - apply StronglySorted_inv in Hs as [Hs Hx]. constructor; [now apply IH|].
    rewrite Forall_forall in *. intros y Hy. apply Hx.
    eapply elem_of_sublist; eassumption.
  - apply StronglySorted_inv in Hs as [Hs _]. now apply IH.
Qed.

Lemma StronglySorted_mono {A : Type} (R R' : A -> A -> Prop) (l : list A) :
  (forall x y, R x y -> R' x y) -> StronglySorted R l -> StronglySorted R' l.
Proof.
  intros Himpl Hs. induction Hs as [|x l Hs IH Hx]; constructor;
    [exact IH|].
  eapply Forall_impl; [exact Hx|]. intros y. apply Himpl.
Qed.

Lemma py_slice_sublist {A : Type} (l : list A) (start stop : Z) :
  py_slice l start stop `sublist_of` l.
Proof.
  unfold py_slice. etransitivity; [apply sublist_take|apply sublist_drop].
Qed.

Lemma filter_result_filter {A : Type} (f : A -> Result bool) (l l' : list A) :
  filter_result f l = Return l' ->
  l' = filter (fun x => f x = Return true) l
  /\ forall x, x ∈ l -> exists b, f x = Return b.
Proof.
  revert l'. induction l as [|x l IH]; intros l'; simpl.
  - intros [= <-]. split; [reflexivity|]. intros x Hx. inversion Hx.
  - destruct (f x) as [b|e] eqn:Hfx; simpl; [|discriminate].
    destruct (filter_result f l) as [rest|e]; simpl; [|discriminate].
    intros [= <-]. destruct (IH rest eq_refl) as [-> Hall].
    split.
    + rewrite filter_cons. destruct b.
      * now rewrite decide_True by (now rewrite Hfx).
      * rewrite decide_False; [reflexivity|]. rewrite Hfx. discriminate.
    + intros y Hy. apply elem_of_cons in Hy as [->|Hy]; eauto.
Qed.

Section ListingFacts.
Context `{Collaborators}.

Lemma all_requests_spec (db : DB) (status : option Status)
    (requester : option User) :
  StronglySorted newer_first (all_requests db status requester)
  /\ (forall r,
         r ∈ all_requests db status requester
         <-> r ∈ requests db
             /\ (forall st, status = Some st -> request_status r = st)
             /\ (forall u, requester = Some u ->
                           request_requester_id r = user_id u))
  /\ (length (all_requests db status requester) <= length (requests db))%nat.
Proof.
  unfold all_requests. split; [|split].
  - eapply StronglySorted_mono; [|apply sorted_by_sorted].
    + intros r1 r2 Hle. apply Z.leb_le in Hle. exact Hle.
    + intros r1 r2. rewrite !Z.leb_le. lia.
    + intros r1 r2 r3. rewrite !Z.leb_le. lia.
  - intros r. rewrite sorted_by_elem_of.
    destruct status as [st|], requester as [u|];
      rewrite ?list_elem_of_filter.
    + split.
      * intros (Hu & Hst & Hin).
        split; [exact Hin|]. split; intros ? [= <-]; assumption.
      * intros (Hin & Hst & Hu). auto.
    + split.
      * intros (Hst & Hin).
        split; [exact Hin|]. split; [intros ? [= <-]; assumption|discriminate].
      * intros (Hin & Hst & _). auto.
    + split.
      * intros (Hu & Hin).
        split; [exact Hin|]. split; [discriminate|intros ? [= <-]; assumption].
      * intros (Hin & _ & Hu). auto.
    + split; [intros Hin; repeat split; [exact Hin|discriminate..]|tauto].
  - rewrite sorted_by_length.
    destruct status as [st|], requester as [u|];
      repeat (etransitivity; [apply length_filter|]); reflexivity.
Qed.
End ListingFacts.

Lemma foldl_append_lookup (l : list PermissionRequestStatusChange) (id : Z) :
  foldl (fun (m : gmap Z (list PermissionRequestStatusChange)) sc =>
           <[sc_request_id sc := (m !!! sc_request_id sc) ++ [sc]]> m)
        ∅ l !!! id
  = filter (fun sc => sc_request_id sc = id) l.
Proof.
  induction l as [|sc l IH] using rev_ind; [reflexivity|].
  rewrite foldl_app, filter_app. simpl.
  destruct (decide (sc_request_id sc = id)) as [Hid|Hid].
  - rewrite Hid, lookup_total_insert_eq, IH.
    now rewrite filter_cons_True by exact Hid.
  - rewrite lookup_total_insert_ne by exact Hid.
    rewrite IH, filter_cons_False by exact Hid.
    now rewrite filter_nil, app_nil_r.
Qed.

Lemma foldl_insert_lookup (l : list Comment) (pk : Z) :
  foldl (fun (m : gmap Z Comment) c => <[comment_obj_pk c := c]> m) ∅ l !! pk
  = last (filter (fun c => comment_obj_pk c = pk) l).
Proof.
  induction l as [|c l IH] using rev_ind; [reflexivity|].
  rewrite foldl_app, filter_app. simpl.
  destruct (decide (comment_obj_pk c = pk)) as [Hpk|Hpk].
  - rewrite Hpk, lookup_insert_eq.
    rewrite filter_cons_True by exact Hpk. now rewrite filter_nil, last_snoc.
  - rewrite lookup_insert_ne by exact Hpk.
    rewrite IH, filter_cons_False by exact Hpk.
    now rewrite filter_nil, app_nil_r.
Qed.

Lemma filter_none {A : Type} (P : A -> Prop) `{forall x, Decision (P x)}
    (l : list A) :
  (forall x, x ∈ l -> ~ P x) -> filter P l = [].
Proof.
  induction l as [|x l IH]; intros Hnone; [reflexivity|].
  rewrite filter_cons_False by (apply Hnone; now left).
  apply IH. intros y Hy. apply Hnone. now right.
Qed.

Section ListingResults.
Context `{Collaborators}.

Lemma can_approve_request_group_ids (db : DB) (request : PermissionRequest)
    (owner : User) (m : OwnerMap) :
  can_approve_request db request owner
    (Some (list_to_set (group_id <$> get_groups_by_user db owner))) (Some m)
  = can_approve_request db request owner None (Some m).
Proof. reflexivity. Qed.

Lemma matching_requests_spec (db : DB) (status : option Status)
    (owner requester : option User) (owners : option OwnerMap)
    (matching : list PermissionRequest) :
  matching_requests db status owner requester owners = Return matching ->
  matching `sublist_of` all_requests db status requester
  /\ (owner = None -> matching = all_requests db status requester)
  /\ (forall o m,
         owner = Some o ->
         match owners with
         | Some m => Return m
         | None => get_owners_by_grantable_permission db false
         end = Return m ->
         matching = filter (fun r => approves db o m r = true)
                           (all_requests db status requester)).
Proof.
  unfold matching_requests.
  destruct (match owners with
            | Some m => Return m
            | None => get_owners_by_grantable_permission db false
            end) as [m|e] eqn:Hm; simpl; [|discriminate].
  destruct owner as [o|].
  - intros Hfilter. apply filter_result_filter in Hfilter as [-> _].
    assert (Heq : filter
                    (fun request =>
                       (can_approve_request db request o
                          (Some (list_to_set
                                   (group_id <$> get_groups_by_user db o)))
                          (Some m)
                        ≫= fun ids => mret (negb (bool_decide (ids = ∅))))
                       = Return true)
                    (all_requests db status requester)
                  = filter (fun r => approves db o m r = true)
                           (all_requests db status requester)).
    { apply list_filter_iff. intros r. unfold approves.
      rewrite can_approve_request_group_ids.
      destruct (can_approve_request db r o None (Some m)) as [ids|e]; simpl.
      - unfold mret, Result_ret. split; [now intros [= ->]|now intros ->].
      - split; discriminate. }
    rewrite Heq. split; [apply sublist_filter|]. split; [discriminate|].
    intros o' m' [= <-] [= <-]. reflexivity.
  - intros [= <-]. split; [reflexivity|]. split; [reflexivity|discriminate].
Qed.

Lemma get_requests_inv (db : DB) (status : option Status) (limit offset : Z)
    (owner requester : option User) (owners : option OwnerMap)
    (result : Requests) (total : Z) :
  get_requests db status limit offset owner requester owners
  = Return (result, total) ->
  exists matching,
    matching_requests db status owner requester owners = Return matching
    /\ requests_requests result = py_slice matching offset limit
    /\ total = Z.of_nat (length matching).
Proof.
  unfold get_requests.
  destruct (matching_requests db status owner requester owners)
    as [matching|e]; simpl; [|discriminate].
  case_bool_decide; intros [= <- <-]; exists matching; auto.
Qed.

(** X10: for any offset and limit, negative ones too, every request
    [get_requests] returns is a request of the database with the status and
    the requester asked for; the requests come newest first; and there are
    never more of them than the total, which is never more than the number
    of requests in the database. *)
Theorem get_requests_filtered (db : DB) (status : option Status)
    (limit offset : Z) (owner requester : option User)
    (owners : option OwnerMap) (result : Requests) (total : Z) :
  get_requests db status limit offset owner requester owners
  = Return (result, total) ->
  (forall r,
      r ∈ requests_requests result ->
      r ∈ requests db
      /\ (forall st, status = Some st -> request_status r = st)
      /\ (forall u, requester = Some u -> request_requester_id r = user_id u))
  /\ StronglySorted newer_first (requests_requests result)
  /\ Z.of_nat (length (requests_requests result)) <= total
  /\ total <= Z.of_nat (length (requests db)).
Proof.
  intros Hrun.
  apply get_requests_inv in Hrun as (matching & Hmatching & Hresult & ->).
  apply matching_requests_spec in Hmatching as [Hsub _].
  destruct (all_requests_spec db status requester) as (Hsorted & Hmem & Hlen).
  assert (Hsub' : requests_requests result
                    `sublist_of` all_requests db status requester).
  { rewrite Hresult. etransitivity; [apply py_slice_sublist|exact Hsub]. }
  split; [|split; [|split]].
  - intros r Hr. apply Hmem. eapply elem_of_sublist; eassumption.
  - eapply StronglySorted_sublist; eassumption.
  - rewrite Hresult. apply inj_le, sublist_length, py_slice_sublist.
  - apply inj_le. etransitivity; [apply sublist_length, Hsub|exact Hlen].
Qed.

(** X11: when [get_requests] is given an owner, every request it returns is
    one the owner can approve, and the total is the number of requests of
    the query that the owner can approve. *)
Theorem get_requests_owner (db : DB) (status : option Status)
    (limit offset : Z) (owner : User) (requester : option User)
    (owners : option OwnerMap) (m : OwnerMap) (result : Requests) (total : Z) :
  match owners with
  | Some m => Return m
  | None => get_owners_by_grantable_permission db false
  end = Return m ->
  get_requests db status limit offset (Some owner) requester owners
  = Return (result, total) ->
  (forall r, r ∈ requests_requests result -> approves db owner m r = true)
  /\ total
     = Z.of_nat (length (filter (fun r => approves db owner m r = true)
                                (all_requests db status requester))).
Proof.
  intros Hm Hrun.
  apply get_requests_inv in Hrun as (matching & Hmatching & Hresult & ->).
  apply matching_requests_spec in Hmatching as (_ & _ & Hfilter).
  rewrite (Hfilter owner m eq_refl Hm) in *. split; [|reflexivity].
  intros r Hr. rewrite Hresult in Hr.
  pose proof (elem_of_sublist _ _ _ Hr (py_slice_sublist _ offset limit))
    as Hr'.
  now apply list_elem_of_filter in Hr' as [Hr' _].
Qed.

(** X12: with the requests, [get_requests] returns for each of them exactly
    its status changes, in the order of the table, and nothing for any other
    request; and for each of these status changes the last comment on it,
    and no comment for anything else. *)
Theorem get_requests_changes (db : DB) (status : option Status)
    (limit offset : Z) (owner requester : option User)
    (owners : option OwnerMap) (result : Requests) (total : Z) :
  get_requests db status limit offset owner requester owners
  = Return (result, total) ->
  (forall id,
      status_change_by_request_id result !!! id
      = if decide (id ∈ request_id <$> requests_requests result)
        then filter (fun sc => sc_request_id sc = id) (status_changes db)
        else [])
  /\ (forall pk,
         comment_by_status_change_id result !! pk
         = if decide
                (pk ∈ sc_id
                        <$> filter (fun sc =>
                                      sc_request_id sc
                                        ∈ request_id <$> requests_requests result)
                                   (status_changes db))
           then last (filter (fun c => comment_obj_type c = OBJ_TYPE_STATUS_CHANGE
                                       /\ comment_obj_pk c = pk)
                             (comments db))
           else None).
Proof.
  unfold get_requests.
  destruct (matching_requests db status owner requester owners)
    as [matching|e]; simpl; [|discriminate].
  case_bool_decide as Hempty; intros [= <- <-]; cbn [requests_requests
    status_change_by_request_id comment_by_status_change_id].
  - rewrite Hempty. split.
    + intros id. rewrite lookup_total_empty.
      rewrite decide_False; [reflexivity|]. rewrite fmap_nil. inversion 1.
    + intros pk. rewrite lookup_empty.
      rewrite decide_False; [reflexivity|].
      intros Hin. apply list_elem_of_fmap in Hin as (sc & _ & Hsc).
      apply list_elem_of_filter in Hsc as [Hsc _].
      rewrite fmap_nil in Hsc. inversion Hsc.
  - set (ids := request_id <$> py_slice matching offset limit). split.
    + intros id. rewrite foldl_append_lookup, list_filter_filter.
      destruct (decide (id ∈ ids)) as [Hid|Hid].
      * apply list_filter_iff. intros sc. split; [tauto|].
        intros Hsc. split; [exact Hsc|]. now rewrite Hsc.
      * apply filter_none.
        intros sc _ [Hsc Hin]. rewrite Hsc in Hin. contradiction.
    + intros pk. rewrite foldl_insert_lookup, list_filter_filter.
      destruct (decide (pk ∈ _)) as [Hpk|Hpk].
      * f_equal. apply list_filter_iff. intros c. split; [tauto|].
        intros (Htype & Hc). repeat split; try assumption.
        now rewrite Hc.
      * replace (filter _ (comments db)) with (@nil Comment); [reflexivity|].
        symmetry. apply filter_none.
        intros c _ (Hc & _ & Hin). rewrite Hc in Hin. contradiction.
Qed.
End ListingResults.

Lemma get_requests_filtered_witness :
  exists result total,
    get_requests (H := sample_env) sample_db (Some pending) 10 (-2) None
                 (Some user_gary) None
    = Return (result, total)
    /\ (forall r,
           r ∈ requests_requests result ->
           r ∈ requests sample_db
           /\ (forall st, Some pending = Some st -> request_status r = st)
           /\ (forall u, Some user_gary = Some u ->
                         request_requester_id r = user_id u))
    /\ StronglySorted newer_first (requests_requests result)
    /\ Z.of_nat (length (requests_requests result)) <= total
    /\ total <= Z.of_nat (length (requests sample_db)).
Proof.
  destruct (get_requests (H := sample_env) sample_db (Some pending) 10 (-2)
              None (Some user_gary) None)
    as [[result total]|e] eqn:Hrun; [|vm_compute in Hrun; discriminate].
  exists result, total. split; [reflexivity|].
  apply (get_requests_filtered (H := sample_env) _ _ _ _ _ _ _ _ _ Hrun).
Defined.

Lemma get_requests_owner_witness :
  exists m result total,
    get_owners_by_grantable_permission (H := admin_member_env) sample_db false
    = Return m
    /\ get_requests (H := admin_member_env) sample_db (Some pending) 10 0
                    (Some user_gary) None None
       = Return (result, total)
    /\ (forall r, r ∈ requests_requests result ->
                  approves (H := admin_member_env) sample_db user_gary m r
                  = true)
    /\ total = 3.
Proof.
  destruct (get_owners_by_grantable_permission (H := admin_member_env)
              sample_db false) as [m|e] eqn:Hm;
    [|vm_compute in Hm; discriminate].
  destruct (get_requests (H := admin_member_env) sample_db (Some pending) 10 0
              (Some user_gary) None None)
    as [[result total]|e] eqn:Hrun; [|vm_compute in Hrun; discriminate].
  exists m, result, total. split; [reflexivity|]. split; [reflexivity|].
  destruct (get_requests_owner (H := admin_member_env) sample_db (Some pending)
              10 0 user_gary None None m result total Hm Hrun)
    as [Hall _].
  split; [exact Hall|].
  vm_compute in Hrun. now injection Hrun as _ <-.
Defined.

Lemma get_requests_changes_witness :
  exists result total,
    get_requests (H := sample_env) sample_db (Some actioned) 10 0 None None
                 None
    = Return (result, total)
    /\ status_change_by_request_id result !!! 3
       = [mkStatusChange 3 3 2 None pending 300;
          mkStatusChange 4 3 1 (Some pending) actioned 310]
    /\ status_change_by_request_id result !!! 1 = [].
Proof.
  destruct (get_requests (H := sample_env) sample_db (Some actioned) 10 0
              None None None)
    as [[result total]|e] eqn:Hrun; [|vm_compute in Hrun; discriminate].
  exists result, total. split; [reflexivity|].
  destruct (get_requests_changes (H := sample_env) _ _ _ _ _ _ _ _ _ Hrun)
    as [Hchanges _].
  rewrite !Hchanges.
  vm_compute in Hrun. injection Hrun as <- _. split; reflexivity.
Defined.

(** ** Listing requests: the slice *)

(** Python's [l[start:stop]]: a negative bound counts from the end. *)
Lemma py_slice_explicit {A : Type} (l : list A) (start stop : Z) :
  let len := Z.of_nat (length l) in
  let lo := if start <? 0 then Z.max 0 (len + start) else start in
  let hi := if stop <? 0 then Z.max 0 (len + stop) else stop in
  py_slice l start stop = take (Z.to_nat (hi - lo)) (drop (Z.to_nat lo) l).
Proof.
  cbv zeta. unfold py_slice, slice_index.
  set (len := Z.of_nat (length l)).
  set (lo := if start <? 0 then Z.max 0 (len + start) else start).
  set (hi := if stop <? 0 then Z.max 0 (len + stop) else stop).
  assert (Hlo : (if start <? 0 then Z.max 0 (len + start)
                 else Z.min len start) = Z.min len lo).
  { subst lo. destruct (Z.ltb_spec start 0); lia. }
  assert (Hhi : (if stop <? 0 then Z.max 0 (len + stop)
                 else Z.min len stop) = Z.min len hi).
  { subst hi. destruct (Z.ltb_spec stop 0); lia. }
  assert (Hlo0 : 0 <= lo) by (subst lo; destruct (Z.ltb_spec start 0); lia).
  rewrite Hlo, Hhi.
  destruct (Z.le_gt_cases len lo) as [Hge|Hlt].
  - rewrite !drop_ge by (subst len; lia). now rewrite !take_nil.
  - replace (Z.to_nat (Z.min len lo)) with (Z.to_nat lo) by lia.
    destruct (Z.le_gt_cases len hi) as [Hge'|Hlt'].
    + rewrite !take_ge; [reflexivity|rewrite length_drop; subst len; lia..].
    + f_equal. lia.
Qed.

Lemma py_slice_bound {A : Type} (l : list A) (start stop : Z) :
  0 <= stop \/ start < 0 ->
  Z.of_nat (length (py_slice l start stop)) <= Z.max 0 (stop - start).
Proof.
  intros Hbounds. unfold py_slice, slice_index.
  rewrite length_take, length_drop.
  destruct (Z.ltb_spec start 0), (Z.ltb_spec stop 0); lia.
Qed.

Lemma py_slice_none {A : Type} (l : list A) (start stop : Z) :
  0 <= stop \/ start < 0 -> stop <= start -> py_slice l start stop = [].
Proof.
  intros Hbounds Hle.
  pose proof (py_slice_bound l start stop Hbounds) as Hlen.
  destruct (py_slice l start stop); [reflexivity|]. simpl in Hlen. lia.
Qed.

Section Listing.
Context `{Collaborators}.

Lemma all_requests_perm (db : DB) (status : option Status)
    (requester : option User) (owners : OwnerMap) :
  all_requests db status requester
  ≡ₚ filter (request_matches db status None requester owners) (requests db).
Proof.
  unfold all_requests. rewrite sorted_by_perm.
  assert (Heq : forall (P Q : PermissionRequest -> Prop)
                       `{forall r, Decision (P r)} `{forall r, Decision (Q r)}
                       (l : list PermissionRequest),
             (forall r, P r <-> Q r) -> filter P l ≡ₚ filter Q l).
  { intros P Q ? ? l HPQ. now rewrite (list_filter_iff P Q l HPQ). }
  destruct status as [st|], requester as [u|].
  - rewrite list_filter_filter. apply Heq. intros r.
    unfold request_matches. tauto.
  - apply Heq. intros r. unfold request_matches. tauto.
  - apply Heq. intros r. unfold request_matches. tauto.
  - rewrite <- (list_filter_iff (fun _ => True)
                  (request_matches db None None None owners) (requests db));
      [|intros r; unfold request_matches; tauto].
    induction (requests db) as [|r l IH]; [reflexivity|].
    rewrite filter_cons_True by exact I. now constructor.
Qed.

Lemma get_owners_returns (db : DB) (owners_by_arg_by_perm : option OwnerMap) :
  exists owners,
    match owners_by_arg_by_perm with
    | Some m => Return m
    | None => get_owners_by_grantable_permission db false
    end = Return owners.
Proof.
  destruct owners_by_arg_by_perm as [m|]; [now exists m|].
  destruct (resolver_invariant (fun _ => True) db false)
    as (m & Hm & _); eauto.
Qed.

(** C10, as amended: the list [get_requests] returns is the slice
    [offset:limit], read as Python reads it (a negative bound counts from
    the end), of the matching requests: the requests of the table with the
    status and the requester asked for, which the owner asked for can
    approve, newest first.  The total counts every matching request.  For a
    limit that is not negative, or an offset that is negative, the list has
    at most max(0, limit - offset) entries and none when offset >= limit.
    Without an owner the call always returns. *)
Theorem get_requests_slice (db : DB) (status : option Status)
    (limit offset : Z) (owner requester : option User)
    (owners_by_arg_by_perm : option OwnerMap) :
  (owner = None ->
   exists result total,
     get_requests db status limit offset owner requester owners_by_arg_by_perm
     = Return (result, total))
  /\ forall result total,
       get_requests db status limit offset owner requester
                    owners_by_arg_by_perm
       = Return (result, total) ->
       exists owners matching,
         match owners_by_arg_by_perm with
         | Some m => Return m
         | None => get_owners_by_grantable_permission db false
         end = Return owners
         /\ matching
            ≡ₚ filter (request_matches db status owner requester owners)
                      (requests db)
         /\ StronglySorted newer_first matching
         /\ (let len := Z.of_nat (length matching) in
             let start :=
               if offset <? 0 then Z.max 0 (len + offset) else offset in
             let stop :=
               if limit <? 0 then Z.max 0 (len + limit) else limit in
             requests_requests result
             = take (Z.to_nat (stop - start)) (drop (Z.to_nat start) matching))
         /\ total = Z.of_nat (length matching)
         /\ total
            = Z.of_nat
                (length (filter
                           (request_matches db status owner requester owners)
                           (requests db)))
         /\ (0 <= limit \/ offset < 0 ->
             Z.of_nat (length (requests_requests result))
             <= Z.max 0 (limit - offset)
             /\ (limit <= offset -> requests_requests result = [])).
Proof.
  split.
  - intros ->. unfold get_requests, matching_requests.
    destruct (get_owners_returns db owners_by_arg_by_perm) as (m & Hm).
    rewrite Hm. simpl. case_bool_decide; eauto.
  - intros result total Hrun.
    apply get_requests_inv in Hrun as (matching & Hmatching & Hresult & ->).
    destruct (get_owners_returns db owners_by_arg_by_perm) as (m & Hm).
    destruct (matching_requests_spec _ _ _ _ _ _ Hmatching)
      as (Hsub & Hnone & Hsome).
    destruct (all_requests_spec db status requester) as (Hsorted & _ & _).
    assert (Hperm : matching
                    ≡ₚ filter (request_matches db status owner requester m)
                              (requests db)).
    { destruct owner as [o|].
      - rewrite (Hsome o m eq_refl Hm).
        rewrite (all_requests_perm db status requester m).
        rewrite list_filter_filter.
        rewrite (list_filter_iff _
                   (request_matches db status (Some o) requester m));
          [reflexivity|].
        intros r. unfold request_matches. tauto.
      - rewrite (Hnone eq_refl). apply all_requests_perm. }
    exists m, matching. split; [exact Hm|]. split; [exact Hperm|].
    split; [eapply StronglySorted_sublist; eassumption|].
    split; [rewrite Hresult; apply py_slice_explicit|].
    split; [reflexivity|]. split; [now rewrite Hperm|].
    intros Hbounds. rewrite Hresult.
    split; [now apply py_slice_bound|].
    intros Hle. now apply py_slice_none.
Qed.
End Listing.

Lemma get_requests_slice_witness :
  exists result total,
    get_requests (H := sample_env) sample_db (Some pending) 3 (-2)
                 None None None
    = Return (result, total)
    /\ requests_requests result = [request_sudo; request_ssh]
    /\ total = 3
    /\ Z.of_nat (length (requests_requests result)) <= Z.max 0 (3 - -2).
Proof.
  destruct (get_requests (H := sample_env) sample_db (Some pending) 3 (-2)
                         None None None)
    as [[result total]|e] eqn:Hrun; [|vm_compute in Hrun; discriminate].
  exists result, total. split; [reflexivity|].
  destruct (proj2 (get_requests_slice (H := sample_env) sample_db
                     (Some pending) 3 (-2) None None None)
              result total Hrun)
    as (owners & matching & _ & _ & _ & _ & _ & _ & Hbound).
  destruct (Hbound (or_intror eq_refl)) as [Hlength _].
  vm_compute in Hrun. injection Hrun as <- <-.
  split; [reflexivity|]. split; [reflexivity|]. exact Hlength.
Defined.

(** The call of the witness: the three pending requests match, newest
    first, and the slice [-2:3] keeps the last two of them. *)
Example get_requests_pending :
  fmap (fun r : Requests * Z => (requests_requests r.1, r.2))
       (match get_requests (H := sample_env) sample_db (Some pending) 3 (-2)
                           None None None with
        | Return r => Some r
        | Raise _ => None
        end)
  = Some ([request_sudo; request_ssh], 3).
Proof. reflexivity. Qed.

(** C10 as stated fails for a negative limit with an offset that is not
    negative: with limit -1 and offset 0 Python's slice leaves out the last
    request only, so three of the four requests are returned, although
    max(0, limit - offset) is 0 and offset >= limit. *)
Lemma get_requests_negative_limit :
  fmap (fun r : Requests * Z => (requests_requests r.1, r.2))
       (match get_requests (H := sample_env) sample_db None (-1) 0
                           None None None with
        | Return r => Some r
        | Raise _ => None
        end)
  = Some ([request_sshd; request_shell; request_sudo], 4)
  /\ ~ (Z.of_nat (length [request_sshd; request_shell; request_sudo])
        <= Z.max 0 (-1 - 0)).
Proof. split; [reflexivity|simpl; lia]. Qed.

(** ** Creating a request: what is written, and in which order it is
    refused *)

Lemma next_id_fresh (ids : list Z) : next_id ids ∉ ids.
Proof.
  assert (Hmax : forall x, x ∈ ids -> x <= foldr Z.max 0 ids).
  { induction ids as [|y ids IH]; intros x Hx; [inversion Hx|].
    simpl. apply elem_of_cons in Hx as [->|Hx]; [lia|].
    specialize (IH x Hx). lia. }
  intros Hin. apply Hmax in Hin. unfold next_id in Hin. lia.
Qed.

Section CreateRequestRun.
Context `{Collaborators}.

(** What [create_request] does once no check refuses the request. *)
Lemma create_request_run (now : Z) (user : User) (group : Group)
    (permission : Permission) (argument reason : string) (s : Session)
    (m : OwnerMap) (l : list (Group * string)) :
  ~ already_granted (current s) group permission argument ->
  ~ pending_exists (current s) group permission argument ->
  request_owners (current s) permission argument = Return (m, l) ->
  l <> [] ->
  (permission_audited permission = true ->
   assert_controllers_are_auditors (current s) group = true) ->
  create_request now user group permission argument reason s
  = (Return (created_request (current s) now user group permission argument),
     mkSession (committed s)
       (created_rows (current s) now user group permission argument reason)
       (outbox s
        ++ [mkEmail
              (list_to_set
                 (flat_map
                    (fun '(owner, arg) =>
                       owner_addresses
                         (created_rows (current s) now user group permission
                                       argument reason) owner)
                    (mailto_owners m l)))
              (mkSubject false (permission_name permission) (group_name group))
              "pending_permission_request"
              [("user_name", CtxStr (user_name user));
               ("group_name", CtxStr (group_name group));
               ("permission_name", CtxStr (permission_name permission));
               ("argument", CtxStr argument);
               ("reason", CtxStr reason);
               ("request_id",
                CtxInt (request_id
                          (created_request (current s) now user group
                                           permission argument)));
               ("references_header",
                CtxStr (reference_id
                          (created_request (current s) now user group
                                           permission argument)))]])).
Proof.
  intros Hgranted Hpending Howners Hl Haudit.
  rewrite <- already_granted_check in Hgranted.
  apply not_true_is_false in Hgranted.
  rewrite <- pending_exists_check in Hpending.
  apply not_true_is_false in Hpending.
  unfold request_owners in Howners.
  destruct (get_owners_by_grantable_permission (current s) true)
    as [m'|] eqn:Hm; simpl in Howners; [|discriminate].
  injection Howners as -> <-.
  unfold create_request. run_workflow.
  rewrite Hgranted, Hpending, Hm, get_owner_arg_list_some.
  rewrite bool_decide_eq_false_2 by exact Hl.
  destruct (permission_audited permission);
    [rewrite Haudit by reflexivity|]; reflexivity.
Qed.

(** X13: a request that no check refuses is returned as a pending request
    with an id that no request had; the session then holds one more request
    (this one), one more status change (to "pending", from no status, by the
    user) and one more comment (the reason, on that status change), the
    request is among the pending requests of its group, one mail is handed
    over, to the addresses of the owners chosen for the notification, and no
    grant is written. *)
Theorem create_request_creates (now : Z) (user : User) (group : Group)
    (permission : Permission) (argument reason : string) (s : Session)
    (m : OwnerMap) (l : list (Group * string)) :
  ~ already_granted (current s) group permission argument ->
  ~ pending_exists (current s) group permission argument ->
  request_owners (current s) permission argument = Return (m, l) ->
  l <> [] ->
  (permission_audited permission = true ->
   assert_controllers_are_auditors (current s) group = true) ->
  exists request s',
    create_request now user group permission argument reason s
    = (Return request, s')
    /\ request
       = created_request (current s) now user group permission argument
    /\ (request_id request ∉ (request_id <$> requests (current s)))
    /\ requests (current s') = requests (current s) ++ [request]
    /\ status_changes (current s')
       = status_changes (current s)
         ++ [created_status_change (current s) now user request]
    /\ comments (current s')
       = comments (current s)
         ++ [mkComment OBJ_TYPE_STATUS_CHANGE
               (sc_id (created_status_change (current s) now user request))
               (user_id user) reason now]
    /\ get_pending_request_by_group (current s') group
       = get_pending_request_by_group (current s) group ++ [request]
    /\ permission_maps (current s') = permission_maps (current s)
    /\ (exists mail,
           outbox s' = outbox s ++ [mail]
           /\ email_template mail = "pending_permission_request"
           /\ email_recipients mail
              = list_to_set
                  (flat_map (fun '(owner, arg) =>
                               owner_addresses (current s') owner)
                            (mailto_owners m l))).
Proof.
  intros Hgranted Hpending Howners Hl Haudit.
  rewrite (create_request_run now user group permission argument reason s m l)
    by assumption.
  do 2 eexists. split; [reflexivity|]. cbn [current outbox].
  split; [reflexivity|]. split; [apply next_id_fresh|].
  split; [reflexivity|]. split; [reflexivity|]. split; [reflexivity|].
  split.
  - unfold get_pending_request_by_group, created_rows.
    cbn [requests db_add_comment db_add_status_change db_add_request].
    rewrite filter_app. f_equal.
    rewrite filter_cons_True by (split; reflexivity). reflexivity.
  - split; [reflexivity|]. eexists. split; [reflexivity|]. split; reflexivity.
Qed.

(** X14: a request that is neither granted already nor pending is refused
    with [NoOwnersAvailable] when no owner is found for the permission and
    the argument, and otherwise with [UserNotAuditor] when the permission is
    audited and the controllers of the group are not all auditors; the
    session is left as it was. *)
Theorem create_request_refused (now : Z) (user : User) (group : Group)
    (permission : Permission) (argument reason : string) (s : Session)
    (m : OwnerMap) (l : list (Group * string)) :
  ~ already_granted (current s) group permission argument ->
  ~ pending_exists (current s) group permission argument ->
  request_owners (current s) permission argument = Return (m, l) ->
  (l = [] ->
   create_request now user group permission argument reason s
   = (Raise NoOwnersAvailable, s))
  /\ (l <> [] -> permission_audited permission = true ->
      assert_controllers_are_auditors (current s) group = false ->
      create_request now user group permission argument reason s
      = (Raise UserNotAuditor, s)).
Proof.
  intros Hgranted Hpending Howners.
  rewrite <- already_granted_check in Hgranted.
  apply not_true_is_false in Hgranted.
  rewrite <- pending_exists_check in Hpending.
  apply not_true_is_false in Hpending.
  unfold request_owners in Howners.
  destruct (get_owners_by_grantable_permission (current s) true)
    as [m'|] eqn:Hm; simpl in Howners; [|discriminate].
  injection Howners as -> <-.
  unfold create_request. run_workflow.
  rewrite Hgranted, Hpending, Hm, get_owner_arg_list_some. split.
  - intros Hnil. now rewrite bool_decide_eq_true_2 by exact Hnil.
  - intros Hl Haudited Hfails.
    rewrite bool_decide_eq_false_2 by exact Hl.
    now rewrite Haudited, Hfails.
Qed.

End CreateRequestRun.

Ltac no_such_request Hr Hsame :=
  simpl in Hr;
  repeat (apply elem_of_cons in Hr as [->|Hr];
          [destruct Hsame as (? & ? & ? & ?); discriminate|]);
  inversion Hr.

Lemma create_request_creates_witness :
  exists request s',
    create_request (H := sample_env) 500 user_zay group_team perm_sshd "web"
                   "deploys" sample_session
    = (Return request, s')
    /\ request_id request = 5
    /\ requests (current s') = requests sample_db ++ [request].
Proof.
  destruct (request_owners (H := sample_env) sample_db perm_sshd "web")
    as [[m l]|e] eqn:Howners; [|vm_compute in Howners; discriminate].
  destruct (create_request_creates (H := sample_env) 500 user_zay group_team
              perm_sshd "web" "deploys" sample_session m l)
    as (request & s' & Hrun & Hreq & _ & Hrequests & _).
  - unfold already_granted. vm_compute. intros Hin.
    apply list_elem_of_singleton in Hin. discriminate.
  - intros (r & Hr & Hsame). no_such_request Hr Hsame.
  - exact Howners.
  - vm_compute in Howners. injection Howners as <- <-. discriminate.
  - discriminate.
  - exists request, s'. split; [exact Hrun|].
    split; [now rewrite Hreq|exact Hrequests].
Defined.

Lemma create_request_refused_witness :
  create_request (H := sample_env) 500 user_zay group_team perm_sshd "web"
                 "deploys" bare_session
  = (Raise NoOwnersAvailable, bare_session).
Proof.
  destruct (request_owners (H := sample_env) bare_db perm_sshd "web")
    as [[m l]|e] eqn:Howners; [|vm_compute in Howners; discriminate].
  destruct (create_request_refused (H := sample_env) 500 user_zay group_team
              perm_sshd "web" "deploys" bare_session m l) as [Hnone _].
  - unfold already_granted. vm_compute. inversion 1.
  - intros (r & Hr & _). inversion Hr.
  - exact Howners.
  - apply Hnone. vm_compute in Howners. now injection Howners as <- <-.
Defined.


(** X16: who is mailed about a new request.  The owners mailed are always
    some of the owners found, and at least one when any was found.  When
    some owner has a pattern other than "*", exactly the owners with such a
    pattern are mailed; when all have "*" and some owner is not a global
    owner, exactly the owners that are not global owners; and when all are
    global owners with "*", all of them. *)
Theorem mailto_owners_policy (m : OwnerMap) (l : list (Group * string)) :
  mailto_owners m l `sublist_of` l
  /\ (l <> [] -> mailto_owners m l <> [])
  /\ ((exists x, x ∈ l /\ x.2 <> "*") ->
      forall x, x ∈ mailto_owners m l <-> x ∈ l /\ x.2 <> "*")
  /\ ((forall x, x ∈ l -> x.2 = "*") ->
      (exists x, x ∈ l /\ x.1 ∉ owners_of m GLOBAL_OWNERS "*") ->
      forall x, x ∈ mailto_owners m l
                <-> x ∈ l /\ x.1 ∉ owners_of m GLOBAL_OWNERS "*")
  /\ ((forall x, x ∈ l -> x.2 = "*" /\ x.1 ∈ owners_of m GLOBAL_OWNERS "*") ->
      mailto_owners m l = l).
Proof.
  unfold mailto_owners, owners_of.
  set (global_owners :=
         default [] (dict_get (default [] (dict_get m GLOBAL_OWNERS)) "*")).
  set (non_wildcard :=
         filter (fun grant : Group * string => grant.2 <> "*") l).
  set (non_global :=
         filter (fun grant : Group * string => grant.1 ∉ global_owners) l).
  assert (Hnw : non_wildcard = [] <-> forall x, x ∈ l -> x.2 = "*").
  { split.
    - intros Hnil x Hx. destruct (decide (x.2 = "*")) as [|Hne]; [assumption|].
      exfalso. eapply (filter_nil_not_elem_of _ _ x Hnil); eassumption.
    - intros Hall. apply filter_none. intros x Hx Hne. now apply Hne, Hall. }
  assert (Hng : non_global = [] <-> forall x, x ∈ l -> x.1 ∈ global_owners).
  { split.
    - intros Hnil x Hx.
      destruct (decide (x.1 ∈ global_owners)) as [|Hne]; [assumption|].
      exfalso. eapply (filter_nil_not_elem_of _ _ x Hnil); eassumption.
    - intros Hall. apply filter_none. intros x Hx Hne. now apply Hne, Hall. }
  split; [|split; [|split; [|split]]].
  - repeat case_bool_decide; simpl; try apply sublist_filter; reflexivity.
  - intros Hl. repeat case_bool_decide; simpl; assumption.
  - intros (x & Hx & Hne) y.
    rewrite bool_decide_eq_false_2.
    + simpl. unfold non_wildcard. rewrite list_elem_of_filter. tauto.
    + rewrite Hnw. intros Hall. now apply Hne, Hall.
  - intros Hall (x & Hx & Hne) y.
    rewrite (bool_decide_eq_true_2 (non_wildcard = [])) by now apply Hnw.
    rewrite bool_decide_eq_false_2.
    + simpl. unfold non_global. rewrite list_elem_of_filter. tauto.
    + rewrite Hng. intros Hall'. now apply Hne, Hall'.
  - intros Hall.
    rewrite (bool_decide_eq_true_2 (non_wildcard = []))
      by (apply Hnw; intros x Hx; now apply Hall).
    rewrite (bool_decide_eq_true_2 (non_global = []))
      by (apply Hng; intros x Hx; now apply Hall).
    reflexivity.
Qed.

(** ** Updating a request: the edges *)

Section UpdateRequestEdges.
Context `{Collaborators}.

(** X17: when a request whose argument is not of the grammar is updated to
    "actioned", [update_request] raises the assertion error of the grant
    step after it has committed the status: the request is "actioned" and
    has its status-change row and comment, but there is no grant, no audit
    entry and no mail. *)
Theorem update_request_malformed_argument (now : Z)
    (request : PermissionRequest) (user : User) (comment : string)
    (s : Session) (permission : Permission) (group : Group)
    (requester : User) :
  request_status request <> actioned ->
  get_request (current s) (request_id request) = Some request ->
  checks_pass (current s) request actioned ->
  request_permission (current s) request = Return permission ->
  request_group (current s) request = Return group ->
  request_requester (current s) request = Return requester ->
  ARGUMENT_VALIDATION (request_argument request) = false ->
  exists s',
    update_request now request user actioned comment s
    = (Raise AssertionError, s')
    /\ stored_with_status (committed s') request actioned
    /\ status_changes (committed s')
       = status_changes (current s)
         ++ [new_status_change (current s) now request user actioned]
    /\ comments (committed s')
       = comments (current s) ++ [new_comment (current s) now user comment]
    /\ permission_maps (committed s') = permission_maps (current s)
    /\ audit_logs (committed s') = audit_logs (current s)
    /\ outbox s' = outbox s
    /\ current s' = committed s'.
Proof.
  intros Hstatus Hstored Hchecks Hperm Hgroup Hrequester Hinvalid.
  rewrite (update_request_run now request user actioned comment s
             permission group requester) by assumption.
  cbv zeta. rewrite decide_True by reflexivity. rewrite Hinvalid.
  eexists. split; [reflexivity|]. cbn [committed current outbox].
  split; [|repeat split].
  now apply (stored_after_transition (current s) _ now request user actioned
               comment).
Qed.

(** X18: an update to a status other than "actioned" never touches the
    grants or the counter of updates, however the call ends. *)
Theorem update_request_no_grant (now : Z) (request : PermissionRequest)
    (user : User) (new_status : Status) (comment : string) (s : Session) :
  new_status <> actioned ->
  permission_maps
    (current (update_request now request user new_status comment s).2)
  = permission_maps (current s)
  /\ counter_updates
       (current (update_request now request user new_status comment s).2)
     = counter_updates (current s).
Proof.
  intros Hnew. unfold update_request.
  destruct (decide (request_status request = new_status)); [now split|].
  run_workflow. rewrite !(decide_False (P := new_status = actioned)) by exact Hnew.
  destruct (request_permission (current s) request); [|now split].
  destruct (request_group (current s) request); [|now split].
  destruct (request_requester (current s) request); now split.
Qed.

Lemma pending_after_status (id : Z) (new_status : Status) (group : Group)
    (rs : list PermissionRequest) :
  new_status <> pending ->
  filter (fun r => request_status r = pending
                   /\ request_group_id r = group_id group)
         (map (fun r => if decide (request_id r = id)
                        then set_status new_status r else r) rs)
  = filter (fun r => request_id r <> id)
           (filter (fun r => request_status r = pending
                             /\ request_group_id r = group_id group) rs).
Proof.
  intros Hnew. induction rs as [|r rs IH]; [reflexivity|].
  simpl. rewrite !filter_cons.
  destruct (decide (request_id r = id)) as [Hid|Hid].
  - rewrite decide_False by (simpl; tauto).
    destruct (decide (request_status r = pending
                      /\ request_group_id r = group_id group)).
    + rewrite filter_cons_False by tauto. exact IH.
    + exact IH.
  - destruct (decide (request_status r = pending
                      /\ request_group_id r = group_id group)).
    + rewrite filter_cons_True by exact Hid. now f_equal.
    + exact IH.
Qed.

(** X19: once an update to "actioned" or "cancelled" has passed its checks,
    the request is no longer among the pending requests of any group, and
    the pending requests with another id are the ones there were. *)
Theorem update_request_leaves_pending (now : Z) (request : PermissionRequest)
    (user : User) (new_status : Status) (comment : string) (s : Session)
    (group : Group) :
  new_status <> pending ->
  request_status request <> new_status ->
  checks_pass (current s) request new_status ->
  get_pending_request_by_group
    (committed (update_request now request user new_status comment s).2) group
  = filter (fun r => request_id r <> request_id request)
           (get_pending_request_by_group (current s) group).
Proof.
  intros Hnew Hstatus Hchecks.
  destruct (update_request_commits now request user new_status comment s
              Hstatus Hchecks) as (result & s' & -> & Hrequests & _).
  cbn [snd]. unfold get_pending_request_by_group. rewrite Hrequests.
  unfold transition_rows.
  cbn [requests db_set_request_status db_add_comment db_add_status_change].
  now apply pending_after_status.
Qed.
End UpdateRequestEdges.

Lemma mailto_owners_policy_witness :
  (group_team, "pro*")
    ∈ mailto_owners [] [(group_team, "pro*"); (group_admins, "*")]
  /\ (group_admins, "*")
       ∉ mailto_owners [] [(group_team, "pro*"); (group_admins, "*")].
Proof.
  assert (Hpolicy :
            forall x,
              x ∈ mailto_owners [] [(group_team, "pro*"); (group_admins, "*")]
              <-> x ∈ [(group_team, "pro*"); (group_admins, "*")]
                  /\ x.2 <> "*").
  { apply (proj1 (proj2 (proj2
             (mailto_owners_policy []
                [(group_team, "pro*"); (group_admins, "*")])))).
    exists (group_team, "pro*"). split; [now left|discriminate]. }
  split.
  - apply Hpolicy. split; [now left|discriminate].
  - intros Hin. apply Hpolicy in Hin as [_ Hne]. now apply Hne.
Defined.

Lemma update_request_malformed_argument_witness :
  exists s',
    update_request (H := sample_env) 600 request_malformed user_gary actioned
                   "ok" malformed_session
    = (Raise AssertionError, s')
    /\ get_request (committed s') 5
       = Some (mkPermissionRequest 5 2 2 2 "two words" actioned 500)
    /\ audit_logs (committed s') = []
    /\ outbox s' = [].
Proof.
  destruct (update_request_malformed_argument (H := sample_env) 600
              request_malformed user_gary "ok" malformed_session perm_sshd
              group_team user_zay)
    as (s' & Hrun & Hget & _ & _ & _ & Hlogs & Hmail & _).
  - discriminate.
  - reflexivity.
  - intros _. exists perm_sshd. split; [reflexivity|discriminate].
  - reflexivity.
  - reflexivity.
  - reflexivity.
  - reflexivity.
  - exists s'. split; [exact Hrun|].
    split; [exact (stored_with_status_row _ _ _ Hget)|].
    split; assumption.
Defined.

Lemma update_request_no_grant_witness :
  permission_maps
    (current (update_request (H := sample_env) 500 request_ssh user_gary
                             cancelled "no" sample_session).2)
  = permission_maps sample_db
  /\ counter_updates
       (current (update_request (H := sample_env) 500 request_ssh user_gary
                                cancelled "no" sample_session).2)
     = counter_updates sample_db.
Proof.
  apply (update_request_no_grant (H := sample_env) 500 request_ssh user_gary
           cancelled "no" sample_session).
  discriminate.
Defined.

Lemma update_request_leaves_pending_witness :
  get_pending_request_by_group
    (committed (update_request (H := sample_env) 500 request_ssh user_gary
                               cancelled "no" sample_session).2)
    group_team
  = filter (fun r => request_id r <> request_id request_ssh)
           (get_pending_request_by_group sample_db group_team).
Proof.
  apply (update_request_leaves_pending (H := sample_env) 500 request_ssh
           user_gary cancelled "no" sample_session group_team).
  - discriminate.
  - discriminate.
  - intros Hnew. discriminate Hnew.
Defined.

(** ** Permission intersection: what it contains *)

(** X20: in the dictionary of a list of permissions, the entry under a name
    and an argument is the last object of the list with that name and
    argument, and there is no entry when the list has none. *)
Theorem permission_list_to_dict_lookup (perms : list Perm) (n k : string) :
  permission_list_to_dict perms !! n ≫= (fun args => args !! k)
  = last (filter (fun p => perm_name p = n /\ perm_argument p = k) perms).
Proof.
  induction perms as [|p perms IH] using rev_ind.
  - unfold permission_list_to_dict. simpl. now rewrite lookup_empty.
  - rewrite permission_list_to_dict_snoc, filter_app.
    destruct (decide (perm_name p = n)) as [Hn|Hn].
    + rewrite Hn, lookup_insert_eq. simpl.
      destruct (decide (perm_argument p = k)) as [Hk|Hk].
      * rewrite Hk, lookup_insert_eq.
        rewrite filter_cons_True by tauto. now rewrite filter_nil, last_snoc.
      * rewrite lookup_insert_ne by exact Hk.
        rewrite filter_cons_False by tauto. rewrite filter_nil, app_nil_r.
        rewrite <- IH. destruct (permission_list_to_dict perms !! n); simpl;
          [reflexivity|apply lookup_empty].
    + rewrite lookup_insert_ne by exact Hn.
      rewrite filter_cons_False by tauto. now rewrite filter_nil, app_nil_r.
Qed.

Lemma intersection_step_elem (pdict_b : gmap string (gmap string Perm))
    (a x : Perm) :
  x ∈ intersection_step pdict_b ∅ a ->
  exists args_b,
    pdict_b !! perm_name a = Some args_b
    /\ (x = a
        /\ (is_Some (args_b !! perm_argument a) \/ perm_argument a = ""
            \/ is_Some (args_b !! "*"))
        \/ exists k, args_b !! k = Some x).
Proof.
  unfold intersection_step.
  destruct (pdict_b !! perm_name a) as [args_b|];
    [|intros Hx; now apply elem_of_empty in Hx].
  intros Hx. exists args_b. split; [reflexivity|].
  assert (Hself : x ∈ (∅ ∪ {[a]} : gset Perm) -> x = a).
  { intros Hin. apply elem_of_union in Hin as [Hin|Hin];
      [now apply elem_of_empty in Hin|now apply elem_of_singleton in Hin]. }
  case_bool_decide as Hc1; [left; auto|].
  case_bool_decide as Hc2; [left; auto|].
  case_bool_decide as Hc3; [left; auto|].
  destruct (args_b !! "") as [u|] eqn:Hu.
  - apply elem_of_union in Hx as [Hx|Hx]; [now apply elem_of_empty in Hx|].
    apply elem_of_singleton in Hx. subst u. right. eauto.
  - case_bool_decide; [|now apply elem_of_empty in Hx].
    apply elem_of_union in Hx as [Hx|Hx]; [now apply elem_of_empty in Hx|].
    apply elem_of_map_img in Hx. right. exact Hx.
Qed.

Lemma intersection_step_self (pdict_b : gmap string (gmap string Perm))
    (a : Perm) (args_b : gmap string Perm) :
  pdict_b !! perm_name a = Some args_b ->
  is_Some (args_b !! perm_argument a) \/ perm_argument a = ""
  \/ is_Some (args_b !! "*") ->
  a ∈ intersection_step pdict_b ∅ a.
Proof.
  intros Hargs Hcase. unfold intersection_step. rewrite Hargs.
  assert (Ha : a ∈ (∅ ∪ {[a]} : gset Perm))
    by (apply elem_of_union; right; now apply elem_of_singleton).
  case_bool_decide as Hc1; [exact Ha|].
  case_bool_decide as Hc2; [exact Ha|].
  case_bool_decide as Hc3; [exact Ha|].
  tauto.
Qed.

Lemma permission_list_to_dict_nonempty (perms : list Perm) (n : string)
    (args : gmap string Perm) :
  permission_list_to_dict perms !! n = Some args ->
  exists k b, args !! k = Some b.
Proof.
  intros Hargs. apply map_choose. intros ->. revert Hargs.
  induction perms as [|p perms IH] using rev_ind.
  - unfold permission_list_to_dict. simpl. now rewrite lookup_empty.
  - rewrite permission_list_to_dict_snoc.
    destruct (decide (perm_name p = n)) as [Hn|Hn].
    + rewrite Hn, lookup_insert_eq. intros [= Hempty].
      apply (f_equal (fun m => m !! perm_argument p)) in Hempty.
      rewrite lookup_insert_eq, lookup_empty in Hempty. discriminate.
    + rewrite lookup_insert_ne by exact Hn. exact IH.
Qed.

Lemma permission_intersection_elem (perms_a perms_b : list Perm) (x : Perm) :
  x ∈ permission_intersection perms_a perms_b ->
  (x ∈ perms_a \/ x ∈ perms_b)
  /\ (exists a, a ∈ perms_a /\ perm_name a = perm_name x)
  /\ (exists b, b ∈ perms_b /\ perm_name b = perm_name x).
Proof.
  intros Hx. apply elem_of_permission_intersection in Hx as (a & Ha & Hx).
  apply intersection_step_elem in Hx as (args_b & Hargs & Hcase).
  destruct Hcase as [[-> Hrule]|[k Hk]].
  - split; [now left|]. split; [eauto|].
    destruct (permission_list_to_dict_nonempty _ _ _ Hargs) as (k & b & Hb).
    destruct (permission_list_to_dict_elem _ _ _ _ _ Hargs Hb)
      as (Hin & Hn & _).
    eauto.
  - destruct (permission_list_to_dict_elem _ _ _ _ _ Hargs Hk)
      as (Hin & Hn & _).
    split; [now right|]. split; [|eauto].
    exists a. split; [exact Ha|congruence].
Qed.

(** X21: the intersection never invents a permission: every object in it
    is an object of the first list or of the second, and its name is a name
    in both lists.  With an empty list on either side it is empty. *)
Theorem permission_intersection_sound (perms_a perms_b : list Perm) :
  (forall x,
      x ∈ permission_intersection perms_a perms_b ->
      (x ∈ perms_a \/ x ∈ perms_b)
      /\ (exists a, a ∈ perms_a /\ perm_name a = perm_name x)
      /\ (exists b, b ∈ perms_b /\ perm_name b = perm_name x))
  /\ permission_intersection [] perms_b = ∅
  /\ permission_intersection perms_a [] = ∅.
Proof.
  split; [|split].
  - intros x. apply permission_intersection_elem.
  - reflexivity.
  - apply set_eq. intros x. split; [|intros Hx; now apply elem_of_empty in Hx].
    intros Hx. apply elem_of_permission_intersection in Hx as (a & _ & Hx).
    apply intersection_step_elem in Hx as (args_b & Hargs & _).
    unfold permission_list_to_dict in Hargs. simpl in Hargs.
    now rewrite lookup_empty in Hargs.
Qed.

(** X22: an object of the first list that is not itself in the second is
    in the intersection exactly when the second list has an object of its
    name with the same argument or with the wildcard, or has its name at all
    when its own argument is empty. *)
Theorem permission_intersection_member (perms_a perms_b : list Perm)
    (a : Perm) :
  a ∈ perms_a ->
  ((exists b, b ∈ perms_b /\ perm_name b = perm_name a
              /\ (perm_argument b = perm_argument a \/ perm_argument a = ""
                  \/ perm_argument b = "*")) ->
   a ∈ permission_intersection perms_a perms_b)
  /\ (a ∉ perms_b ->
      a ∈ permission_intersection perms_a perms_b ->
      exists b, b ∈ perms_b /\ perm_name b = perm_name a
                /\ (perm_argument b = perm_argument a \/ perm_argument a = ""
                    \/ perm_argument b = "*")).
Proof.
  intros Ha. split.
  - intros (b & Hb & Hn & Hrule).
    apply elem_of_permission_intersection. exists a. split; [exact Ha|].
    destruct (permission_list_to_dict_present perms_b b Hb)
      as (args_b & Hargs & Hsome).
    rewrite Hn in Hargs. apply (intersection_step_self _ _ args_b Hargs).
    destruct Hrule as [Hk|[Hk|Hk]].
    + left. now rewrite <- Hk.
    + right. now left.
    + right. right. now rewrite <- Hk.
  - intros Hnotin Hin.
    apply elem_of_permission_intersection in Hin as (a' & Ha' & Hin).
    apply intersection_step_elem in Hin as (args_b & Hargs & Hcase).
    destruct Hcase as [[-> Hrule]|[k Hk]].
    + destruct Hrule as [[b Hb]|[Harg|[b Hb]]].
      * destruct (permission_list_to_dict_elem _ _ _ _ _ Hargs Hb)
          as (Hin & Hn & Hk). eauto 10.
      * destruct (permission_list_to_dict_nonempty _ _ _ Hargs)
          as (k & b & Hb).
        destruct (permission_list_to_dict_elem _ _ _ _ _ Hargs Hb)
          as (Hin & Hn & _). eauto 10.
      * destruct (permission_list_to_dict_elem _ _ _ _ _ Hargs Hb)
          as (Hin & Hn & Hk). eauto 10.
    + destruct (permission_list_to_dict_elem _ _ _ _ _ Hargs Hk)
        as (Hin & _). contradiction.
Qed.

Lemma permission_intersection_member_witness :
  mkPerm "ssh" "" 1 ∈ [mkPerm "ssh" "" 1; mkPerm "sudo" "web" 2]
  /\ mkPerm "ssh" "" 1
     ∈ permission_intersection [mkPerm "ssh" "" 1; mkPerm "sudo" "web" 2]
                               [mkPerm "ssh" "prod" 3].
Proof.
  assert (Ha : mkPerm "ssh" "" 1
               ∈ [mkPerm "ssh" "" 1; mkPerm "sudo" "web" 2])
    by apply list_elem_of_here.
  split; [exact Ha|].
  apply (proj1 (permission_intersection_member
                  [mkPerm "ssh" "" 1; mkPerm "sudo" "web" 2]
                  [mkPerm "ssh" "prod" 3] (mkPerm "ssh" "" 1) Ha)).
  exists (mkPerm "ssh" "prod" 3). split; [apply list_elem_of_here|].
  split; [reflexivity|]. right. now left.
Defined.

(** X23: intersecting a list with itself gives back its permissions. *)
Theorem permission_intersection_self (perms : list Perm) :
  permission_intersection perms perms = list_to_set perms.
Proof.
  apply set_eq. intros x. rewrite elem_of_list_to_set. split.
  - intros Hx.
    destruct (permission_intersection_elem perms perms x Hx) as [[?|?] _];
      assumption.
  - intros Hx. apply elem_of_permission_intersection.
    exists x. split; [exact Hx|].
    destruct (permission_list_to_dict_present perms x Hx)
      as (args_b & Hargs & Hsome).
    apply (intersection_step_self _ _ args_b Hargs). now left.
Qed.

(** ** The catalogue of grantable permissions *)

Section DictAppend.
Context {K V : Type} `{EqDecision K}.

Lemma dict_set_fresh (d : list (K * V)) k v :
  k ∉ dict_keys d -> dict_set d k v = d ++ [(k, v)].
Proof.
  unfold dict_keys. induction d as [|[k0 v0] d IH]; simpl; [reflexivity|].
  rewrite not_elem_of_cons. intros [Hne Hnot].
  destruct (decide (k = k0)); [contradiction|]. now rewrite IH.
Qed.

Lemma dict_get_last (d : list (K * V)) k v :
  k ∉ dict_keys d -> dict_get (d ++ [(k, v)]) k = Some v.
Proof.
  unfold dict_keys. induction d as [|[k0 v0] d IH]; simpl.
  - intros _. now destruct (decide (k = k)).
  - rewrite not_elem_of_cons. intros [Hne Hnot].
    destruct (decide (k = k0)); [contradiction|]. now apply IH.
Qed.

Lemma dict_set_last (d : list (K * V)) k v v' :
  k ∉ dict_keys d -> dict_set (d ++ [(k, v)]) k v' = d ++ [(k, v')].
Proof.
  unfold dict_keys. induction d as [|[k0 v0] d IH]; simpl.
  - intros _. now destruct (decide (k = k)).
  - rewrite not_elem_of_cons. intros [Hne Hnot].
    destruct (decide (k = k0)); [contradiction|]. now rewrite IH.
Qed.

Lemma dict_set_not_nil (d : list (K * V)) k v : dict_set d k v <> [].
Proof.
  destruct d as [|[k0 v0] d]; simpl; [discriminate|].
  destruct (decide (k = k0)); discriminate.
Qed.
End DictAppend.

Section Catalogue.
Context `{Collaborators}.

(** The loops that fill [args_by_perm]. *)
Lemma args_by_perm_append (k : OwnerKey) (l l0 : list string)
    (d : list (OwnerKey * list string)) :
  k ∉ dict_keys d ->
  foldl (fun d argument =>
           dict_set d k (default [] (dict_get d k) ++ [argument]))
        (d ++ [(k, l0)]) l
  = d ++ [(k, l0 ++ l)].
Proof.
  intros Hk. revert l0. induction l as [|a l IH]; intros l0; simpl.
  - now rewrite app_nil_r.
  - rewrite dict_get_last by exact Hk. simpl.
    rewrite dict_set_last by exact Hk. rewrite IH.
    now rewrite <- app_assoc.
Qed.

Lemma args_by_perm_map (m : OwnerMap) (d : list (OwnerKey * list string)) :
  NoDup (dict_keys m) ->
  (forall k by_arg, (k, by_arg) ∈ m -> by_arg <> []) ->
  (forall k, k ∈ dict_keys m -> k ∉ dict_keys d) ->
  foldl
    (fun d '(permission, owners_by_arg) =>
       foldl (fun d argument =>
                dict_set d permission
                  (default [] (dict_get d permission) ++ [argument]))
             d (dict_keys owners_by_arg))
    d m
  = d ++ map (fun '(k, by_arg) => (k, dict_keys by_arg)) m.
Proof.
  revert d. induction m as [|[k by_arg] m IH]; intros d Hnd Hne Hfresh; simpl.
  - now rewrite app_nil_r.
  - unfold dict_keys in Hnd. simpl in Hnd.
    apply NoDup_cons in Hnd as [Hk Hnd].
    assert (Hkd : k ∉ dict_keys d) by (apply Hfresh; now left).
    assert (Hby : by_arg <> []) by (apply (Hne k); now left).
    destruct by_arg as [|[a owners] by_arg]; [contradiction|].
    cbn [dict_keys fmap list_fmap fst foldl].
    assert (Hget : dict_get d k = None) by now apply dict_get_None_keys.
    rewrite Hget. simpl default. rewrite app_nil_l.
    rewrite dict_set_fresh by exact Hkd.
    rewrite args_by_perm_append by exact Hkd.
    rewrite IH.
    + now rewrite <- app_assoc.
    + exact Hnd.
    + intros k' by_arg' Hin. apply (Hne k'). now right.
    + intros k' Hin Hin'. unfold dict_keys in Hin'.
      rewrite fmap_app, elem_of_app in Hin'. destruct Hin' as [Hin'|Hin'].
      * apply (Hfresh k'); [now right|exact Hin'].
      * simpl in Hin'. apply list_elem_of_singleton in Hin'. subst k'.
        contradiction.
Qed.

Lemma reduce_args_not_nil (restricted : list string) (k : OwnerKey)
    (args : list string) :
  args <> [] -> _reduce_args restricted k args <> [].
Proof.
  intros Hargs. unfold _reduce_args.
  destruct (negb _ && key_in k restricted && any _) eqn:Hrestricted.
  - apply andb_true_iff in Hrestricted as [_ Hany].
    apply any_non_wildcard in Hany as (a & Ha & Hne).
    intros Hnil.
    assert (Hin : a ∈ sorted id (py_set (filter (fun a => a <> "*") args))).
    { rewrite sorted_set_elem_of, list_elem_of_filter. tauto. }
    rewrite Hnil in Hin. inversion Hin.
  - destruct (all _); [|discriminate].
    destruct args as [|a args]; [contradiction|].
    intros Hnil.
    assert (Hin : a ∈ sorted id (py_set (a :: args))).
    { rewrite sorted_set_elem_of. now left. }
    rewrite Hnil in Hin. inversion Hin.
Qed.

Lemma owners_extend_not_nil (m : OwnerMap) (k : OwnerKey) (a : string)
    (owners : list Group) :
  (forall k by_arg, (k, by_arg) ∈ m -> by_arg <> []) ->
  forall k' by_arg,
    (k', by_arg) ∈ owners_extend m k a owners -> by_arg <> [].
Proof.
  intros Hm k' by_arg Hin. unfold owners_extend in Hin.
  apply dict_set_elem in Hin as [Hin|[= -> ->]].
  - eapply Hm, Hin.
  - apply dict_set_not_nil.
Qed.

(** X24: the catalogue of grantable permissions never raises, and it is
    the resolver's owner map (without the separate entry for global owners)
    read permission by permission: the permissions in the order the resolver
    recorded them, each once, and beside each the reduction of the patterns
    the resolver has owners under.  No permission is listed with an empty
    list of arguments. *)
Theorem get_grantable_permissions_catalogue (db : DB)
    (restricted_ownership_permissions : list string) :
  exists m,
    get_owners_by_grantable_permission db false = Return m
    /\ get_grantable_permissions db restricted_ownership_permissions
       = Return
           (map (fun '(k, by_arg) =>
                   (k, _reduce_args restricted_ownership_permissions k
                         (dict_keys by_arg)))
                m)
    /\ NoDup (dict_keys m)
    /\ (GLOBAL_OWNERS ∉ dict_keys m)
    /\ forall k by_arg,
         (k, by_arg) ∈ m ->
         _reduce_args restricted_ownership_permissions k (dict_keys by_arg)
         <> [].
Proof.
  destruct (resolver_invariant
              (fun m => owner_map_wf m
                        /\ (GLOBAL_OWNERS ∉ dict_keys m)
                        /\ forall k by_arg, (k, by_arg) ∈ m -> by_arg <> [])
              db false) as (m & Hm & [Hnd _] & Hglobal & Hne).
  - split; [split; [constructor|intros k by_arg Hin; inversion Hin]|].
    split; [intros Hin; inversion Hin|].
    intros k by_arg Hin. inversion Hin.
  - intros m k a g _ _ Hk (Hwf & Hglobal & Hne).
    split; [now apply owners_extend_wf|]. split.
    + intros Hin. apply owners_extend_keys in Hin as [Hin|Hin].
      * contradiction.
      * symmetry in Hin. destruct (Hk Hin) as [Hsg _]. discriminate.
    + now apply owners_extend_not_nil.
  - intros m n a owners (Hwf & Hglobal & Hne).
    split; [now apply owners_extend_wf|]. split.
    + intros Hin. apply owners_extend_keys in Hin as [Hin|Hin].
      * contradiction.
      * discriminate.
    + now apply owners_extend_not_nil.
  - exists m. split; [exact Hm|]. split; [|split; [exact Hnd|split]].
    + unfold get_grantable_permissions. rewrite Hm. simpl.
      rewrite (args_by_perm_map m []).
      * simpl. rewrite map_map. f_equal. apply map_ext. now intros [k by_arg].
      * exact Hnd.
      * exact Hne.
      * intros k _ Hin. inversion Hin.
    + exact Hglobal.
    + intros k by_arg Hin. apply reduce_args_not_nil.
      specialize (Hne k by_arg Hin). destruct by_arg; [contradiction|].
      discriminate.
Qed.
End Catalogue.

(** ** A request and its history *)

Lemma mapM_ext_elem {A B : Type} (f g : A -> option B) (l : list A) :
  (forall x, x ∈ l -> f x = g x) -> mapM f l = mapM g l.
Proof.
  induction l as [|x l IH]; intros Hext; [reflexivity|].
  simpl. rewrite (Hext x) by now left.
  rewrite IH; [reflexivity|]. intros y Hy. apply Hext. now right.
Qed.

Lemma mapM_snoc {A B : Type} (f : A -> option B) (l : list A) (x : A) :
  mapM f (l ++ [x]) = k ← mapM f l; y ← f x; Some (k ++ [y]).
Proof.
  induction l as [|a l IH]; simpl.
  - now destruct (f x).
  - destruct (f a) as [b|]; simpl; [|reflexivity].
    rewrite IH. destruct (mapM f l) as [k|]; simpl; [|reflexivity].
    now destruct (f x).
Qed.

Lemma filter_empty_none {A : Type} (P : A -> Prop) `{forall x, Decision (P x)}
    (l : list A) :
  filter P l = [] -> forall x, x ∈ l -> ~ P x.
Proof.
  intros Hnil x Hx HP.
  assert (Hin : x ∈ filter P l) by (apply list_elem_of_filter; tauto).
  rewrite Hnil in Hin. inversion Hin.
Qed.

Ltac each_outcome :=
  repeat
    (cbn [negb current committed outbox db_set_request_status db_add_comment
          db_add_status_change permission_maps snd];
     match goal with
     | |- context [request_permission ?db ?r] =>
         destruct (request_permission db r)
     | |- context [request_group ?db ?r] => destruct (request_group db r)
     | |- context [request_requester ?db ?r] =>
         destruct (request_requester db r)
     | |- context [ARGUMENT_VALIDATION ?a] => destruct (ARGUMENT_VALIDATION a)
     | |- context [bool_decide ?P] => destruct (bool_decide P)
     | |- context [decide (?e = IntegrityError)] =>
         destruct (decide (e = IntegrityError))
     end).

Section HistoryFacts.
Context `{Collaborators}.

(** The dictionary of comments gives, for a status change of the request,
    the last comment of the table on it. *)
Lemma get_changes_by_request_id_comments (db : DB) (id : Z) :
  get_changes_by_request_id db id
  = mapM (fun sc => c ← comment_on db (sc_id sc); Some (sc, c))
         (filter (fun sc => sc_request_id sc = id) (status_changes db)).
Proof.
  unfold get_changes_by_request_id. apply mapM_ext_elem. intros sc Hsc.
  rewrite foldl_insert_lookup, list_filter_filter. unfold comment_on.
  do 2 f_equal. apply list_filter_iff. intros c. split; [tauto|].
  intros [Htype Hpk]. split; [exact Hpk|]. split; [exact Htype|].
  rewrite Hpk. apply list_elem_of_fmap. now exists sc.
Qed.

(** X25: the history of a request lists exactly the status changes of the
    request, in the order of the table, each with the last comment of the
    table on it; and the call fails (the [KeyError] of the lookup) exactly
    when one of these status changes has no comment. *)
Theorem get_changes_by_request_id_spec (db : DB) (id : Z) :
  (get_changes_by_request_id db id = None
   <-> exists sc,
         sc ∈ status_changes db /\ sc_request_id sc = id
         /\ forall c, c ∈ comments db ->
                      comment_obj_type c = OBJ_TYPE_STATUS_CHANGE ->
                      comment_obj_pk c <> sc_id sc)
  /\ (forall l,
         get_changes_by_request_id db id = Some l ->
         l.*1 = filter (fun sc => sc_request_id sc = id) (status_changes db)
         /\ forall sc c,
              (sc, c) ∈ l ->
              comment_on db (sc_id sc) = Some c
              /\ c ∈ comments db /\ comment_obj_pk c = sc_id sc).
Proof.
  rewrite get_changes_by_request_id_comments. split.
  - rewrite mapM_None, Exists_exists. split.
    + intros (sc & Hsc & Hnone). apply list_elem_of_filter in Hsc as [Hid Hsc].
      exists sc. split; [exact Hsc|]. split; [exact Hid|].
      intros c Hc Htype Hpk.
      destruct (comment_on db (sc_id sc)) as [c'|] eqn:Hon;
        [discriminate|].
      unfold comment_on in Hon. apply last_None in Hon.
      apply (filter_empty_none _ _ Hon c Hc). tauto.
    + intros (sc & Hsc & Hid & Hnone). exists sc.
      split; [apply list_elem_of_filter; tauto|].
      unfold comment_on. rewrite filter_none; [reflexivity|].
      intros c Hc [Htype Hpk]. now apply (Hnone c).
  - intros l Hl. apply mapM_Some in Hl.
    induction Hl as [|sc [sc' c] scs l Hhead Hl IH].
    + split; [reflexivity|]. intros sc c Hin. inversion Hin.
    + destruct IH as [IHfst IHelem].
      destruct (comment_on db (sc_id sc)) as [c'|] eqn:Hon;
        [|discriminate]. simpl in Hhead. injection Hhead as <- <-.
      split; [simpl; now f_equal|].
      intros sc0 c0 Hin. apply elem_of_cons in Hin as [[= -> ->]|Hin];
        [|now apply IHelem].
      split; [exact Hon|]. unfold comment_on in Hon.
      apply last_Some_elem_of, list_elem_of_filter in Hon. tauto.
Qed.

(** One more status change with its comment: the history of its request
    gains it at the end, every other history is as it was. *)
Lemma history_extend (db db' : DB) (nsc : PermissionRequestStatusChange)
    (nc : Comment) (id : Z) :
  status_changes db' = status_changes db ++ [nsc] ->
  comments db' = comments db ++ [nc] ->
  sc_id nsc ∉ sc_id <$> status_changes db ->
  comment_obj_type nc = OBJ_TYPE_STATUS_CHANGE ->
  comment_obj_pk nc = sc_id nsc ->
  get_changes_by_request_id db' id
  = if decide (id = sc_request_id nsc)
    then l ← get_changes_by_request_id db id; Some (l ++ [(nsc, nc)])
    else get_changes_by_request_id db id.
Proof.
  intros Hscs Hcs Hfresh Htype Hpk.
  rewrite !get_changes_by_request_id_comments, Hscs, filter_app.
  assert (Hold : forall sc,
             sc ∈ status_changes db ->
             comment_on db' (sc_id sc) = comment_on db (sc_id sc)).
  { intros sc Hsc. unfold comment_on. rewrite Hcs, filter_app.
    rewrite filter_cons_False, filter_nil, app_nil_r; [reflexivity|].
    intros [_ Hsame]. apply Hfresh. rewrite <- Hpk, Hsame.
    apply list_elem_of_fmap. now exists sc. }
  assert (Hnew : comment_on db' (sc_id nsc) = Some nc).
  { unfold comment_on. rewrite Hcs, filter_app.
    rewrite filter_cons_True by tauto. now rewrite filter_nil, last_snoc. }
  assert (Hmap : mapM (fun sc => c ← comment_on db' (sc_id sc); Some (sc, c))
                      (filter (fun sc => sc_request_id sc = id)
                              (status_changes db))
                 = mapM (fun sc => c ← comment_on db (sc_id sc); Some (sc, c))
                        (filter (fun sc => sc_request_id sc = id)
                                (status_changes db))).
  { apply mapM_ext_elem. intros sc Hsc.
    apply list_elem_of_filter in Hsc as [_ Hsc]. now rewrite Hold. }
  destruct (decide (id = sc_request_id nsc)) as [Hid|Hid].
  - rewrite filter_cons_True by (symmetry; exact Hid).
    rewrite filter_nil, mapM_snoc, Hmap, Hnew. reflexivity.
  - rewrite filter_cons_False by (intros Heq; apply Hid; now symmetry).
    now rewrite filter_nil, app_nil_r, Hmap.
Qed.

Lemma create_request_returns (now : Z) (user : User) (group : Group)
    (permission : Permission) (argument reason : string) (s s' : Session)
    (request : PermissionRequest) :
  create_request now user group permission argument reason s
  = (Return request, s') ->
  request = created_request (current s) now user group permission argument
  /\ current s'
     = created_rows (current s) now user group permission argument reason.
Proof.
  unfold create_request. run_workflow.
  destruct (existsb _ _); [discriminate|].
  destruct (bool_decide (0 < _)%nat); [discriminate|].
  destruct (get_owners_by_grantable_permission (current s) true);
    [|discriminate].
  destruct (get_owner_arg_list _ _ _ _); [|discriminate].
  destruct (bool_decide (_ = [])); [discriminate|].
  destruct (permission_audited permission && _); [discriminate|].
  intros [= <- <-]. split; reflexivity.
Qed.

(** X26: a request that [create_request] has returned can be read back:
    [get_request_by_id] gives that request for its id, and, when every
    status change of the table belongs to a request of the table, its
    history is the one change to "pending" with the reason as its
    comment. *)
Theorem create_request_read_back (now : Z) (user : User) (group : Group)
    (permission : Permission) (argument reason : string) (s s' : Session)
    (request : PermissionRequest) :
  create_request now user group permission argument reason s
  = (Return request, s') ->
  get_request_by_id (current s') (request_id request) = OneRow request
  /\ ((forall sc, sc ∈ status_changes (current s) ->
                  sc_request_id sc ∈ request_id <$> requests (current s)) ->
      get_changes_by_request_id (current s') (request_id request)
      = Some [(created_status_change (current s) now user request,
               mkComment OBJ_TYPE_STATUS_CHANGE
                 (sc_id (created_status_change (current s) now user request))
                 (user_id user) reason now)]).
Proof.
  intros Hrun. apply create_request_returns in Hrun as [Hreq Hrows].
  assert (Hfresh : request_id request ∉ request_id <$> requests (current s)).
  { rewrite Hreq. apply next_id_fresh. }
  split.
  - unfold get_request_by_id. rewrite Hrows.
    cbn [created_rows requests db_add_comment db_add_status_change
         db_add_request].
    rewrite filter_app, filter_none.
    + rewrite <- Hreq, filter_cons_True by reflexivity. reflexivity.
    + intros r Hr Hid. apply Hfresh. rewrite <- Hid.
      apply list_elem_of_fmap. now exists r.
  - intros Hkeys.
    rewrite (history_extend (current s) (current s')
               (created_status_change (current s) now user request)
               (mkComment OBJ_TYPE_STATUS_CHANGE
                  (sc_id (created_status_change (current s) now user request))
                  (user_id user) reason now)).
    + rewrite decide_True by reflexivity.
      rewrite get_changes_by_request_id_comments, filter_none; [reflexivity|].
      intros sc Hsc Hid. apply Hfresh. rewrite <- Hid. now apply Hkeys.
    + rewrite Hrows, Hreq. reflexivity.
    + rewrite Hrows, Hreq. reflexivity.
    + apply next_id_fresh.
    + reflexivity.
    + reflexivity.
Qed.

Lemma update_request_history_rows (now : Z) (request : PermissionRequest)
    (user : User) (new_status : Status) (comment : string) (s : Session) :
  request_status request <> new_status ->
  checks_pass (current s) request new_status ->
  status_changes
    (committed (update_request now request user new_status comment s).2)
  = status_changes (current s)
    ++ [new_status_change (current s) now request user new_status]
  /\ comments
       (committed (update_request now request user new_status comment s).2)
     = comments (current s) ++ [new_comment (current s) now user comment].
Proof.
  intros Hstatus Hchecks.
  unfold update_request. rewrite decide_False by exact Hstatus.
  run_workflow. unfold checks_pass in Hchecks.
  destruct (decide (new_status = actioned)) as [->|Hnew].
  - destruct (Hchecks eq_refl) as (p & -> & Haudit).
    destruct (permission_audited p).
    + destruct (Haudit eq_refl) as (g & -> & ->).
      each_outcome; split; reflexivity.
    + each_outcome; split; reflexivity.
  - each_outcome; split; reflexivity.
Qed.

(** X27: an update that changes the status and passes its checks adds
    exactly one entry to the history of the request, at its end and however
    the call ends afterwards: the change from the old status to the new one,
    by the user, with the comment given.  The history of every other request
    is as it was. *)
Theorem update_request_history (now : Z) (request : PermissionRequest)
    (user : User) (new_status : Status) (comment : string) (s : Session)
    (id : Z) :
  request_status request <> new_status ->
  checks_pass (current s) request new_status ->
  get_changes_by_request_id
    (committed (update_request now request user new_status comment s).2) id
  = if decide (id = request_id request)
    then l ← get_changes_by_request_id (current s) id;
         Some (l ++ [(new_status_change (current s) now request user
                                        new_status,
                      new_comment (current s) now user comment)])
    else get_changes_by_request_id (current s) id.
Proof.
  intros Hstatus Hchecks.
  destruct (update_request_history_rows now request user new_status comment s
              Hstatus Hchecks) as [Hscs Hcs].
  apply (history_extend (current s) _
           (new_status_change (current s) now request user new_status)
           (new_comment (current s) now user comment) id Hscs Hcs).
  - apply next_id_fresh.
  - reflexivity.
  - reflexivity.
Qed.
End HistoryFacts.

Lemma create_request_read_back_witness :
  exists request s',
    create_request (H := sample_env) 500 user_zay group_team perm_sshd "web"
                   "deploys" sample_session
    = (Return request, s')
    /\ get_request_by_id (current s') (request_id request) = OneRow request.
Proof.
  destruct (create_request (H := sample_env) 500 user_zay group_team perm_sshd
              "web" "deploys" sample_session) as [[request|e] s'] eqn:Hrun;
    [|vm_compute in Hrun; discriminate].
  exists request, s'. split; [reflexivity|].
  apply (proj1 (create_request_read_back (H := sample_env) 500 user_zay
                  group_team perm_sshd "web" "deploys" sample_session s'
                  request Hrun)).
Defined.

Lemma update_request_history_witness :
  get_changes_by_request_id (H := sample_env)
    (committed (update_request (H := sample_env) 500 request_ssh user_gary
                               cancelled "no" sample_session).2)
    (request_id request_ssh)
  = l ← get_changes_by_request_id (H := sample_env) sample_db
          (request_id request_ssh);
    Some (l ++ [(new_status_change sample_db 500 request_ssh user_gary
                                   cancelled,
                 new_comment (H := sample_env) sample_db 500 user_gary "no")]).
Proof.
  apply (update_request_history (H := sample_env) 500 request_ssh user_gary
           cancelled "no" sample_session (request_id request_ssh)).
  - discriminate.
  - intros Hnew. discriminate Hnew.
Defined.

(** ** Auditing of a permission *)

Lemma find_map_same {A : Type} (f : A -> bool) (g : A -> A) (l : list A) :
  (forall x, f (g x) = f x) -> List.find f (map g l) = g <$> List.find f l.
Proof.
  intros Hsame. induction l as [|x l IH]; simpl; [reflexivity|].
  rewrite Hsame. now destruct (f x).
Qed.

Section AuditingFacts.
Context `{Collaborators} `{PM : PermissionModel}.

Lemma request_permission_set_audited (db db' : DB) (id : Z) (audited : bool)
    (request : PermissionRequest) (p : Permission) :
  permissions db'
  = map (fun p => if decide (permission_id p = id)
                  then set_audited audited p else p) (permissions db) ->
  request_permission db request = Return p ->
  request_permission db' request
  = Return (if decide (permission_id p = id) then set_audited audited p
            else p).
Proof.
  intros Hrows. unfold request_permission, related. rewrite Hrows.
  rewrite find_map_same.
  - destruct (List.find _ (permissions db)) as [q|]; simpl; [|discriminate].
    now intros [= ->].
  - intros q. now destruct (decide (permission_id q = id)).
Qed.

Lemma enable_permission_auditing_run (name : string) (actor : Z)
    (s : Session) (permission : Permission) :
  get_permission (current s) name = Some permission ->
  enable_permission_auditing name actor s
  = let db := db_incr_updates
                (db_add_audit_log
                   (mkAuditLog actor "enable_auditing" "Enabled auditing."
                               None None (Some (permission_id permission)))
                   (db_set_permission_audited (permission_id permission) true
                                              (current s))) in
    (inr tt, mkSession db db (outbox s)).
Proof. intros Hget. unfold enable_permission_auditing. now rewrite Hget. Qed.

Lemma disable_permission_auditing_run (name : string) (actor : Z)
    (s : Session) (permission : Permission) :
  get_permission (current s) name = Some permission ->
  disable_permission_auditing name actor s
  = let db := db_incr_updates
                (db_add_audit_log
                   (mkAuditLog actor "disable_auditing" "Disabled auditing."
                               None None (Some (permission_id permission)))
                   (db_set_permission_audited (permission_id permission) false
                                              (current s))) in
    (inr tt, mkSession db db (outbox s)).
Proof. intros Hget. unfold disable_permission_auditing. now rewrite Hget. Qed.

Lemma update_request_unaudited (now : Z) (request : PermissionRequest)
    (user : User) (new_status : Status) (comment : string) (s : Session)
    (p : Permission) :
  request_permission (current s) request = Return p ->
  permission_audited p = false ->
  (update_request now request user new_status comment s).1
  <> Raise UserNotAuditor.
Proof.
  intros Hperm Haudited.
  destruct (update_request now request user new_status comment s)
    as [result s'] eqn:Heq.
  simpl. intros ->. revert Heq. unfold update_request.
  destruct (decide (request_status request = new_status));
    [discriminate|].
  unfold grant_permission, try_except, AuditLog_log, send_email,
    mbind, M_bind, mret, M_ret, raise, lift, query, update, commit, rollback.
  cbn [current committed outbox fst snd]. rewrite Hperm, Haudited.
  intros Heq. outcomes_of Heq; congruence.
Qed.

(** X28: once auditing has been enabled for a permission, a request for it
    can no longer be actioned for a group whose controllers are not
    auditors: the update is refused with [UserNotAuditor] and writes
    nothing. *)
Theorem enable_permission_auditing_checked (name : string) (actor now : Z)
    (s : Session) (permission p : Permission) (request : PermissionRequest)
    (group : Group) (user : User) (comment : string) :
  get_permission (current s) name = Some permission ->
  request_permission (current s) request = Return p ->
  permission_id p = permission_id permission ->
  request_group (current s) request = Return group ->
  request_status request <> actioned ->
  assert_controllers_are_auditors
    (current (enable_permission_auditing name actor s).2) group = false ->
  update_request now request user actioned comment
                 (enable_permission_auditing name actor s).2
  = (Raise UserNotAuditor, (enable_permission_auditing name actor s).2).
Proof.
  intros Hget Hperm Hid Hgroup Hstatus.
  rewrite (enable_permission_auditing_run name actor s permission Hget).
  cbn [snd]. intros Hfails.
  apply (update_request_audited_raises now request user comment _
           (set_audited true p) group).
  - exact Hstatus.
  - cbn [current].
    rewrite (request_permission_set_audited (current s) _
               (permission_id permission) true request p);
      [|reflexivity|exact Hperm].
    now rewrite decide_True by exact Hid.
  - reflexivity.
  - exact Hgroup.
  - exact Hfails.
Qed.

(** X29: once auditing has been disabled for a permission, no update of a
    request for it is refused with [UserNotAuditor], whoever controls the
    group. *)
Theorem disable_permission_auditing_unchecked (name : string)
    (actor now : Z) (s : Session) (permission p : Permission)
    (request : PermissionRequest) (user : User) (new_status : Status)
    (comment : string) :
  get_permission (current s) name = Some permission ->
  request_permission (current s) request = Return p ->
  permission_id p = permission_id permission ->
  (update_request now request user new_status comment
                  (disable_permission_auditing name actor s).2).1
  <> Raise UserNotAuditor.
Proof.
  intros Hget Hperm Hid.
  rewrite (disable_permission_auditing_run name actor s permission Hget).
  cbn [snd].
  apply (update_request_unaudited now request user new_status comment _
           (set_audited false p)); [|reflexivity].
  cbn [current].
  rewrite (request_permission_set_audited (current s) _
             (permission_id permission) false request p);
    [|reflexivity|exact Hperm].
  now rewrite decide_True by exact Hid.
Qed.

(** X30: enabling and then disabling the auditing of a permission that was
    not audited gives back the table of permissions as it was.  What stays
    of the two calls is two entries of the audit log, "enable_auditing" and
    "disable_auditing" on the permission in that order, and two updates
    counted; everything is committed, no other table is written and no mail
    is sent. *)
Theorem permission_auditing_round_trip (name : string) (actor actor' : Z)
    (s : Session) (p p1 : Permission) :
  get_permission (current s) name = Some p ->
  get_permission (current (enable_permission_auditing name actor s).2) name
  = Some p1 ->
  permission_id p1 = permission_id p ->
  (forall q, q ∈ permissions (current s) ->
             permission_id q = permission_id p ->
             permission_audited q = false) ->
  exists s2,
    disable_permission_auditing name actor'
      (enable_permission_auditing name actor s).2
    = (inr tt, s2)
    /\ permissions (current s2) = permissions (current s)
    /\ audit_logs (current s2)
       = audit_logs (current s)
         ++ [mkAuditLog actor "enable_auditing" "Enabled auditing."
                        None None (Some (permission_id p));
             mkAuditLog actor' "disable_auditing" "Disabled auditing."
                        None None (Some (permission_id p))]
    /\ counter_updates (current s2) = counter_updates (current s) + 2
    /\ committed s2 = current s2
    /\ outbox s2 = outbox s
    /\ groups (current s2) = groups (current s)
    /\ users (current s2) = users (current s)
    /\ permission_maps (current s2) = permission_maps (current s)
    /\ requests (current s2) = requests (current s)
    /\ status_changes (current s2) = status_changes (current s)
    /\ comments (current s2) = comments (current s).
Proof.
  intros Hget Hget1 Hid Hunaudited.
  rewrite (disable_permission_auditing_run name actor' _ p1 Hget1).
  rewrite (enable_permission_auditing_run name actor s p Hget).
  cbn zeta. eexists. split; [reflexivity|].
  cbn [snd current committed outbox permissions audit_logs counter_updates
       groups users permission_maps requests status_changes comments
       db_incr_updates db_add_audit_log db_set_permission_audited].
  rewrite Hid. split; [|split; [|split; [lia|repeat split]]].
  - rewrite map_map. rewrite <- (map_id (permissions (current s))) at 2.
    apply map_ext_in. intros q Hq. apply list_elem_of_In in Hq.
    destruct (decide (permission_id q = permission_id p)) as [Hq'|Hq'].
    + cbn [set_audited permission_id]. rewrite decide_True by exact Hq'.
      specialize (Hunaudited q Hq Hq'). destruct q. simpl in *.
      now rewrite Hunaudited.
    + now rewrite decide_False by exact Hq'.
  - now rewrite <- app_assoc.
Qed.
End AuditingFacts.

Lemma enable_permission_auditing_checked_witness :
  update_request (H := sample_env) 500 request_ssh user_gary actioned "ok"
    (enable_permission_auditing (PM := sample_model) "ssh" 1
                                sample_session).2
  = (Raise UserNotAuditor,
     (enable_permission_auditing (PM := sample_model) "ssh" 1
                                 sample_session).2).
Proof.
  apply (enable_permission_auditing_checked (H := sample_env)
           (PM := sample_model) "ssh" 1 500 sample_session perm_ssh perm_ssh
           request_ssh group_team user_gary "ok");
    try reflexivity.
  discriminate.
Defined.

Lemma disable_permission_auditing_unchecked_witness :
  (update_request (H := sample_env) 500 request_sudo user_gary actioned "ok"
     (disable_permission_auditing (PM := sample_model) "sudo" 1
                                  sample_session).2).1
  <> Raise UserNotAuditor.
Proof.
  apply (disable_permission_auditing_unchecked (H := sample_env)
           (PM := sample_model) "sudo" 1 500 sample_session perm_sudo
           perm_sudo request_sudo user_gary actioned "ok");
    reflexivity.
Defined.

Lemma permission_auditing_round_trip_witness :
  exists s2,
    disable_permission_auditing (PM := sample_model) "ssh" 2
      (enable_permission_auditing (PM := sample_model) "ssh" 1
                                  sample_session).2
    = (inr tt, s2)
    /\ permissions (current s2) = permissions sample_db.
Proof.
  destruct (permission_auditing_round_trip (PM := sample_model) "ssh" 1 2
              sample_session perm_ssh (set_audited true perm_ssh))
    as (s2 & Hrun & Hperms & _).
  - reflexivity.
  - reflexivity.
  - reflexivity.
  - intros q Hq Hid. vm_compute in Hq.
    repeat (apply elem_of_cons in Hq as [->|Hq];
            [first [reflexivity|discriminate Hid]|]).
    inversion Hq.
  - exists s2. split; [exact Hrun|exact Hperms].
Defined.
